(** * npmx.dev: the install-size comparison logic

    A shallow embedding of

    - [getComparisonVersion] and [useInstallSizeDiff]
      (the composable [~/composables/useInstallSizeDiff]), and
    - [calculateInstallSize] ([server/utils/install-size.ts]),

    together with the part of the npm [semver] package the composable
    imports ([compare], [prerelease], [valid]).

    Conventions.
    - JavaScript strings are [string]s; version strings are ASCII.
    - A JavaScript object used as a record of properties ([pkg.time],
      [pkg['dist-tags']]) and a [Map] are association lists in enumeration
      order (for keys that are no array indices, the order of insertion):
      [Object.keys] and [for ... of] enumerate in that order, and the
      stable [Array.prototype.sort] makes the order observable among
      versions that compare equal.
    - A property that may be [undefined] at run time is an [option].
    - Byte sizes and dependency counts are JavaScript numbers holding
      integers; they are [Z].  The one quotient, [sizeRatio], is the exact
      rational in [Q] (for integers below 2^53 the double the program
      computes is that rational correctly rounded, and its comparison with
      the representable constant 0.25 agrees with the exact one).
    - An exception is a [Throw] in the [result] monad. *)

From Stdlib Require Import List String Ascii Bool ZArith NArith QArith Lia.
From Stdlib Require Import Sorting.Sorted Sorting.Permutation DecimalString.
From Stdlib Require OrderedTypeEx.
Import ListNotations.

Local Open Scope string_scope.
Local Open Scope Z_scope.

Set Implicit Arguments.

(** ** Exceptions *)

Inductive JsError : Type :=
| TypeError (msg : string).

Inductive result (A : Type) : Type :=
| Ok (a : A)
| Throw (e : JsError).

Arguments Ok {A} a.
Arguments Throw {A} e.

Definition bind {A B : Type} (c : result A) (k : A -> result B) : result B :=
  match c with
  | Ok a => k a
  | Throw e => Throw e
  end.

Notation "x <- c ;; k" := (bind c (fun x => k))
  (at level 61, c at next level, right associativity).

(** ** The part of [Array.prototype] the program uses *)

Section JsArray.
Variable A : Type.

(** [filter] with a callback that cannot throw is [List.filter]. *)

(** [arr.sort(cmp)] is a stable sort: an element goes in front of the
    first element it does not compare greater than.  The comparator may
    throw, and then so does the sort. *)
Fixpoint insertM (cmp : A -> A -> result Z) (x : A) (l : list A)
  : result (list A) :=
  match l with
  | [] => Ok [x]
  | y :: l' =>
      c <- cmp x y ;;
      if c <=? 0 then Ok (x :: y :: l')
      else (r <- insertM cmp x l' ;; Ok (y :: r))
  end.

Fixpoint sortM (cmp : A -> A -> result Z) (l : list A) : result (list A) :=
  match l with
  | [] => Ok []
  | x :: l' => s <- sortM cmp l' ;; insertM cmp x s
  end.

(** The same sort for a comparator that cannot throw. *)
Fixpoint insert (cmp : A -> A -> Z) (x : A) (l : list A) : list A :=
  match l with
  | [] => [x]
  | y :: l' => if cmp x y <=? 0 then x :: y :: l' else y :: insert cmp x l'
  end.

Fixpoint sort (cmp : A -> A -> Z) (l : list A) : list A :=
  match l with
  | [] => []
  | x :: l' => insert cmp x (sort cmp l')
  end.

(** [arr.indexOf(x)]: the first index holding [x], or -1. *)
Fixpoint indexOf (eqb : A -> A -> bool) (l : list A) (x : A) : Z :=
  match l with
  | [] => -1
  | y :: l' =>
      if eqb y x then 0
      else let i := indexOf eqb l' x in if i <? 0 then -1 else i + 1
  end.

(** [arr[i]]: [undefined] out of range. *)
Definition at_index (l : list A) (i : Z) : option A :=
  if i <? 0 then None else nth_error l (Z.to_nat i).
End JsArray.

(** ** Objects as property lists *)

Definition Obj (V : Type) : Type := list (string * V).

Definition keys {V : Type} (o : Obj V) : list string := map fst o.

Fixpoint get {V : Type} (o : Obj V) (k : string) : option V :=
  match o with
  | [] => None
  | (k', v) :: o' => if String.eqb k' k then Some v else get o' k
  end.

(** ** The npm [semver] package (strict mode), as far as it is imported *)

Module Semver.

Inductive Identifier : Type :=
| NumId (n : N)
| StrId (s : string).

Record SemVer : Type := mkSemVer {
  major : N;
  minor : N;
  patch : N;
  prerelease_ids : list Identifier;
  build : list string
}.

Definition MAX_LENGTH : nat := 256.
Definition MAX_SAFE_INTEGER : N := 9007199254740991.

Definition is_digit (c : ascii) : bool :=
  let n := nat_of_ascii c in ((48 <=? n) && (n <=? 57))%nat.

Definition is_letter (c : ascii) : bool :=
  let n := nat_of_ascii c in
  (((65 <=? n) && (n <=? 90)) || ((97 <=? n) && (n <=? 122)))%nat.

(** [[a-zA-Z0-9-]] *)
Definition is_letterdashnumber (c : ascii) : bool :=
  is_digit c || is_letter c || Ascii.eqb c "-"%char.

Definition is_space (c : ascii) : bool :=
  let n := nat_of_ascii c in
  (((9 <=? n) && (n <=? 13)) || (n =? 32))%nat.

Fixpoint drop_spaces (l : list ascii) : list ascii :=
  match l with
  | c :: l' => if is_space c then drop_spaces l' else l
  | [] => []
  end.

(** [version.trim()] *)
Definition trim (l : list ascii) : list ascii :=
  rev (drop_spaces (rev (drop_spaces l))).

(** Cut at the first occurrence of [sep]. *)
Fixpoint cut (sep : ascii) (l : list ascii)
  : list ascii * option (list ascii) :=
  match l with
  | [] => ([], None)
  | c :: l' =>
      if Ascii.eqb c sep then ([], Some l')
      else let (a, b) := cut sep l' in (c :: a, b)
  end.

(** [s.split(sep)] *)
Fixpoint split_on (sep : ascii) (l : list ascii) : list (list ascii) :=
  match l with
  | [] => [[]]
  | c :: l' =>
      if Ascii.eqb c sep then [] :: split_on sep l'
      else match split_on sep l' with
           | w :: ws => (c :: w) :: ws
           | [] => [[c]]
           end
  end.

Definition digit_value (c : ascii) : N := N.of_nat (nat_of_ascii c - 48).

Definition number_of_digits (l : list ascii) : N :=
  fold_left (fun acc c => 10 * acc + digit_value c)%N l 0%N.

(** [0|[1-9]\d*] *)
Definition is_numeric_identifier (l : list ascii) : bool :=
  match l with
  | [] => false
  | [c] => is_digit c
  | c :: _ => is_digit c && negb (Ascii.eqb c "0"%char) && forallb is_digit l
  end.

(** A prerelease identifier: [0|[1-9]\d*|\d*[a-zA-Z-][a-zA-Z0-9-]*] *)
Definition is_prerelease_identifier (l : list ascii) : bool :=
  match l with
  | [] => false
  | _ => forallb is_letterdashnumber l
         && (negb (forallb is_digit l) || is_numeric_identifier l)
  end.

(** A build identifier: [[a-zA-Z0-9-]+] *)
Definition is_build_identifier (l : list ascii) : bool :=
  match l with
  | [] => false
  | _ => forallb is_letterdashnumber l
  end.

(** The main version numbers; a number above [MAX_SAFE_INTEGER] is
    refused. *)
Definition main_number (l : list ascii) : option N :=
  if is_numeric_identifier l then
    let n := number_of_digits l in
    if (n <=? MAX_SAFE_INTEGER)%N then Some n else None
  else None.

(** A digit-only prerelease identifier below [MAX_SAFE_INTEGER] is kept as
    a number, any other as a string. *)
Definition prerelease_identifier (l : list ascii) : Identifier :=
  if forallb is_digit l then
    let n := number_of_digits l in
    if (n <? MAX_SAFE_INTEGER)%N then NumId n
    else StrId (string_of_list_ascii l)
  else StrId (string_of_list_ascii l).

Definition invalid_version (version : string) : JsError :=
  TypeError ("Invalid Version: " ++ version).

(** [new SemVer(version)] for a string: it throws on what does not match
    the strict grammar
    [v?MAJOR.MINOR.PATCH(-PRERELEASE)?(+BUILD)?] after trimming. *)
Definition SemVer_new (version : string) : result SemVer :=
  if (MAX_LENGTH <? String.length version)%nat then
    Throw (TypeError "version is longer than 256 characters")
  else
    let s := trim (list_ascii_of_string version) in
    let s := match s with
             | c :: r => if Ascii.eqb c "v"%char then r else s
             | [] => s
             end in
    let (mp, b) := cut "+"%char s in
    let (m, p) := cut "-"%char mp in
    let pre := match p with
               | None => Some []
               | Some p =>
                   let ids := split_on "."%char p in
                   if forallb is_prerelease_identifier ids
                   then Some (map prerelease_identifier ids) else None
               end in
    let bld := match b with
               | None => Some []
               | Some b =>
                   let ids := split_on "."%char b in
                   if forallb is_build_identifier ids
                   then Some (map string_of_list_ascii ids) else None
               end in
    match map main_number (split_on "."%char m), pre, bld with
    | [Some ma; Some mi; Some pa], Some pre, Some bld =>
        Ok (mkSemVer ma mi pa pre bld)
    | _, _, _ => Throw (invalid_version version)
    end.

(** [parse(version)]: [null] where the constructor throws. *)
Definition parse (version : string) : option SemVer :=
  match SemVer_new version with
  | Ok v => Some v
  | Throw _ => None
  end.

Definition string_of_N (n : N) : string :=
  NilZero.string_of_uint (N.to_uint n).

Definition string_of_identifier (i : Identifier) : string :=
  match i with
  | NumId n => string_of_N n
  | StrId s => s
  end.

(** [SemVer.format()], the [version] property. *)
Definition format (v : SemVer) : string :=
  string_of_N (major v) ++ "." ++ string_of_N (minor v) ++ "."
    ++ string_of_N (patch v)
    ++ match prerelease_ids v with
       | [] => ""
       | ids => "-" ++ String.concat "." (map string_of_identifier ids)
       end.

(** [valid(version)]: the normalised version, or [null]. *)
Definition valid (version : string) : option string :=
  match parse version with
  | Some v => Some (format v)
  | None => None
  end.

(** [prerelease(version)]: the prerelease identifiers, or [null] when
    there are none or the version is not valid. *)
Definition prerelease (version : string) : option (list Identifier) :=
  match parse version with
  | Some v =>
      match prerelease_ids v with
      | [] => None
      | ids => Some ids
      end
  | None => None
  end.

Definition compareNumbers (a b : N) : Z :=
  if (a =? b)%N then 0 else if (a <? b)%N then -1 else 1.

Definition is_numeric_id (i : Identifier) : bool :=
  match i with
  | NumId _ => true
  | StrId s => match list_ascii_of_string s with
               | [] => false
               | l => forallb is_digit l
               end
  end.

Definition number_of_id (i : Identifier) : N :=
  match i with
  | NumId n => n
  | StrId s => number_of_digits (list_ascii_of_string s)
  end.

(** [+a] for a digit-only identifier of value [n]: the nearest number of
    the binary64 format, ties to the even significand.  Below 2^53 every
    value is kept; above, the low bits are rounded away; [2^1024] stands
    for [Infinity]. *)
Definition to_number (n : N) : N :=
  let k := N.log2 n in
  if (k <? 53)%N then n
  else
    let sh := (k - 52)%N in
    let q := N.shiftr n sh in
    let r := N.land n (N.ones sh) in
    let half := N.shiftl 1 (sh - 1) in
    let q := if (half <? r)%N || ((r =? half)%N && N.odd q)
             then (q + 1)%N else q in
    N.min (N.shiftl q sh) (2 ^ 1024)%N.

(** [a === b] on identifiers. *)
Definition Identifier_eqb (a b : Identifier) : bool :=
  match a, b with
  | NumId n, NumId m => (n =? m)%N
  | StrId s, StrId t => String.eqb s t
  | _, _ => false
  end.

(** [compareIdentifiers(a, b)]: numbers before strings, strings by code
    units, and two digit-only identifiers as the numbers [+a] and [+b]:
    above 2^53 two different identifiers can be the same number. *)
Definition compareIdentifiers (a b : Identifier) : Z :=
  match is_numeric_id a, is_numeric_id b with
  | true, true =>
      compareNumbers (to_number (number_of_id a)) (to_number (number_of_id b))
  | true, false => -1
  | false, true => 1
  | false, false =>
      match String.compare (string_of_identifier a) (string_of_identifier b) with
      | Eq => 0
      | Lt => -1
      | Gt => 1
      end
  end.

(** [a || b] on numbers. *)
Definition or_else (a b : Z) : Z := if a =? 0 then b else a.

Definition compareMain (a b : SemVer) : Z :=
  or_else (compareNumbers (major a) (major b))
    (or_else (compareNumbers (minor a) (minor b))
       (compareNumbers (patch a) (patch b))).

(** The loop of [comparePre]: identical identifiers are skipped, and the
    first pair that differs decides, also when [compareIdentifiers] finds
    the two equal as numbers. *)
Fixpoint comparePreLoop (a b : list Identifier) : Z :=
  match a, b with
  | [], [] => 0
  | _ :: _, [] => 1
  | [], _ :: _ => -1
  | x :: a', y :: b' =>
      if Identifier_eqb x y then comparePreLoop a' b'
      else compareIdentifiers x y
  end.

Definition comparePre (a b : SemVer) : Z :=
  match prerelease_ids a, prerelease_ids b with
  | _ :: _, [] => -1
  | [], _ :: _ => 1
  | [], [] => 0
  | pa, pb => comparePreLoop pa pb
  end.

Definition SemVer_compare (a b : SemVer) : Z :=
  or_else (compareMain a b) (comparePre a b).

(** [compare(a, b)]: [new SemVer(a).compare(new SemVer(b))]. *)
Definition compare (a b : string) : result Z :=
  va <- SemVer_new a ;;
  vb <- SemVer_new b ;;
  Ok (SemVer_compare va vb).

End Semver.

(** ** The data model ([#shared/types]) *)

(** Modelled from the spec: the type [SlimPackument] of [#shared/types],
    a package's name, its dist-tags (tag to version) and its publish
    timestamps per version ([time]); these are the properties the
    composable reads.  Either map may be [undefined] in the object that
    arrives at run time. *)
Record SlimPackument : Type := mkSlimPackument {
  name : string;
  dist_tags : option (Obj string);
  time : option (Obj string)
}.

Module DependencySize.
Record t : Type := mk {
  name : string;
  version : string;
  size : Z;
  optional : option bool
}.
End DependencySize.

Record InstallSizeResult : Type := mkInstallSizeResult {
  package : string;
  version : string;
  selfSize : Z;
  totalSize : Z;
  dependencyCount : Z;
  dependencies : list DependencySize.t
}.

Module InstallSizeDiff.
Record t : Type := mk {
  comparisonVersion : string;
  sizeRatio : Q;
  sizeIncrease : Z;
  currentSize : Z;
  previousSize : Z;
  depDiff : Z;
  currentDeps : Z;
  previousDeps : Z;
  sizeThresholdExceeded : bool;
  depThresholdExceeded : bool
}.
End InstallSizeDiff.

Definition SIZE_INCREASE_THRESHOLD : Q := 25 # 100.
Definition DEP_INCREASE_THRESHOLD : Z := 5.

(** ** [getComparisonVersion] *)

Definition is_null {A : Type} (o : option A) : bool :=
  match o with
  | Some _ => false
  | None => true
  end.

(** The truth value of a string: the empty string is falsy. *)
Definition truthy (s : string) : bool := negb (String.eqb s "").

(** [Object.keys(o)] throws on [undefined]. *)
Definition Object_keys {V : Type} (o : option (Obj V)) : result (list string) :=
  match o with
  | Some o => Ok (keys o)
  | None => Throw (TypeError "Cannot convert undefined or null to object")
  end.

(** [pkg['dist-tags']?.latest] *)
Definition latest_tag (pkg : SlimPackument) : option string :=
  match dist_tags pkg with
  | Some tags => get tags "latest"
  | None => None
  end.

(** The callback of the [filter]. *)
Definition is_stable_key (v : string) : bool :=
  negb (String.eqb v "modified") && negb (String.eqb v "created")
  && negb (is_null (Semver.valid v)) && is_null (Semver.prerelease v).

(** [stableVersions]: the keys of [pkg.time], filtered and sorted. *)
Definition stableVersions (pkg : SlimPackument) : result (list string) :=
  ks <- Object_keys (time pkg) ;;
  sortM Semver.compare (filter is_stable_key ks).

Definition getComparisonVersion (pkg : SlimPackument) (resolvedVersion : string)
  : result (option string) :=
  let isCurrentPrerelease := negb (is_null (Semver.prerelease resolvedVersion)) in
  if isCurrentPrerelease then
    match latest_tag pkg with
    | None => Ok None
    | Some latest =>
        if negb (truthy latest) || String.eqb latest resolvedVersion then Ok None
        else Ok (Some latest)
    end
  else
    stableVersions <- stableVersions pkg ;;
    let currentIdx := indexOf String.eqb stableVersions resolvedVersion in
    if currentIdx <=? 0 then Ok None
    else Ok (at_index stableVersions (currentIdx - 1)).

(** The fixture of the test suite: [createPackage(name, time, distTags)]. *)
Definition createPackage (n : string) (t : Obj string) (distTags : Obj string)
  : SlimPackument :=
  mkSlimPackument n
    (Some (match get distTags "latest" with
           | Some _ => distTags
           | None => ("latest", "1.0.0") :: distTags
           end))
    (Some (("created", "2020-01-01") :: t)).

(** ** [useInstallSizeDiff]

    The composable is a reactive graph: two [computed] values
    ([comparisonVersion], [diff]), one lazy fetch whose result is the ref
    [comparisonInstallSize], and one watcher that calls the fetch.  The
    model keeps the inputs and the ref in a [State], reads the computed
    values off the state, and lets the state change by events: the inputs
    change, or a response of the fetch arrives. *)

Module useInstallSizeDiff.

(** The four arguments, unwrapped by [toValue]. *)
Record Props : Type := mkProps {
  packageName : string;
  resolvedVersion : option string;
  pkg : option SlimPackument;
  currentInstallSize : option InstallSizeResult
}.

Definition comparisonVersion (p : Props) : result (option string) :=
  match pkg p, resolvedVersion p with
  | Some pkgVal, Some version =>
      if truthy version then getComparisonVersion pkgVal version else Ok None
  | _, _ => Ok None
  end.

Definition endpoint (packageName v : string) : string :=
  "/api/registry/install-size/" ++ packageName ++ "/v/" ++ v.

(** The request getter handed to [useLazyFetch]. *)
Definition request (p : Props) : result string :=
  v <- comparisonVersion p ;;
  match v with
  | Some v => if truthy v then Ok (endpoint (packageName p) v) else Ok ""
  | None => Ok ""
  end.

Definition Qgtb (a b : Q) : bool := negb (Qle_bool a b).

Definition opt_string_eqb (a : string) (b : option string) : bool :=
  match b with
  | Some b => String.eqb a b
  | None => false
  end.

(** [const sizeRatio = previous.totalSize > 0 ? ... : 0] *)
Definition sizeRatio_of (current previous : InstallSizeResult) : Q :=
  if totalSize previous >? 0
  then (inject_Z (totalSize current - totalSize previous)
        / inject_Z (totalSize previous))%Q
  else 0%Q.

(** [const depDiff = current.dependencyCount - previous.dependencyCount] *)
Definition depDiff_of (current previous : InstallSizeResult) : Z :=
  dependencyCount current - dependencyCount previous.

(** [const sizeThresholdExceeded = sizeRatio > SIZE_INCREASE_THRESHOLD] *)
Definition sizeThresholdExceeded_of (current previous : InstallSizeResult) : bool :=
  Qgtb (sizeRatio_of current previous) SIZE_INCREASE_THRESHOLD.

(** [const depThresholdExceeded = depDiff > DEP_INCREASE_THRESHOLD] *)
Definition depThresholdExceeded_of (current previous : InstallSizeResult) : bool :=
  depDiff_of current previous >? DEP_INCREASE_THRESHOLD.

(** The body of the [diff] getter, after its three reads. *)
Definition compute_diff (name : string) (resolved : option string)
    (current previous : option InstallSizeResult) (cv : option string)
  : option InstallSizeDiff.t :=
  match current, previous, cv with
  | Some current, Some previous, Some cv =>
      if negb (truthy cv) then None
      else if negb (String.eqb (version previous) cv)
              || negb (String.eqb (package previous) name) then None
      else if negb (opt_string_eqb (version current) resolved)
              || negb (String.eqb (package current) name) then None
      else
        let sizeRatio := sizeRatio_of current previous in
        let depDiff := depDiff_of current previous in
        let sizeThresholdExceeded := sizeThresholdExceeded_of current previous in
        let depThresholdExceeded := depThresholdExceeded_of current previous in
        if negb sizeThresholdExceeded && negb depThresholdExceeded then None
        else Some (InstallSizeDiff.mk cv sizeRatio
                     (totalSize current - totalSize previous)
                     (totalSize current) (totalSize previous)
                     depDiff
                     (dependencyCount current) (dependencyCount previous)
                     sizeThresholdExceeded depThresholdExceeded)
  | _, _, _ => None
  end.

(** [client] is [import.meta.client].  [refetch_on_change] says whether the
    lazy fetch executes again by itself when the URL of its request getter
    changes, which is the library's business and is left open.  [requests]
    logs the URLs fetched, the latest first. *)
Record State : Type := mkState {
  client : bool;
  refetch_on_change : bool;
  props : Props;
  comparisonInstallSize : option InstallSizeResult;
  requests : list string
}.

Definition diff (s : State) : result (option InstallSizeDiff.t) :=
  cv <- comparisonVersion (props s) ;;
  Ok (compute_diff (packageName (props s)) (resolvedVersion (props s))
        (currentInstallSize (props s)) (comparisonInstallSize s) cv).

(** [fetchComparisonSize()]: the [execute] of the lazy fetch. *)
Definition fetchComparisonSize (s : State) : State :=
  match request (props s) with
  | Ok url => mkState (client s) (refetch_on_change s) (props s)
                (comparisonInstallSize s) (url :: requests s)
  | Throw _ => s
  end.

(** The callback of the watcher: [([v]) => { if (v) fetchComparisonSize() }].
    A getter that throws runs no callback. *)
Definition watch_callback (s : State) : State :=
  match comparisonVersion (props s) with
  | Ok (Some v) => if truthy v then fetchComparisonSize s else s
  | _ => s
  end.

(** The call of the composable: the fetch is created with
    [immediate: false] and [default: () => null]; on the client the
    watcher is created with [immediate: true]. *)
Definition setup (is_client refetches : bool) (p : Props) : State :=
  let s := mkState is_client refetches p None [] in
  if is_client then watch_callback s else s.

Definition opt_eqb (a b : option string) : bool :=
  match a, b with
  | Some a, Some b => String.eqb a b
  | None, None => true
  | _, _ => false
  end.

(** Whether a source of the watcher, [comparisonVersion] or the package
    name, has a new value. *)
Definition sources_changed (old new : Props) : bool :=
  negb (String.eqb (packageName old) (packageName new))
  || match comparisonVersion old, comparisonVersion new with
     | Ok a, Ok b => negb (opt_eqb a b)
     | _, _ => true
     end.

(** Whether the request getter has a new value. *)
Definition request_changed (old new : Props) : bool :=
  match request old, request new with
  | Ok a, Ok b => negb (String.eqb a b)
  | _, _ => true
  end.

Inductive Event : Type :=
| SetProps (p : Props)
| Response (r : option InstallSizeResult).

(** A change of the inputs runs, on the client, the refetch of the library
    (when it has one and the URL changed) and then the watcher of the
    composable (when one of its sources changed).  A response sets the
    ref. *)
Definition step (s : State) (e : Event) : State :=
  match e with
  | SetProps p =>
      let s1 := mkState (client s) (refetch_on_change s) p
                  (comparisonInstallSize s) (requests s) in
      let s2 := if client s && refetch_on_change s && request_changed (props s) p
                then fetchComparisonSize s1 else s1 in
      if client s && sources_changed (props s) p then watch_callback s2 else s2
  | Response r =>
      mkState (client s) (refetch_on_change s) (props s) r (requests s)
  end.

Definition run (s : State) (es : list Event) : State := fold_left step es s.

Fixpoint props_of (es : list Event) : list Props :=
  match es with
  | [] => []
  | SetProps p :: es' => p :: props_of es'
  | Response _ :: es' => props_of es'
  end.

End useInstallSizeDiff.

(** ** [calculateInstallSize] *)

(** Modelled from the spec: the entries of the map [resolveDependencyTree]
    returns (name, version, size, optional), with the fields the loop
    reads. *)
Module ResolvedPackage.
Record t : Type := mk {
  name : string;
  version : string;
  size : Z;
  optional : bool
}.
End ResolvedPackage.

Definition selfKey (n v : string) : string := n ++ "@" ++ v.

(** [dep.optional || undefined] *)
Definition optional_or_undefined (b : bool) : option bool :=
  if b then Some true else None.

Definition to_dependency (dep : ResolvedPackage.t) : DependencySize.t :=
  DependencySize.mk (ResolvedPackage.name dep) (ResolvedPackage.version dep)
    (ResolvedPackage.size dep)
    (optional_or_undefined (ResolvedPackage.optional dep)).

(** The three variables the loop updates. *)
Record Acc : Type := mkAcc {
  acc_dependencies : list DependencySize.t;
  acc_totalSize : Z;
  acc_dependencyCount : Z
}.

(** One iteration of [for (const [key, dep] of resolved)]. *)
Definition loop_body (self : string) (a : Acc) (entry : string * ResolvedPackage.t)
  : Acc :=
  let (key, dep) := entry in
  if String.eqb key self then a
  else mkAcc (acc_dependencies a ++ [to_dependency dep])
         (acc_totalSize a + ResolvedPackage.size dep)
         (acc_dependencyCount a + 1).

(** The comparator of [dependencies.sort((a, b) => b.size - a.size)]. *)
Definition by_size_descending (a b : DependencySize.t) : Z :=
  DependencySize.size b - DependencySize.size a.

(** The function after [await resolveDependencyTree(name, version)], whose
    result is the argument [resolved]. *)
Definition calculateInstallSize (n v : string) (resolved : Obj ResolvedPackage.t)
  : InstallSizeResult :=
  let self := selfKey n v in
  let selfSize := match get resolved self with
                  | Some selfEntry => ResolvedPackage.size selfEntry
                  | None => 0
                  end in
  let a := fold_left (loop_body self) resolved (mkAcc [] selfSize 0) in
  mkInstallSizeResult n v selfSize (acc_totalSize a) (acc_dependencyCount a)
    (sort by_size_descending (acc_dependencies a)).

(** ** Vocabulary of the statements *)

(** A key of [pkg.time] that is a valid version without prerelease
    identifiers. *)
Definition valid_stable (v : string) : bool :=
  negb (is_null (Semver.valid v)) && is_null (Semver.prerelease v).

(** [a] is at most [b] in semantic-version order. *)
Definition semver_le (a b : string) : Prop :=
  exists c, Semver.compare a b = Ok c /\ c <= 0.

(** The order as a total function, for versions that are valid. *)
Definition compare_valid (a b : string) : Z :=
  match Semver.compare a b with
  | Ok c => c
  | Throw _ => 0
  end.

(** The publish timestamp of a key of the time map. *)
Definition published (t : Obj string) (v : string) : string :=
  match get t v with
  | Some stamp => stamp
  | None => ""
  end.

(** The previous stable release by creation time, in the words of the
    overview: among the stable keys published strictly before [v]
    (timestamps are ISO strings, ordered as strings), the one published
    last. *)
Definition previous_by_time (t : Obj string) (v : string) : option string :=
  fold_left
    (fun best k =>
       if valid_stable k && String.ltb (published t k) (published t v) then
         match best with
         | Some b => if String.ltb (published t b) (published t k)
                     then Some k else best
         | None => Some k
         end
       else best)
    (keys t) None.

(** The sum of the sizes in a dependency list. *)
Definition sum_sizes (l : list DependencySize.t) : Z :=
  fold_right (fun d acc => DependencySize.size d + acc) 0 l.

(** The contract of [resolveDependencyTree]: an entry is stored under
    [name@version]. *)
Definition keyed_by_name_version (resolved : Obj ResolvedPackage.t) : Prop :=
  forall k e, In (k, e) resolved ->
    k = selfKey (ResolvedPackage.name e) (ResolvedPackage.version e).

(** The dist-tag [tag] of the packument points to [v]: the dist-tags are
    there, and their entry for [tag] holds [v]. *)
Definition points_to (pkg : SlimPackument) (tag v : string) : Prop :=
  exists tags pre post,
    dist_tags pkg = Some tags
    /\ tags = (pre ++ (tag, v) :: post)%list
    /\ ~ In tag (keys pre).

(** The packument has no dist-tag [tag]: it has no dist-tags at all, or
    they have no entry for [tag]. *)
Definition untagged (pkg : SlimPackument) (tag : string) : Prop :=
  match dist_tags pkg with
  | Some tags => ~ In tag (keys tags)
  | None => True
  end.

(** The version in front of the first occurrence of [v] in [l]. *)
Fixpoint predecessor (l : list string) (v : string) : option string :=
  match l with
  | p :: l' =>
      if String.eqb p v then None
      else match l' with
           | x :: _ => if String.eqb x v then Some p else predecessor l' v
           | [] => None
           end
  | [] => None
  end.

(** [compareMain] is the lexicographic order on (major, minor, patch). *)
Definition main_le (a b : Semver.SemVer) : Prop :=
  (Semver.major a < Semver.major b)%N
  \/ (Semver.major a = Semver.major b
      /\ ((Semver.minor a < Semver.minor b)%N
          \/ (Semver.minor a = Semver.minor b
              /\ (Semver.patch a <= Semver.patch b)%N))).

(** The entries the loop does not skip. *)
Definition other_entries (self : string) (resolved : Obj ResolvedPackage.t)
  : list DependencySize.t :=
  map (fun entry => to_dependency (snd entry))
    (filter (fun entry => negb (String.eqb (fst entry) self)) resolved).

Import useInstallSizeDiff.

(** A URL was fetched for one of the inputs [ps], at a moment when a
    comparison version was resolved. *)
Definition issued_for (ps : list Props) (url : string) : Prop :=
  exists p v, In p ps /\ comparisonVersion p = Ok (Some v) /\ v <> ""
              /\ url = endpoint (packageName p) v.

(** ** Packuments, states and maps the statements are tried on *)

Definition three_releases : SlimPackument :=
  createPackage "test"
    [("1.0.0", "2020-01-01"); ("1.1.0", "2021-01-01"); ("1.2.0", "2022-01-01")] [].

Definition beta_with_latest : SlimPackument :=
  createPackage "test"
    [("1.0.0", "2020-01-01"); ("2.0.0-beta.1", "2021-01-01")]
    [("latest", "1.0.0"); ("next", "2.0.0-beta.1")].

(** A packument whose [latest] dist-tag holds the empty string. *)
Definition empty_latest : SlimPackument :=
  mkSlimPackument "test" (Some [("latest", "")]) (Some []).

Definition backport_time : Obj string :=
  [("created", "2020-01-01T00:00:00.000Z");
   ("1.0.0", "2020-01-01T00:00:00.000Z");
   ("2.0.0", "2021-01-01T00:00:00.000Z");
   ("1.1.0", "2022-01-01T00:00:00.000Z")].

Definition backport : SlimPackument :=
  mkSlimPackument "test" (Some [("latest", "2.0.0")]) (Some backport_time).

(** The keys of [backport_time] with timestamps in the order of the
    versions. *)
Definition restamped_time : Obj string :=
  [("created", "2020-01-01T00:00:00.000Z");
   ("1.0.0", "2020-01-01T00:00:00.000Z");
   ("2.0.0", "2023-01-01T00:00:00.000Z");
   ("1.1.0", "2021-06-01T00:00:00.000Z")].

Definition restamped : SlimPackument :=
  mkSlimPackument "test" None (Some restamped_time).

(** The fixture of the test suite: [createInstallSize(name, overrides)]. *)
Definition createInstallSize (n v : string) (total deps : Z) : InstallSizeResult :=
  mkInstallSizeResult n v 1000 total deps [].

(** The scenario of the test 'sets sizeThresholdExceeded when size increased
    by more than 25%': the response has arrived. *)
Definition size_only_props : Props :=
  mkProps "pkg-size-only" (Some "1.1.0")
    (Some (createPackage "pkg-size-only"
             [("1.0.0", "2020-01-01"); ("1.1.0", "2021-01-01")] []))
    (Some (createInstallSize "pkg-size-only" "1.1.0" 7000 4)).

Definition size_only_state : State :=
  run (setup true true size_only_props)
    [Response (Some (createInstallSize "pkg-size-only" "1.0.0" 5000 3))].

(** The scenario of the test 'does not fetch when there is no comparison
    version', followed by a change of the package name and a response. *)
Definition first_release_props (n : string) : Props :=
  mkProps n (Some "1.0.0") (Some (createPackage n [("1.0.0", "2020-01-01")] [])) None.

Definition backport_props (pkgVal : SlimPackument) : Props :=
  mkProps "test" (Some "1.1.0") (Some pkgVal)
    (Some (createInstallSize "test" "1.1.0" 7000 4)).

(** A resolved tree: the package, two dependencies, one of them optional. *)
Definition resolved_tree : Obj ResolvedPackage.t :=
  [("left-pad@1.3.0", ResolvedPackage.mk "left-pad" "1.3.0" 900 false);
   ("app@2.0.0", ResolvedPackage.mk "app" "2.0.0" 1000 false);
   ("fsevents@2.3.3", ResolvedPackage.mk "fsevents" "2.3.3" 4100 true)].

(** ** The size-increase banner (the component that renders a diff) *)

Inductive BannerTitle : Type :=
| title_both
| title_size
| title_deps.

(** The nested conditional of the heading. *)
Definition banner_title (d : InstallSizeDiff.t) : BannerTitle :=
  if InstallSizeDiff.sizeThresholdExceeded d && InstallSizeDiff.depThresholdExceeded d
  then title_both
  else if InstallSizeDiff.sizeThresholdExceeded d then title_size
  else title_deps.

(** The three parts of the paragraph, each under its [v-if]. *)
Definition banner_size_line (d : InstallSizeDiff.t) : bool :=
  InstallSizeDiff.sizeThresholdExceeded d.

Definition banner_separator (d : InstallSizeDiff.t) : bool :=
  InstallSizeDiff.sizeThresholdExceeded d && InstallSizeDiff.depThresholdExceeded d.

Definition banner_deps_line (d : InstallSizeDiff.t) : bool :=
  InstallSizeDiff.depThresholdExceeded d.

(** Whether a key is in a map. *)
Definition has_key {V : Type} (o : Obj V) (k : string) : bool :=
  negb (is_null (get o k)).

(** The sum of the sizes of all entries of a resolved map. *)
Definition sum_resolved (resolved : Obj ResolvedPackage.t) : Z :=
  fold_right (fun entry acc => ResolvedPackage.size (snd entry) + acc) 0 resolved.

(** ** The package page: [normalizeGitUrl], [codeLink], [likeAction] *)

(** The rest of [s] after the prefix [pre], when it has that prefix. *)
Fixpoint strip_prefix (pre s : string) : option string :=
  match pre, s with
  | EmptyString, _ => Some s
  | String a pre', String b s' =>
      if Ascii.eqb a b then strip_prefix pre' s' else None
  | String _ _, EmptyString => None
  end.

(** The part of [s] in front of the suffix [suf], when it has that suffix. *)
Fixpoint strip_suffix (suf s : string) : option string :=
  if String.eqb s suf then Some ""
  else match s with
       | EmptyString => None
       | String c s' =>
           match strip_suffix suf s' with
           | Some r => Some (String c r)
           | None => None
           end
       end.

(** [s.replace(/^pre/, by)] for a literal [pre]. *)
Definition replace_prefix (pre by_ s : string) : string :=
  match strip_prefix pre s with
  | Some rest => by_ ++ rest
  | None => s
  end.

(** [s.replace(/suf$/, '')] for a literal [suf]. *)
Definition remove_suffix (suf s : string) : string :=
  match strip_suffix suf s with
  | Some front => front
  | None => s
  end.

Definition normalizeGitUrl (url : string) : string :=
  replace_prefix "git@github.com:" "https://github.com/"
    (replace_prefix "ssh://git@github.com" "https://github.com"
       (remove_suffix ".git"
          (replace_prefix "git://" "https://"
             (replace_prefix "git+" "" url)))).

(** [s.split(sep)] for a separator of one character. *)
Definition js_split (sep : ascii) (s : string) : list string :=
  map string_of_list_ascii (Semver.split_on sep (list_ascii_of_string s)).

(** [s] holds no character [c]. *)
Definition without_char (c : ascii) (s : string) : bool :=
  forallb (fun x => negb (Ascii.eqb x c)) (list_ascii_of_string s).

Module CodeLink.
Record t : Type := mk {
  org : option string;
  packageName : string;
  version : string;
  filePath : string
}.
End CodeLink.

(** The [codeLink] getter, from [pkg.value?.name] and [resolvedVersion.value]. *)
Definition codeLink (pkg_name resolved : option string) : option CodeLink.t :=
  match pkg_name, resolved with
  | Some n, Some v =>
      let split := js_split "/"%char n in
      let two := Nat.eqb (List.length split) 2 in
      Some (CodeLink.mk
              (if two then nth_error split 0 else None)
              (nth (if two then 1%nat else 0%nat) split "")
              v "")
  | _, _ => None
  end.

Module Likes.

Record LikesData : Type := mkLikesData {
  totalLikes : Z;
  userHasLiked : bool
}.

(** How [togglePackageLike] ends: [{ success: true, data }], a result
    without success, or a rejection. *)
Inductive Outcome : Type :=
| Succeeded (data : LikesData)
| Failed
| Threw.

(** A call of [togglePackageLike] that has not ended, with the two
    constants its continuation holds. *)
Record Pending : Type := mkPending {
  currentlyLiked : bool;
  currentLikes : Z
}.

(** [handle] is [user.value?.handle]; [toggles] logs the calls of
    [togglePackageLike] (the liked flag and the handle passed), the latest
    first; [inflight] are the calls that have not ended. *)
Record State : Type := mkState {
  handle : option string;
  likesData : option LikesData;
  isLikeActionPending : bool;
  authModalOpen : bool;
  toggles : list (bool * string);
  inflight : list Pending
}.

(** [likeAction] up to its [await]. *)
Definition click (s : State) : State :=
  match handle s with
  | None => mkState (handle s) (likesData s) (isLikeActionPending s) true
              (toggles s) (inflight s)
  | Some h =>
      if isLikeActionPending s then s
      else
        let liked := match likesData s with
                     | Some d => userHasLiked d
                     | None => false
                     end in
        let likes := match likesData s with
                     | Some d => totalLikes d
                     | None => 0
                     end in
        mkState (handle s)
          (Some (mkLikesData (if liked then likes - 1 else likes + 1) (negb liked)))
          true (authModalOpen s)
          ((liked, h) :: toggles s)
          (mkPending liked likes :: inflight s)
  end.

Fixpoint remove_nth {A : Type} (i : nat) (l : list A) : list A :=
  match i, l with
  | _, [] => []
  | O, _ :: l' => l'
  | S i', x :: l' => x :: remove_nth i' l'
  end.

(** [likeAction] after its [await], for the call at position [i] of
    [inflight]. *)
Definition settle (i : nat) (o : Outcome) (s : State) : State :=
  match nth_error (inflight s) i with
  | None => s
  | Some k =>
      mkState (handle s)
        (match o with
         | Succeeded data => Some data
         | Failed | Threw => Some (mkLikesData (currentLikes k) (currentlyLiked k))
         end)
        false (authModalOpen s) (toggles s) (remove_nth i (inflight s))
  end.

Inductive Event : Type :=
| Click
| Settle (i : nat) (o : Outcome)
| SetUser (h : option string)
| Refetched (d : option LikesData).

Definition step (s : State) (e : Event) : State :=
  match e with
  | Click => click s
  | Settle i o => settle i o s
  | SetUser h => mkState h (likesData s) (isLikeActionPending s)
                   (authModalOpen s) (toggles s) (inflight s)
  | Refetched d => mkState (handle s) d (isLikeActionPending s)
                     (authModalOpen s) (toggles s) (inflight s)
  end.

Definition run (s : State) (es : list Event) : State := fold_left step es s.

(** The state when the page is set up: nothing pending. *)
Definition initial (h : option string) (d : option LikesData) : State :=
  mkState h d false false [] [].

End Likes.

(** The pending flag and the calls that have not ended go together. *)
Definition like_lock (s : Likes.State) : Prop :=
  (Likes.isLikeActionPending s = true /\ List.length (Likes.inflight s) = 1%nat)
  \/ (Likes.isLikeActionPending s = false /\ Likes.inflight s = []).

(** ** [CollapsibleSection]: [toggle] and the read-back in [onMounted] *)

Module Collapsible.

(** [isOpen] is the ref of one section; [collapsed] is
    [appSettings.settings.value.sidebar.collapsed] and [dataset_collapsed]
    is [document.documentElement.dataset.collapsed], which all sections
    share. *)
Record State : Type := mkState {
  isOpen : bool;
  collapsed : list string;
  dataset_collapsed : option string
}.

(** [toggle()] of the section with the given [id]. *)
Definition toggle (id : string) (s : State) : State :=
  let isOpen' := negb (isOpen s) in
  let removed := filter (fun c => negb (String.eqb c id)) (collapsed s) in
  let collapsed' := if isOpen' then removed else (removed ++ [id])%list in
  mkState isOpen' collapsed' (Some (String.concat " " collapsed')).

(** [arr.includes(x)] on strings. *)
Definition includes (l : list string) (x : string) : bool :=
  existsb (fun y => String.eqb y x) l.

(** The callback of [onMounted]:
    [!(dataset.collapsed?.split(' ').includes(props.id) ?? false)]. *)
Definition onMounted (id : string) (s : State) : State :=
  mkState
    (negb (match dataset_collapsed s with
           | Some d => includes (js_split " "%char d) id
           | None => false
           end))
    (collapsed s) (dataset_collapsed s).

End Collapsible.

(** ** [Package/Versions.vue]: the rows of the dist-tags *)

Module SlimVersion.
Record t : Type := mk {
  hasProvenance : option bool;
  deprecated : option string
}.
End SlimVersion.

Module VersionDisplay.
Record t : Type := mk {
  version : string;
  time : option string;
  tags : option (list string);
  hasProvenance : option bool;
  deprecated : option string
}.
End VersionDisplay.

Module TagRow.
Record t : Type := mk {
  id : string;
  tag : string;
  tags : list string;
  primaryVersion : VersionDisplay.t
}.

Definition version (r : t) : string := VersionDisplay.version (primaryVersion r).
End TagRow.

Section VersionsComponent.

(** [a.localeCompare(b)], which depends on the locale of the browser. *)
Variable localeCompare : string -> string -> Z.

(** The props [versions], [distTags] and [time]. *)
Variable versions : Obj SlimVersion.t.
Variable distTags : Obj string.
Variable time_of : Obj string.

(** An entry of [versionMap]: a version, its tags and its metadata. *)
Definition TagGroup : Type := (string * (list string * option SlimVersion.t))%type.

(** One iteration of the first loop: the tag joins the entry of its
    version, or starts a new entry at the end of the map. *)
Fixpoint add_tag (m : list TagGroup) (tag v : string) : list TagGroup :=
  match m with
  | [] => [(v, ([tag], get versions v))]
  | (v', (tags, versionData)) :: m' =>
      if String.eqb v' v then (v', ((tags ++ [tag])%list, versionData)) :: m'
      else (v', (tags, versionData)) :: add_tag m' tag v
  end.

Definition versionMap : list TagGroup :=
  fold_left (fun m entry => add_tag m (fst entry) (snd entry)) distTags [].

(** The comparator of the tags of one version: ['latest'] first. *)
Definition compare_tags (a b : string) : Z :=
  if String.eqb a "latest" then -1
  else if String.eqb b "latest" then 1
  else localeCompare a b.

Definition to_row (g : TagGroup) : TagRow.t :=
  let v := fst g in
  let tags := sort compare_tags (fst (snd g)) in
  let versionData := snd (snd g) in
  TagRow.mk ("version:" ++ v) (nth 0 tags "") tags
    (VersionDisplay.mk v (get time_of v) (Some tags)
       (match versionData with
        | Some d => SlimVersion.hasProvenance d
        | None => None
        end)
       (match versionData with
        | Some d => SlimVersion.deprecated d
        | None => None
        end)).

(** The comparator of the rows: [compare(b.version, a.version)]. *)
Definition compare_rows (a b : TagRow.t) : result Z :=
  Semver.compare (TagRow.version b) (TagRow.version a).

Definition allTagRows : result (list TagRow.t) :=
  sortM compare_rows (map to_row versionMap).

(** [!!s] for a string that may be [undefined]. *)
Definition truthy_opt (s : option string) : bool :=
  match s with
  | Some s => truthy s
  | None => false
  end.

Definition isPackageDeprecated : bool :=
  match get distTags "latest" with
  | Some latestVersion =>
      if truthy latestVersion then
        match get versions latestVersion with
        | Some d => truthy_opt (SlimVersion.deprecated d)
        | None => false
        end
      else false
  | None => false
  end.

Definition MAX_VISIBLE_TAGS : nat := 10.

(** [rows.includes(row)]: the rows of [allTagRows] are distinct objects
    with distinct [id]s, so that the same object is the same [id]. *)
Definition includes_row (rows : list TagRow.t) (row : TagRow.t) : bool :=
  existsb (fun r => String.eqb (TagRow.id r) (TagRow.id row)) rows.

(** [isFilterActive] and [filteredVersionSet.value.has]. *)
Variable isFilterActive : bool.
Variable filteredVersionSet : string -> bool.

Definition filter_by_range (rows : list TagRow.t) : list TagRow.t :=
  if isFilterActive
  then filter (fun row => filteredVersionSet (TagRow.version row)) rows
  else rows.

(** [visibleTagRows], for the value [all] of [allTagRows]. *)
Definition visibleTagRows (all : list TagRow.t) : list TagRow.t :=
  let rowsMaybeFilteredForDeprecation :=
    if isPackageDeprecated then all
    else filter (fun row => negb (truthy_opt (VersionDisplay.deprecated
                                                (TagRow.primaryVersion row)))) all in
  let rows := filter_by_range rowsMaybeFilteredForDeprecation in
  let first := firstn MAX_VISIBLE_TAGS rows in
  match find (fun row => String.eqb (TagRow.tag row) "latest") rows with
  | Some latestTagRow =>
      if negb (includes_row first latestTagRow)
      then (removelast first ++ [latestTagRow])%list
      else first
  | None => first
  end.

(** The rows that pass the two filters of [visibleTagRows]. *)
Definition shown_row (row : TagRow.t) : Prop :=
  (isPackageDeprecated = false ->
   truthy_opt (VersionDisplay.deprecated (TagRow.primaryVersion row)) = false)
  /\ (isFilterActive = true -> filteredVersionSet (TagRow.version row) = true).

(** [hiddenTagRows], for the value [all] of [allTagRows]. *)
Definition hiddenTagRows (all : list TagRow.t) : list TagRow.t :=
  filter_by_range
    (filter (fun row => negb (includes_row (visibleTagRows all) row)) all).

End VersionsComponent.

(** The tag [t] is in the entry of the version [v]. *)
Definition has_tag (m : list TagGroup) (v t : string) : Prop :=
  exists tags versionData, In (v, (tags, versionData)) m /\ In t tags.

(** A comparison of tags by code units, standing in for [localeCompare]
    where a statement is tried. *)
Definition compare_code_units (a b : string) : Z :=
  match String.compare a b with
  | Eq => 0
  | Lt => -1
  | Gt => 1
  end.

Definition sample_distTags : Obj string :=
  [("next", "3.0.0-beta.1"); ("stable", "2.1.0"); ("latest", "2.1.0");
   ("legacy", "1.9.4")].

Definition sample_versions : Obj SlimVersion.t :=
  [("2.1.0", SlimVersion.mk (Some true) None);
   ("1.9.4", SlimVersion.mk (Some false) (Some "use 2.x"))].

Definition sample_rows : list TagRow.t :=
  Eval vm_compute in
    match allTagRows compare_code_units sample_versions sample_distTags [] with
    | Ok rows => rows
    | Throw _ => []
    end.

(** A comparator whose sign is that of a total preorder: it is
    antisymmetric in sign, and transitive, strictly so when one of the two
    steps is strict. *)
Definition weak_order {A : Type} (cmp : A -> A -> Z) : Prop :=
  (forall x y, cmp x y < 0 <-> 0 < cmp y x)
  /\ (forall x y z, cmp x y <= 0 -> cmp y z <= 0 ->
        cmp x z <= 0 /\ (cmp x y < 0 \/ cmp y z < 0 -> cmp x z < 0)).

(** [newer] is at least [older] in semantic-version order. *)
Definition semver_ge (newer older : string) : Prop := semver_le older newer.

(** A string [parse] accepts. *)
Definition is_valid (v : string) : bool := negb (is_null (Semver.parse v)).

(** The precedence of two lists of prerelease identifiers with every
    digit-only identifier taken at its exact value, whatever its size:
    the order [comparePre] computes as long as no rounding occurs. *)
Definition precedenceIdentifiers (a b : Semver.Identifier) : Z :=
  match Semver.is_numeric_id a, Semver.is_numeric_id b with
  | true, true =>
      Semver.compareNumbers (Semver.number_of_id a) (Semver.number_of_id b)
  | true, false => -1
  | false, true => 1
  | false, false =>
      compare_code_units (Semver.string_of_identifier a)
        (Semver.string_of_identifier b)
  end.

Fixpoint precedencePreLoop (a b : list Semver.Identifier) : Z :=
  match a, b with
  | [], [] => 0
  | _ :: _, [] => 1
  | [], _ :: _ => -1
  | x :: a', y :: b' =>
      let c := precedenceIdentifiers x y in
      if c =? 0 then precedencePreLoop a' b' else c
  end.

Definition precedencePre (a b : Semver.SemVer) : Z :=
  match Semver.prerelease_ids a, Semver.prerelease_ids b with
  | _ :: _, [] => -1
  | [], _ :: _ => 1
  | [], [] => 0
  | pa, pb => precedencePreLoop pa pb
  end.

Definition precedence (a b : Semver.SemVer) : Z :=
  Semver.or_else (Semver.compareMain a b) (precedencePre a b).

(** An identifier as [new SemVer] stores it when no rounding can occur in
    a comparison: a number (a digit-only identifier below
    [MAX_SAFE_INTEGER]), or a string that is not digits only. *)
Definition safe_identifier (i : Semver.Identifier) : bool :=
  match i with
  | Semver.NumId n => (n <? Semver.MAX_SAFE_INTEGER)%N
  | Semver.StrId _ => negb (Semver.is_numeric_id i)
  end.

(** A valid version all of whose digit-only prerelease identifiers are
    below [MAX_SAFE_INTEGER] (2^53 - 1). *)
Definition safe_version (v : string) : bool :=
  match Semver.parse v with
  | Some sv => forallb safe_identifier (Semver.prerelease_ids sv)
  | None => false
  end.

(** Two dist-tags on prereleases whose numeric identifier is above 2^53. *)
Definition rounded_distTags : Obj string :=
  [("old", "1.0.0-9007199254740992"); ("new", "1.0.0-9007199254740993")].

(** * The test suite, replayed on the model *)

Example parse_1_2_3 :
  Semver.parse "1.2.3" = Some (Semver.mkSemVer 1 2 3 [] []).
Proof. reflexivity. Qed.

Example parse_beta :
  Semver.prerelease "2.0.0-beta.1"
  = Some [Semver.StrId "beta"; Semver.NumId 1].
Proof. reflexivity. Qed.

Example valid_examples :
  Semver.valid "v1.0.0+build.5" = Some "1.0.0"
  /\ Semver.valid " 1.2.3-rc.1 " = Some "1.2.3-rc.1"
  /\ Semver.valid "modified" = None
  /\ Semver.valid "created" = None
  /\ Semver.valid "01.0.0" = None
  /\ Semver.valid "1.0" = None
  /\ Semver.valid "1.0.0-" = None
  /\ Semver.valid "1.0.0-01" = None
  /\ Semver.valid "1.0.0-0a" = Some "1.0.0-0a"
  /\ Semver.valid "" = None.
Proof. repeat split; reflexivity. Qed.

Example compare_examples :
  Semver.compare "1.2.0" "1.10.0" = Ok (-1)
  /\ Semver.compare "2.0.0" "2.0.0-beta.1" = Ok 1
  /\ Semver.compare "1.0.0+a" "v1.0.0" = Ok 0
  /\ Semver.compare "1.0.0-beta.2" "1.0.0-beta.10" = Ok (-1)
  /\ Semver.compare "1.0.0" "latest" = Throw (Semver.invalid_version "latest").
Proof. repeat split; reflexivity. Qed.

Example test_semver_previous :
  getComparisonVersion
    (createPackage "test"
       [("1.0.0", "2020-01-01"); ("1.1.0", "2021-01-01"); ("1.2.0", "2022-01-01")] [])
    "1.2.0" = Ok (Some "1.1.0").
Proof. reflexivity. Qed.

Example test_first_stable :
  getComparisonVersion (createPackage "test" [("1.0.0", "2020-01-01")] []) "1.0.0"
  = Ok None.
Proof. reflexivity. Qed.

Example test_skips_prereleases :
  getComparisonVersion
    (createPackage "test"
       [("1.0.0", "2020-01-01"); ("2.0.0-beta.1", "2021-01-01");
        ("2.0.0-beta.2", "2021-06-01"); ("2.0.0", "2022-01-01")] [])
    "2.0.0" = Ok (Some "1.0.0").
Proof. reflexivity. Qed.

Example test_prerelease_uses_latest :
  getComparisonVersion
    (createPackage "test"
       [("1.0.0", "2020-01-01"); ("2.0.0-beta.1", "2021-01-01")]
       [("latest", "1.0.0"); ("next", "2.0.0-beta.1")])
    "2.0.0-beta.1" = Ok (Some "1.0.0").
Proof. reflexivity. Qed.

Example test_prerelease_is_latest :
  getComparisonVersion
    (createPackage "test" [("2.0.0-beta.1", "2021-01-01")]
       [("latest", "2.0.0-beta.1")])
    "2.0.0-beta.1" = Ok None.
Proof. reflexivity. Qed.

Example test_prerelease_no_latest :
  getComparisonVersion
    (mkSlimPackument "test" (Some [])
       (Some [("created", "2020-01-01"); ("2.0.0-beta.1", "2021-01-01")]))
    "2.0.0-beta.1" = Ok None.
Proof. reflexivity. Qed.

Example test_size_only_diff :
  diff size_only_state
  = Ok (Some (InstallSizeDiff.mk "1.0.0"
                (inject_Z 2000 / inject_Z 5000)%Q 2000 7000 5000 1 4 3 true false))
  /\ requests size_only_state = ["/api/registry/install-size/pkg-size-only/v/1.0.0"].
Proof. split; reflexivity. Qed.

Example test_no_comparison_version :
  let s := setup true true
             (mkProps "test" (Some "1.0.0")
                (Some (createPackage "test" [("1.0.0", "2020-01-01")] []))
                (Some (createInstallSize "test" "1.0.0" 5000 3))) in
  diff s = Ok None /\ requests s = [].
Proof. split; reflexivity. Qed.

Example test_thresholds_not_met :
  let s := run (setup true false
                  (mkProps "pkg-no-threshold" (Some "1.1.0")
                     (Some (createPackage "pkg-no-threshold"
                              [("1.0.0", "2020-01-01"); ("1.1.0", "2021-01-01")] []))
                     (Some (createInstallSize "pkg-no-threshold" "1.1.0" 5100 4))))
             [Response (Some (createInstallSize "pkg-no-threshold" "1.0.0" 5000 3))] in
  diff s = Ok None
  /\ requests s = ["/api/registry/install-size/pkg-no-threshold/v/1.0.0"].
Proof. split; reflexivity. Qed.

Example test_deps_only :
  diff (run (setup true true
               (mkProps "pkg-deps-only" (Some "1.1.0")
                  (Some (createPackage "pkg-deps-only"
                           [("1.0.0", "2020-01-01"); ("1.1.0", "2021-01-01")] []))
                  (Some (createInstallSize "pkg-deps-only" "1.1.0" 5100 10))))
          [Response (Some (createInstallSize "pkg-deps-only" "1.0.0" 5000 3))])
  = Ok (Some (InstallSizeDiff.mk "1.0.0"
                (inject_Z 100 / inject_Z 5000)%Q 100 5100 5000 7 10 3 false true)).
Proof. reflexivity. Qed.

Example test_both_thresholds :
  diff (run (setup true true
               (mkProps "pkg-both" (Some "1.1.0")
                  (Some (createPackage "pkg-both"
                           [("1.0.0", "2020-01-01"); ("1.1.0", "2021-01-01")] []))
                  (Some (createInstallSize "pkg-both" "1.1.0" 10000 15))))
          [Response (Some (createInstallSize "pkg-both" "1.0.0" 5000 5))])
  = Ok (Some (InstallSizeDiff.mk "1.0.0"
                (inject_Z 5000 / inject_Z 5000)%Q 5000 10000 5000 10 15 5 true true)).
Proof. reflexivity. Qed.

Example test_pending_fetch :
  diff (setup true true size_only_props) = Ok None
  /\ requests (setup true true size_only_props)
     = ["/api/registry/install-size/pkg-size-only/v/1.0.0"].
Proof. split; reflexivity. Qed.

Example test_stale_response_rejected :
  diff (run (setup true true size_only_props)
          [Response (Some (createInstallSize "another-pkg" "1.0.0" 100 0))])
  = Ok None.
Proof. reflexivity. Qed.

(** * Facts about the array operations *)

Section SortFacts.
Variable A : Type.
Variable cmp : A -> A -> Z.

Let le (x y : A) : Prop := cmp x y <= 0.

Lemma insert_perm (x : A) (l : list A) : Permutation (x :: l) (insert cmp x l).
Proof.
  induction l as [|y l IH]; simpl.
  - apply Permutation_refl.
  - destruct (cmp x y <=? 0).
    + apply Permutation_refl.
    + eapply perm_trans; [apply perm_swap|]. now apply perm_skip.
Qed.

Lemma sort_perm (l : list A) : Permutation l (sort cmp l).
Proof.
  induction l as [|x l IH]; simpl.
  - constructor.
  - eapply perm_trans; [apply perm_skip, IH|]. apply insert_perm.
Qed.

Lemma sort_length (l : list A) : List.length (sort cmp l) = List.length l.
Proof. symmetry. apply Permutation_length, sort_perm. Qed.

(** The elements the comparator is a total preorder on. *)
Variable P : A -> Prop.
Hypothesis cmp_total : forall x y, P x -> P y -> le x y \/ le y x.
Hypothesis cmp_trans : forall x y z, P x -> P y -> P z -> le x y -> le y z -> le x z.

Lemma sort_Forall (l : list A) : Forall P l -> Forall P (sort cmp l).
Proof.
  intros H. rewrite Forall_forall in *. intros x Hx. apply H.
  eapply Permutation_in; [apply Permutation_sym, sort_perm|exact Hx].
Qed.

Lemma insert_sorted (x : A) (l : list A) :
  P x -> Forall P l -> StronglySorted le l -> StronglySorted le (insert cmp x l).
Proof.
  intros Px. induction l as [|y l IH]; intros HP HS; simpl.
  - constructor; constructor.
  - inversion HP as [|? ? Py HPl]; subst.
    inversion HS as [|? ? HSl Hy]; subst.
    destruct (Z.leb_spec (cmp x y) 0) as [Hxy|Hxy].
    + constructor; [exact HS|]. constructor; [exact Hxy|].
      rewrite Forall_forall in *. intros z Hz.
      apply (cmp_trans (y := y)); auto.
    + constructor; [now apply IH|].
      rewrite Forall_forall in *. intros z Hz.
      apply (Permutation_in z (Permutation_sym (insert_perm x l))) in Hz.
      destruct Hz as [<-|Hz]; [|now apply Hy].
      destruct (cmp_total Py Px) as [H|H]; [exact H|]. unfold le in H. lia.
Qed.

Lemma sort_sorted (l : list A) : Forall P l -> StronglySorted le (sort cmp l).
Proof.
  induction l as [|x l IH]; intros HP; simpl.
  - constructor.
  - inversion HP; subst. apply insert_sorted; auto using sort_Forall.
Qed.

(** A comparator that may throw but does not on [P]. *)
Variable cmpM : A -> A -> result Z.
Hypothesis cmpM_ok : forall x y, P x -> P y -> cmpM x y = Ok (cmp x y).

Lemma insertM_ok (x : A) (l : list A) :
  P x -> Forall P l -> insertM cmpM x l = Ok (insert cmp x l).
Proof.
  intros Px. induction l as [|y l IH]; intros HP; simpl.
  - reflexivity.
  - inversion HP; subst. rewrite cmpM_ok by assumption. simpl.
    destruct (cmp x y <=? 0); [reflexivity|].
    rewrite IH by assumption. reflexivity.
Qed.

Lemma sortM_ok (l : list A) : Forall P l -> sortM cmpM l = Ok (sort cmp l).
Proof.
  induction l as [|x l IH]; intros HP; simpl.
  - reflexivity.
  - inversion HP; subst. rewrite IH by assumption. simpl.
    apply insertM_ok; auto using sort_Forall.
Qed.
End SortFacts.

Unset Implicit Arguments.

Lemma StronglySorted_impl (A : Type) (R R' : A -> A -> Prop) (P : A -> Prop)
    (l : list A) :
  (forall x y, P x -> P y -> R x y -> R' x y) ->
  Forall P l -> StronglySorted R l -> StronglySorted R' l.
Proof.
  intros HR. induction l as [|x l IH]; intros HP HS.
  - constructor.
  - inversion HP; subst. inversion HS as [|? ? HSl Hx]; subst.
    constructor; [now apply IH|].
    rewrite Forall_forall in *. intros y Hy. apply HR; auto.
Qed.

Lemma indexOf_lower (l : list string) (x : string) :
  -1 <= indexOf String.eqb l x.
Proof.
  induction l as [|y l IH]; simpl; [lia|].
  destruct (String.eqb y x); [lia|].
  destruct (Z.ltb_spec (indexOf String.eqb l x) 0); lia.
Qed.

Lemma indexOf_absent (l : list string) (x : string) :
  indexOf String.eqb l x = -1 <-> ~ In x l.
Proof.
  induction l as [|y l IH]; simpl.
  - split; [intros _ []|reflexivity].
  - destruct (String.eqb_spec y x) as [->|Hne].
    + split; [discriminate|]. intros H. exfalso. apply H. now left.
    + pose proof (indexOf_lower l x).
      destruct (Z.ltb_spec (indexOf String.eqb l x) 0) as [Hlt|Hge].
      * split; [|reflexivity]. intros _ [H'|H']; [congruence|].
        apply IH in H'; [exact H'|lia].
      * split; [lia|]. intros Hn. exfalso.
        assert (indexOf String.eqb l x = -1) by (apply IH; tauto). lia.
Qed.

Lemma indexOf_present (l : list string) (x : string) :
  0 <= indexOf String.eqb l x ->
  exists l1 l2, l = (l1 ++ x :: l2)%list /\ ~ In x l1
                /\ indexOf String.eqb l x = Z.of_nat (List.length l1).
Proof.
  induction l as [|y l IH]; simpl; [lia|].
  destruct (String.eqb_spec y x) as [->|Hne]; intros H.
  - exists [], l. simpl. tauto.
  - destruct (Z.ltb_spec (indexOf String.eqb l x) 0) as [Hlt|Hge]; [lia|].
    destruct (IH Hge) as (l1 & l2 & -> & Hn & Hi).
    exists (y :: l1), l2. simpl. repeat split.
    + intros [H'|H']; [congruence|tauto].
    + rewrite Hi. lia.
Qed.

(** [predecessor] is what [indexOf] and the index [currentIdx - 1] compute. *)
Lemma predecessor_indexOf (l : list string) (v : string) :
  (if indexOf String.eqb l v <=? 0 then None
   else at_index l (indexOf String.eqb l v - 1)) = predecessor l v.
Proof.
  induction l as [|p l IH]; [reflexivity|].
  simpl. destruct (String.eqb_spec p v) as [->|Hne]; [reflexivity|].
  pose proof (indexOf_lower l v) as Hlow.
  destruct (Z.ltb_spec (indexOf String.eqb l v) 0) as [Hlt|Hge].
  - simpl. assert (Hi : indexOf String.eqb l v = -1) by lia.
    rewrite Hi in IH. simpl in IH. rewrite <- IH.
    destruct l as [|x l']; [reflexivity|].
    destruct (String.eqb_spec x v) as [->|Hx]; [|reflexivity].
    simpl in Hi. rewrite String.eqb_refl in Hi. discriminate.
  - destruct (Z.leb_spec (indexOf String.eqb l v + 1) 0) as [H0|H0]; [lia|].
    replace (indexOf String.eqb l v + 1 - 1) with (indexOf String.eqb l v) by lia.
    destruct l as [|x l']; [simpl in Hge; lia|].
    revert IH Hge H0. simpl.
    destruct (String.eqb_spec x v) as [->|Hx]; [reflexivity|].
    destruct (Z.ltb_spec (indexOf String.eqb l' v) 0) as [Hlt'|Hge']; [lia|].
    intros IH _ _.
    destruct (Z.leb_spec (indexOf String.eqb l' v + 1) 0) as [H1|H1]; [lia|].
    rewrite <- IH. unfold at_index.
    destruct (Z.ltb_spec (indexOf String.eqb l' v + 1) 0); [lia|].
    destruct (Z.ltb_spec (indexOf String.eqb l' v + 1 - 1) 0); [lia|].
    replace (Z.to_nat (indexOf String.eqb l' v + 1))
      with (S (Z.to_nat (indexOf String.eqb l' v + 1 - 1))) by lia.
    reflexivity.
Qed.

Lemma predecessor_Some (l : list string) (v p : string) :
  predecessor l v = Some p <->
  exists l1 l2, l = (l1 ++ p :: v :: l2)%list /\ ~ In v l1 /\ p <> v.
Proof.
  induction l as [|a l IH].
  - simpl. split; [discriminate|]. intros (l1 & l2 & H & _).
    destruct l1; discriminate.
  - cbn [predecessor]. destruct (String.eqb_spec a v) as [->|Hav].
    + split; [discriminate|]. intros (l1 & l2 & H & Hn & Hp).
      destruct l1 as [|b l1]; simpl in H; inversion H; subst.
      * congruence.
      * exfalso. apply Hn. now left.
    + destruct l as [|x l'].
      * split; [discriminate|]. intros (l1 & l2 & H & _).
        destruct l1 as [|b [|c l1]]; discriminate.
      * destruct (String.eqb_spec x v) as [->|Hxv].
        -- split.
           ++ intros [= <-]. exists [], l'. simpl. tauto.
           ++ intros (l1 & l2 & H & Hn & Hp).
              destruct l1 as [|b l1]; simpl in H; inversion H; subst; [reflexivity|].
              exfalso. destruct l1 as [|c l1]; simpl in *; inversion H2; subst.
              ** congruence.
              ** apply Hn. right. now left.
        -- rewrite IH. split.
           ++ intros (l1 & l2 & H & Hn & Hp). exists (a :: l1), l2.
              simpl. rewrite H. repeat split; auto.
              intros [H'|H']; [congruence|tauto].
           ++ intros (l1 & l2 & H & Hn & Hp).
              destruct l1 as [|b l1]; simpl in H; inversion H; subst; [congruence|].
              exists l1, l2. repeat split; auto. intros H'. apply Hn. now right.
Qed.

Lemma predecessor_None (l : list string) (v : string) :
  predecessor l v = None <-> (~ In v l \/ exists l2, l = v :: l2).
Proof.
  rewrite <- predecessor_indexOf.
  pose proof (indexOf_lower l v) as Hlow.
  destruct (Z.leb_spec (indexOf String.eqb l v) 0) as [H0|H0].
  - split; [intros _|reflexivity].
    destruct (Z.eq_dec (indexOf String.eqb l v) (-1)) as [Hm|Hm].
    + left. now apply indexOf_absent.
    + right. destruct (indexOf_present l v) as (l1 & l2 & -> & _ & Hi); [lia|].
      destruct l1; [now exists l2|]. simpl List.length in Hi. lia.
  - destruct (indexOf_present l v) as (l1 & l2 & Hl & Hn & Hi); [lia|].
    split.
    + unfold at_index.
      destruct (Z.ltb_spec (indexOf String.eqb l v - 1) 0); [lia|].
      intros Hnth. apply nth_error_None in Hnth. rewrite Hi in Hnth.
      rewrite Hl, length_app in Hnth. simpl List.length in Hnth. lia.
    + intros [Habs|(l2' & ->)].
      * apply indexOf_absent in Habs. lia.
      * simpl in H0. rewrite String.eqb_refl in H0. lia.
Qed.

(** * Facts about the version order *)

Lemma compareNumbers_cases (a b : N) :
  (Semver.compareNumbers a b = -1 /\ (a < b)%N)
  \/ (Semver.compareNumbers a b = 0 /\ a = b)
  \/ (Semver.compareNumbers a b = 1 /\ (b < a)%N).
Proof.
  unfold Semver.compareNumbers.
  destruct (N.eqb_spec a b); [tauto|].
  destruct (N.ltb_spec a b); [tauto|]. right; right. split; [reflexivity|lia].
Qed.

Lemma compareMain_le (a b : Semver.SemVer) :
  Semver.compareMain a b <= 0 <-> main_le a b.
Proof.
  unfold Semver.compareMain, Semver.or_else, main_le.
  destruct (compareNumbers_cases (Semver.major a) (Semver.major b))
    as [[-> ?]|[[-> ?]|[-> ?]]];
  destruct (compareNumbers_cases (Semver.minor a) (Semver.minor b))
    as [[-> ?]|[[-> ?]|[-> ?]]];
  destruct (compareNumbers_cases (Semver.patch a) (Semver.patch b))
    as [[-> ?]|[[-> ?]|[-> ?]]];
  simpl; lia.
Qed.

Lemma main_le_total (a b : Semver.SemVer) : main_le a b \/ main_le b a.
Proof. unfold main_le. lia. Qed.

Lemma main_le_trans (a b c : Semver.SemVer) :
  main_le a b -> main_le b c -> main_le a c.
Proof. unfold main_le. lia. Qed.

Lemma valid_stable_parse (v : string) :
  valid_stable v = true ->
  exists sv, Semver.SemVer_new v = Ok sv /\ Semver.prerelease_ids sv = [].
Proof.
  unfold valid_stable, Semver.valid, Semver.prerelease, Semver.parse.
  destruct (Semver.SemVer_new v) as [sv|e]; [|discriminate].
  destruct (Semver.prerelease_ids sv) eqn:E; [|discriminate].
  intros _. now exists sv.
Qed.

Lemma compare_stable (a b : string) (sa sb : Semver.SemVer) :
  Semver.SemVer_new a = Ok sa -> Semver.prerelease_ids sa = [] ->
  Semver.SemVer_new b = Ok sb -> Semver.prerelease_ids sb = [] ->
  Semver.compare a b = Ok (Semver.compareMain sa sb).
Proof.
  intros Ha Hpa Hb Hpb. unfold Semver.compare. rewrite Ha, Hb. simpl.
  unfold Semver.SemVer_compare, Semver.comparePre, Semver.or_else.
  rewrite Hpa, Hpb. now destruct (Semver.compareMain sa sb =? 0) eqn:E;
    [apply Z.eqb_eq in E; rewrite E|].
Qed.

Lemma compare_valid_ok (a b : string) :
  valid_stable a = true -> valid_stable b = true ->
  Semver.compare a b = Ok (compare_valid a b).
Proof.
  intros Ha Hb.
  destruct (valid_stable_parse a Ha) as (sa & Hsa & Hpa).
  destruct (valid_stable_parse b Hb) as (sb & Hsb & Hpb).
  unfold compare_valid. now rewrite (@compare_stable _ _ _ _ Hsa Hpa Hsb Hpb).
Qed.

Lemma compare_valid_total (a b : string) :
  valid_stable a = true -> valid_stable b = true ->
  compare_valid a b <= 0 \/ compare_valid b a <= 0.
Proof.
  intros Ha Hb.
  destruct (valid_stable_parse a Ha) as (sa & Hsa & Hpa).
  destruct (valid_stable_parse b Hb) as (sb & Hsb & Hpb).
  unfold compare_valid.
  rewrite (@compare_stable _ _ _ _ Hsa Hpa Hsb Hpb), (@compare_stable _ _ _ _ Hsb Hpb Hsa Hpa).
  rewrite !compareMain_le. apply main_le_total.
Qed.

Lemma compare_valid_trans (a b c : string) :
  valid_stable a = true -> valid_stable b = true -> valid_stable c = true ->
  compare_valid a b <= 0 -> compare_valid b c <= 0 -> compare_valid a c <= 0.
Proof.
  intros Ha Hb Hc.
  destruct (valid_stable_parse a Ha) as (sa & Hsa & Hpa).
  destruct (valid_stable_parse b Hb) as (sb & Hsb & Hpb).
  destruct (valid_stable_parse c Hc) as (sc & Hsc & Hpc).
  unfold compare_valid.
  rewrite (@compare_stable _ _ _ _ Hsa Hpa Hsb Hpb), (@compare_stable _ _ _ _ Hsb Hpb Hsc Hpc),
    (@compare_stable _ _ _ _ Hsa Hpa Hsc Hpc).
  rewrite !compareMain_le. apply main_le_trans.
Qed.

Lemma semver_le_compare_valid (a b : string) :
  valid_stable a = true -> valid_stable b = true ->
  (semver_le a b <-> compare_valid a b <= 0).
Proof.
  intros Ha Hb. unfold semver_le. rewrite (compare_valid_ok a b Ha Hb). split.
  - intros (c & [= <-] & H). exact H.
  - intros H. eauto.
Qed.

(** * [getComparisonVersion] *)

(** The two reserved keys of [pkg.time] are no versions: the first two
    tests of the filter decide nothing. *)
Lemma is_stable_key_valid_stable (v : string) : is_stable_key v = valid_stable v.
Proof.
  unfold is_stable_key.
  destruct (String.eqb_spec v "modified") as [->|_]; [reflexivity|].
  destruct (String.eqb_spec v "created") as [->|_]; reflexivity.
Qed.

Lemma filter_valid_stable (l : list string) :
  Forall (fun v => valid_stable v = true) (filter valid_stable l).
Proof. apply Forall_forall. intros v Hv. now apply filter_In in Hv. Qed.

Lemma stableVersions_sort (pkg : SlimPackument) (t : Obj string) :
  time pkg = Some t ->
  stableVersions pkg = Ok (sort compare_valid (filter valid_stable (keys t))).
Proof.
  intros Ht. unfold stableVersions. rewrite Ht. simpl.
  rewrite (filter_ext _ _ is_stable_key_valid_stable).
  apply sortM_ok with (P := fun v => valid_stable v = true).
  - intros x y. apply compare_valid_ok.
  - apply filter_valid_stable.
Qed.

Lemma stableVersions_valid (t : Obj string) :
  Forall (fun v => valid_stable v = true)
    (sort compare_valid (filter valid_stable (keys t))).
Proof. apply sort_Forall, filter_valid_stable. Qed.

Lemma stableVersions_sorted (t : Obj string) :
  StronglySorted semver_le (sort compare_valid (filter valid_stable (keys t))).
Proof.
  apply StronglySorted_impl
    with (R := fun a b => compare_valid a b <= 0) (P := fun v => valid_stable v = true).
  - intros x y Hx Hy H. now apply semver_le_compare_valid.
  - apply stableVersions_valid.
  - apply sort_sorted with (P := fun v => valid_stable v = true).
    + intros x y. apply compare_valid_total.
    + intros x y z. apply compare_valid_trans.
    + apply filter_valid_stable.
Qed.

Lemma getComparisonVersion_stable (pkg : SlimPackument) (t : Obj string) (v : string) :
  time pkg = Some t -> Semver.prerelease v = None ->
  getComparisonVersion pkg v
  = Ok (predecessor (sort compare_valid (filter valid_stable (keys t))) v).
Proof.
  intros Ht Hv. unfold getComparisonVersion. rewrite Hv. simpl.
  rewrite (stableVersions_sort pkg t Ht). simpl.
  rewrite <- predecessor_indexOf.
  now destruct (indexOf String.eqb _ v <=? 0).
Qed.

Lemma getComparisonVersion_prerelease (pkg : SlimPackument) (v : string) :
  Semver.prerelease v <> None ->
  getComparisonVersion pkg v
  = Ok (match latest_tag pkg with
        | Some latest =>
            if negb (truthy latest) || String.eqb latest v then None else Some latest
        | None => None
        end).
Proof.
  intros Hv. unfold getComparisonVersion.
  destruct (Semver.prerelease v); [|congruence]. simpl.
  destruct (latest_tag pkg) as [latest|]; [|reflexivity].
  now destruct (negb (truthy latest) || String.eqb latest v).
Qed.

Lemma StronglySorted_middle (A : Type) (R : A -> A -> Prop) (l1 l2 : list A) (x : A) :
  StronglySorted R (l1 ++ x :: l2)%list ->
  (forall q, In q l1 -> R q x) /\ (forall q, In q l2 -> R x q).
Proof.
  induction l1 as [|a l1 IH]; simpl; intros HS.
  - inversion HS as [|? ? _ Hx]; subst. rewrite Forall_forall in Hx.
    split; [intros q []|exact Hx].
  - inversion HS as [|? ? HS' Ha]; subst. rewrite Forall_forall in Ha.
    destruct (IH HS') as [H1 H2]. split; [|exact H2].
    intros q [<-|Hq]; [|now apply H1].
    apply Ha, in_or_app. right. now left.
Qed.

Lemma semver_le_refl (v : string) : valid_stable v = true -> semver_le v v.
Proof.
  intros Hv. apply semver_le_compare_valid; [assumption..|].
  destruct (compare_valid_total v v Hv Hv); assumption.
Qed.

(** C1.  For a packument with a time map and a resolved version without
    prerelease identifiers: the list [stableVersions] is a permutation of
    the valid, non-prerelease keys of the time map, ascending in
    semantic-version order, and the comparison version is the element right
    before the resolved version in it; it is none exactly when the resolved
    version heads the list or does not occur in it. *)
Theorem getComparisonVersion_stable_predecessor :
  forall (pkg : SlimPackument) (t : Obj string) (v : string),
    time pkg = Some t ->
    Semver.prerelease v = None ->
    exists L : list string,
      stableVersions pkg = Ok L
      /\ Permutation L (filter valid_stable (keys t))
      /\ StronglySorted semver_le L
      /\ getComparisonVersion pkg v = Ok (predecessor L v)
      /\ (forall p, getComparisonVersion pkg v = Ok (Some p) <->
            exists l1 l2, L = (l1 ++ p :: v :: l2)%list /\ ~ In v l1 /\ p <> v)
      /\ (getComparisonVersion pkg v = Ok None <->
            (~ In v L \/ exists l2, L = v :: l2)).
Proof.
  intros pkg t v Ht Hv.
  exists (sort compare_valid (filter valid_stable (keys t))).
  rewrite (getComparisonVersion_stable pkg t v Ht Hv).
  split; [now apply stableVersions_sort|].
  split; [apply Permutation_sym, sort_perm|].
  split; [apply stableVersions_sorted|].
  split; [reflexivity|]. split.
  - intros p. rewrite <- predecessor_Some. split; congruence.
  - rewrite <- predecessor_None. split; congruence.
Qed.

Lemma getComparisonVersion_stable_predecessor_witness :
  exists L : list string,
    stableVersions three_releases = Ok L
    /\ Permutation L
         (filter valid_stable
            (keys [("created", "2020-01-01"); ("1.0.0", "2020-01-01");
                   ("1.1.0", "2021-01-01"); ("1.2.0", "2022-01-01")]))
    /\ StronglySorted semver_le L
    /\ getComparisonVersion three_releases "1.2.0" = Ok (predecessor L "1.2.0")
    /\ (forall p, getComparisonVersion three_releases "1.2.0" = Ok (Some p) <->
          exists l1 l2, L = (l1 ++ p :: "1.2.0" :: l2)%list
                        /\ ~ In "1.2.0" l1 /\ p <> "1.2.0")
    /\ (getComparisonVersion three_releases "1.2.0" = Ok None <->
          (~ In "1.2.0" L \/ exists l2, L = "1.2.0" :: l2)).
Proof.
  apply (getComparisonVersion_stable_predecessor three_releases
           [("created", "2020-01-01"); ("1.0.0", "2020-01-01");
            ("1.1.0", "2021-01-01"); ("1.2.0", "2022-01-01")] "1.2.0").
  - reflexivity.
  - reflexivity.
Defined.

(** Reading a property gives the value of its entry. *)
Lemma get_Some_iff (V : Type) (o : Obj V) (k : string) (v : V) :
  get o k = Some v <->
  exists pre post, o = (pre ++ (k, v) :: post)%list /\ ~ In k (keys pre).
Proof.
  induction o as [|[k' v'] o IH]; simpl.
  - split; [discriminate|]. intros (pre & post & H & _). now destruct pre.
  - destruct (String.eqb_spec k' k) as [->|Hk].
    + split.
      * intros [= ->]. exists [], o. split; [reflexivity|intros []].
      * intros (pre & post & H & Hpre). destruct pre as [|[k1 v1] pre].
        -- now injection H as -> _.
        -- injection H as <- _ _. exfalso. apply Hpre. now left.
    + rewrite IH. split.
      * intros (pre & post & -> & Hpre). exists ((k', v') :: pre), post.
        split; [reflexivity|]. intros [H|H]; [now apply Hk|now apply Hpre].
      * intros (pre & post & H & Hpre). destruct pre as [|[k1 v1] pre].
        -- injection H as H1 _ _. congruence.
        -- injection H as <- <- ->. exists pre, post.
           split; [reflexivity|]. intros Hin. apply Hpre. now right.
Qed.

Lemma get_None_iff (V : Type) (o : Obj V) (k : string) :
  get o k = None <-> ~ In k (keys o).
Proof.
  induction o as [|[k' v'] o IH]; simpl.
  - split; [intros _ []|reflexivity].
  - destruct (String.eqb_spec k' k) as [->|Hk].
    + split; [discriminate|]. intros H. exfalso. apply H. now left.
    + rewrite IH. split.
      * intros H [H1|H1]; [now apply Hk|now apply H].
      * intros H Hin. apply H. now right.
Qed.

Lemma latest_tag_points_to (pkg : SlimPackument) (v : string) :
  latest_tag pkg = Some v <-> points_to pkg "latest" v.
Proof.
  unfold latest_tag, points_to. destruct (dist_tags pkg) as [tags|].
  - rewrite get_Some_iff. split.
    + intros (pre & post & H & Hpre). now exists tags, pre, post.
    + intros (tags' & pre & post & [= <-] & H & Hpre). now exists pre, post.
  - split; [discriminate|]. intros (tags' & pre & post & H & _). discriminate.
Qed.

Lemma latest_tag_untagged (pkg : SlimPackument) :
  latest_tag pkg = None <-> untagged pkg "latest".
Proof.
  unfold latest_tag, untagged. destruct (dist_tags pkg) as [tags|].
  - apply get_None_iff.
  - tauto.
Qed.

(** C2, as stated, fails: a [latest] dist-tag that is there and holds the
    empty string does not equal the resolved version, and yet the
    comparison version is none: the test [!latest] takes the empty string
    like a missing tag. *)
Lemma getComparisonVersion_empty_latest :
  Semver.prerelease "2.0.0-beta.1" <> None
  /\ points_to empty_latest "latest" ""
  /\ ~ untagged empty_latest "latest"
  /\ ~ points_to empty_latest "latest" "2.0.0-beta.1"
  /\ getComparisonVersion empty_latest "2.0.0-beta.1" = Ok None
  /\ ~ (getComparisonVersion empty_latest "2.0.0-beta.1" = Ok None <->
          untagged empty_latest "latest"
          \/ points_to empty_latest "latest" "2.0.0-beta.1").
Proof.
  assert (H1 : ~ untagged empty_latest "latest").
  { rewrite <- latest_tag_untagged. discriminate. }
  assert (H2 : ~ points_to empty_latest "latest" "2.0.0-beta.1").
  { rewrite <- latest_tag_points_to. discriminate. }
  split; [discriminate|]. split; [now apply latest_tag_points_to|].
  split; [exact H1|]. split; [exact H2|]. split; [reflexivity|].
  intros [H _]. destruct (H eq_refl); contradiction.
Qed.

(** C2, amended.  For a resolved version with prerelease identifiers: the
    comparison version is the version the [latest] dist-tag points to, and
    it is none exactly when the packument has no [latest] dist-tag, or the
    tag holds the empty string, or it points to the resolved version
    itself. *)
Theorem getComparisonVersion_prerelease_latest :
  forall (pkg : SlimPackument) (v : string),
    Semver.prerelease v <> None ->
    (forall latest, getComparisonVersion pkg v = Ok (Some latest) <->
       points_to pkg "latest" latest /\ latest <> "" /\ latest <> v)
    /\ (getComparisonVersion pkg v = Ok None <->
          untagged pkg "latest"
          \/ points_to pkg "latest" ""
          \/ points_to pkg "latest" v).
Proof.
  intros pkg v Hv. rewrite (getComparisonVersion_prerelease pkg v Hv).
  setoid_rewrite <- latest_tag_points_to. rewrite <- latest_tag_untagged.
  destruct (latest_tag pkg) as [l|].
  - unfold truthy. destruct (String.eqb_spec l "") as [->|Hl]; simpl.
    + split.
      * intros latest. split; [discriminate|]. intros ([= <-] & H & _). congruence.
      * split; [auto|reflexivity].
    + destruct (String.eqb_spec l v) as [->|Hlv]; split.
      * intros latest. split; [discriminate|]. intros ([= <-] & _ & H). congruence.
      * split; [auto|reflexivity].
      * intros latest. split.
        -- intros [= <-]. auto.
        -- intros ([= <-] & _). reflexivity.
      * split; [discriminate|].
        intros [H|[[= H]|[= H]]]; [discriminate|congruence..].
  - split.
    + intros latest. split; [discriminate|]. intros [H _]. discriminate.
    + split; [auto|reflexivity].
Qed.

Lemma getComparisonVersion_prerelease_latest_witness :
  (forall latest,
      getComparisonVersion beta_with_latest "2.0.0-beta.1" = Ok (Some latest) <->
      points_to beta_with_latest "latest" latest
      /\ latest <> "" /\ latest <> "2.0.0-beta.1")
  /\ (getComparisonVersion beta_with_latest "2.0.0-beta.1" = Ok None <->
        untagged beta_with_latest "latest"
        \/ points_to beta_with_latest "latest" ""
        \/ points_to beta_with_latest "latest" "2.0.0-beta.1").
Proof.
  apply (getComparisonVersion_prerelease_latest beta_with_latest "2.0.0-beta.1").
  vm_compute. discriminate.
Defined.

(** C3, as stated, fails: a patch release of an old line published after a
    newer major is compared with its semantic-version predecessor, not with
    the stable release published last before it. *)
Lemma getComparisonVersion_not_previous_by_time :
  time backport = Some backport_time
  /\ Semver.prerelease "1.1.0" = None
  /\ previous_by_time backport_time "1.1.0" = Some "2.0.0"
  /\ getComparisonVersion backport "1.1.0" = Ok (Some "1.0.0")
  /\ getComparisonVersion backport "1.1.0"
     <> Ok (previous_by_time backport_time "1.1.0").
Proof. repeat split. vm_compute. discriminate. Qed.

(** C3, amended.  For a packument with a time map and a resolved version
    without prerelease identifiers, the comparison version depends on the
    keys of the time map only, not on the timestamps; when there is one it
    is a stable key at most the resolved version in semantic-version order,
    with no stable key strictly between the two. *)
Theorem getComparisonVersion_stable_by_semver :
  forall (pkg pkg' : SlimPackument) (t t' : Obj string) (v : string),
    time pkg = Some t ->
    time pkg' = Some t' ->
    keys t = keys t' ->
    Semver.prerelease v = None ->
    getComparisonVersion pkg v = getComparisonVersion pkg' v
    /\ forall p, getComparisonVersion pkg v = Ok (Some p) ->
         In p (keys t) /\ valid_stable p = true /\ p <> v
         /\ semver_le p v
         /\ forall q, In q (keys t) -> valid_stable q = true ->
              semver_le q p \/ semver_le v q.
Proof.
  intros pkg pkg' t t' v Ht Ht' Hk Hv.
  rewrite (getComparisonVersion_stable pkg t v Ht Hv).
  rewrite (getComparisonVersion_stable pkg' t' v Ht' Hv).
  rewrite <- Hk. split; [reflexivity|].
  intros p [= Hp]. apply predecessor_Some in Hp.
  destruct Hp as (l1 & l2 & HL & _ & Hpv).
  pose proof (stableVersions_sorted t) as HS.
  pose proof (stableVersions_valid t) as HV.
  assert (Hin : forall q, In q (keys t) -> valid_stable q = true ->
                          In q (l1 ++ p :: v :: l2)%list).
  { intros q Hq Hqs. rewrite <- HL.
    eapply Permutation_in; [apply sort_perm|]. apply filter_In. now split. }
  assert (Hmem : forall q, In q (l1 ++ p :: v :: l2)%list ->
                           In q (keys t) /\ valid_stable q = true).
  { intros q Hq. rewrite <- HL in Hq.
    apply (Permutation_in q (Permutation_sym (sort_perm compare_valid _))) in Hq.
    now apply filter_In in Hq. }
  rewrite HL in HS.
  destruct (StronglySorted_middle _ _ _ _ _ HS) as [Hbefore Hafter].
  assert (Hp : In p (l1 ++ p :: v :: l2)%list)
    by (apply in_or_app; right; now left).
  assert (Hvin : In v (l1 ++ p :: v :: l2)%list)
    by (apply in_or_app; right; right; now left).
  destruct (Hmem p Hp) as [Hpk Hps]. destruct (Hmem v Hvin) as [_ Hvs].
  repeat split; auto.
  - apply Hafter. now left.
  - intros q Hq Hqs. specialize (Hin q Hq Hqs).
    apply in_app_or in Hin. destruct Hin as [H1|[<-|[<-|H2]]].
    + left. now apply Hbefore.
    + left. now apply semver_le_refl.
    + right. now apply semver_le_refl.
    + right. replace (l1 ++ p :: v :: l2)%list
        with ((l1 ++ [p]) ++ v :: l2)%list in HS
        by (rewrite <- app_assoc; reflexivity).
      destruct (StronglySorted_middle _ _ _ _ _ HS) as [_ Hafter'].
      now apply Hafter'.
Qed.

Lemma getComparisonVersion_stable_by_semver_witness :
  getComparisonVersion backport "1.1.0" = getComparisonVersion restamped "1.1.0"
  /\ forall p, getComparisonVersion backport "1.1.0" = Ok (Some p) ->
       In p (keys backport_time) /\ valid_stable p = true /\ p <> "1.1.0"
       /\ semver_le p "1.1.0"
       /\ forall q, In q (keys backport_time) -> valid_stable q = true ->
            semver_le q p \/ semver_le "1.1.0" q.
Proof.
  apply (getComparisonVersion_stable_by_semver backport restamped
           backport_time restamped_time "1.1.0").
  - reflexivity.
  - reflexivity.
  - reflexivity.
  - reflexivity.
Defined.

(** C8, as stated, fails: [Object.keys] throws on a packument that has no
    time map. *)
Lemma getComparisonVersion_throws_without_time :
  getComparisonVersion
    (mkSlimPackument "test" (Some [("latest", "1.0.0")]) None) "1.0.0"
  = Throw (TypeError "Cannot convert undefined or null to object").
Proof. reflexivity. Qed.

(** C8, amended.  When the time map is present (or the resolved version
    has prerelease identifiers, so that the time map is not read),
    [getComparisonVersion] returns a version or none, whatever the version
    string, the keys of the time map and the dist-tags are. *)
Theorem getComparisonVersion_total :
  forall (pkg : SlimPackument) (v : string),
    time pkg <> None \/ Semver.prerelease v <> None ->
    exists r : option string, getComparisonVersion pkg v = Ok r.
Proof.
  intros pkg v H.
  destruct (Semver.prerelease v) as [ids|] eqn:Hv.
  - rewrite getComparisonVersion_prerelease by congruence. eauto.
  - destruct H as [H|H]; [|congruence].
    destruct (time pkg) as [t|] eqn:Ht; [|congruence].
    rewrite (getComparisonVersion_stable pkg t v Ht Hv). eauto.
Qed.

Lemma getComparisonVersion_total_witness :
  exists r : option string,
    getComparisonVersion
      (mkSlimPackument "test" None (Some [("not a version", "x"); ("1.0.0", "")]))
      "latest" = Ok r.
Proof.
  apply getComparisonVersion_total. left. simpl. discriminate.
Defined.

(** * [useInstallSizeDiff]: the numbers of the diff *)

Lemma Qgtb_lt (a b : Q) : Qgtb a b = true <-> (b < a)%Q.
Proof.
  unfold Qgtb. rewrite negb_true_iff. split.
  - intros H. apply Qnot_le_lt. intros Hle.
    apply Qle_bool_iff in Hle. congruence.
  - intros H. destruct (Qle_bool a b) eqn:E; [|reflexivity].
    apply Qle_bool_iff in E. exfalso. exact (Qlt_not_le _ _ H E).
Qed.

(** When the getter produces a diff, its fields are the values of the
    local constants. *)
Lemma compute_diff_fields (n : string) (resolved : option string)
    (c p : InstallSizeResult) (cv : option string) (d : InstallSizeDiff.t) :
  compute_diff n resolved (Some c) (Some p) cv = Some d ->
  InstallSizeDiff.sizeRatio d = sizeRatio_of c p
  /\ InstallSizeDiff.depDiff d = depDiff_of c p
  /\ InstallSizeDiff.sizeThresholdExceeded d = sizeThresholdExceeded_of c p
  /\ InstallSizeDiff.depThresholdExceeded d = depThresholdExceeded_of c p
  /\ InstallSizeDiff.sizeIncrease d = totalSize c - totalSize p
  /\ InstallSizeDiff.currentSize d = totalSize c
  /\ InstallSizeDiff.previousSize d = totalSize p
  /\ InstallSizeDiff.currentDeps d = dependencyCount c
  /\ InstallSizeDiff.previousDeps d = dependencyCount p.
Proof.
  unfold compute_diff. destruct cv as [cv|]; [|discriminate].
  destruct (negb (truthy cv)); [discriminate|].
  destruct (_ || _); [discriminate|].
  destruct (_ || _); [discriminate|].
  destruct (_ && _); [discriminate|].
  intros [= <-]. simpl. repeat split.
Qed.

(** C4.  With a previous total size that is a byte count (not negative):
    [sizeRatio] is [(current.totalSize - previous.totalSize) /
    previous.totalSize] when the previous total size is not zero and zero
    when it is zero, [depDiff] is the difference of the dependency counts,
    and these are the values a diff carries. *)
Theorem sizeRatio_depDiff_formula :
  forall current previous : InstallSizeResult,
    0 <= totalSize previous ->
    (totalSize previous <> 0 ->
       sizeRatio_of current previous
       = (inject_Z (totalSize current - totalSize previous)
          / inject_Z (totalSize previous))%Q)
    /\ (totalSize previous = 0 -> sizeRatio_of current previous = 0%Q)
    /\ depDiff_of current previous
       = dependencyCount current - dependencyCount previous
    /\ forall n resolved cv d,
         compute_diff n resolved (Some current) (Some previous) cv = Some d ->
         InstallSizeDiff.sizeRatio d = sizeRatio_of current previous
         /\ InstallSizeDiff.depDiff d = depDiff_of current previous.
Proof.
  intros c p Hp. split; [|split; [|split]].
  - intros Hnz. unfold sizeRatio_of.
    destruct (Z.gtb_spec (totalSize p) 0); [reflexivity|lia].
  - intros Hz. unfold sizeRatio_of. rewrite Hz. reflexivity.
  - reflexivity.
  - intros n resolved cv d H. apply compute_diff_fields in H. tauto.
Qed.

Lemma sizeRatio_depDiff_formula_witness :
  let current := createInstallSize "pkg-size-only" "1.1.0" 7000 4 in
  let previous := createInstallSize "pkg-size-only" "1.0.0" 5000 3 in
  (totalSize previous <> 0 ->
     sizeRatio_of current previous
     = (inject_Z (totalSize current - totalSize previous)
        / inject_Z (totalSize previous))%Q)
  /\ (totalSize previous = 0 -> sizeRatio_of current previous = 0%Q)
  /\ depDiff_of current previous
     = dependencyCount current - dependencyCount previous
  /\ forall n resolved cv d,
       compute_diff n resolved (Some current) (Some previous) cv = Some d ->
       InstallSizeDiff.sizeRatio d = sizeRatio_of current previous
       /\ InstallSizeDiff.depDiff d = depDiff_of current previous.
Proof.
  intros current previous.
  apply (sizeRatio_depDiff_formula current previous).
  simpl. lia.
Defined.

(** The guard is [> 0]: the ratio is zero for every previous total size
    that is not positive. *)
Lemma sizeRatio_of_not_positive (current previous : InstallSizeResult) :
  totalSize previous <= 0 -> sizeRatio_of current previous = 0%Q.
Proof.
  intros H. unfold sizeRatio_of.
  destruct (Z.gtb_spec (totalSize previous) 0); [lia|reflexivity].
Qed.

(** C5.  The size flag is [sizeRatio > 0.25] and the dependency flag is
    [depDiff > 5], both strict; a diff carries these flags, and there is no
    diff when both are false.  7000 against 5000 bytes is a ratio of 0.4,
    over the threshold; 5100 against 5000 bytes with 4 against 3
    dependencies gives no diff. *)
Theorem threshold_gate :
  (forall current previous : InstallSizeResult,
      (sizeThresholdExceeded_of current previous = true <->
         (25 # 100 < sizeRatio_of current previous)%Q)
      /\ (depThresholdExceeded_of current previous = true <->
            5 < depDiff_of current previous)
      /\ (forall n resolved cv d,
            compute_diff n resolved (Some current) (Some previous) cv = Some d ->
            (InstallSizeDiff.sizeThresholdExceeded d = true <->
               (25 # 100 < InstallSizeDiff.sizeRatio d)%Q)
            /\ (InstallSizeDiff.depThresholdExceeded d = true <->
                  5 < InstallSizeDiff.depDiff d)
            /\ (InstallSizeDiff.sizeThresholdExceeded d = true
                \/ InstallSizeDiff.depThresholdExceeded d = true))
      /\ (forall n resolved cv,
            sizeThresholdExceeded_of current previous = false ->
            depThresholdExceeded_of current previous = false ->
            compute_diff n resolved (Some current) (Some previous) cv = None))
  /\ (forall current previous : InstallSizeResult,
        totalSize current = 7000 -> totalSize previous = 5000 ->
        (sizeRatio_of current previous == 4 # 10)%Q
        /\ sizeThresholdExceeded_of current previous = true)
  /\ (forall (current previous : InstallSizeResult) n resolved cv,
        totalSize current = 5100 -> totalSize previous = 5000 ->
        dependencyCount current = 4 -> dependencyCount previous = 3 ->
        sizeThresholdExceeded_of current previous = false
        /\ depThresholdExceeded_of current previous = false
        /\ compute_diff n resolved (Some current) (Some previous) cv = None).
Proof.
  assert (Hsize : forall c p, sizeThresholdExceeded_of c p = true <->
                              (25 # 100 < sizeRatio_of c p)%Q).
  { intros c p. apply Qgtb_lt. }
  assert (Hdep : forall c p, depThresholdExceeded_of c p = true <->
                             5 < depDiff_of c p).
  { intros c p. unfold depThresholdExceeded_of, DEP_INCREASE_THRESHOLD.
    destruct (Z.gtb_spec (depDiff_of c p) 5); split; intros; try lia;
      try reflexivity; discriminate. }
  assert (Hnone : forall c p n resolved cv,
             sizeThresholdExceeded_of c p = false ->
             depThresholdExceeded_of c p = false ->
             compute_diff n resolved (Some c) (Some p) cv = None).
  { intros c p n resolved cv Hs Hd. unfold compute_diff.
    destruct cv as [cv|]; [|reflexivity].
    destruct (negb (truthy cv)); [reflexivity|].
    destruct (_ || _); [reflexivity|].
    destruct (_ || _); [reflexivity|].
    now rewrite Hs, Hd. }
  split; [|split].
  - intros c p. split; [apply Hsize|]. split; [apply Hdep|].
    split; [|apply Hnone].
    intros n resolved cv d H.
    destruct (compute_diff_fields _ _ _ _ _ _ H) as (-> & -> & Hs & Hd & _).
    rewrite Hs, Hd. split; [apply Hsize|]. split; [apply Hdep|].
    destruct (sizeThresholdExceeded_of c p) eqn:Es; [now left|].
    destruct (depThresholdExceeded_of c p) eqn:Ed; [now right|].
    rewrite (Hnone c p n resolved cv Es Ed) in H. discriminate.
  - intros c p Hc Hp. unfold sizeThresholdExceeded_of, sizeRatio_of.
    rewrite Hc, Hp. split; reflexivity.
  - intros c p n resolved cv Hc Hp Hdc Hdp.
    assert (Hs : sizeThresholdExceeded_of c p = false).
    { unfold sizeThresholdExceeded_of, sizeRatio_of. now rewrite Hc, Hp. }
    assert (Hd : depThresholdExceeded_of c p = false).
    { unfold depThresholdExceeded_of, depDiff_of. now rewrite Hdc, Hdp. }
    auto.
Qed.

(** * [useInstallSizeDiff]: identity checks and the fetch *)

Lemma opt_string_eqb_eq (a : string) (b : option string) :
  opt_string_eqb a b = true <-> b = Some a.
Proof.
  destruct b as [b|]; simpl; [|split; discriminate].
  destruct (String.eqb_spec a b) as [->|H]; split; congruence.
Qed.

(** The getter produces a diff exactly when all the guards pass. *)
Lemma compute_diff_Some (n : string) (resolved : option string)
    (current previous : option InstallSizeResult) (cv : option string)
    (d : InstallSizeDiff.t) :
  compute_diff n resolved current previous cv = Some d ->
  exists c p v,
    current = Some c /\ previous = Some p /\ cv = Some v /\ v <> ""
    /\ version p = v /\ package p = n
    /\ resolved = Some (version c) /\ package c = n
    /\ InstallSizeDiff.comparisonVersion d = v.
Proof.
  unfold compute_diff.
  destruct current as [c|]; [|discriminate].
  destruct previous as [p|]; [|discriminate].
  destruct cv as [v|]; [|discriminate].
  unfold truthy. destruct (String.eqb_spec v "") as [->|Hv]; [discriminate|].
  simpl negb at 1. cbv iota.
  destruct (String.eqb_spec (version p) v) as [Hpv|]; [|discriminate].
  destruct (String.eqb_spec (package p) n) as [Hpn|]; [|discriminate].
  simpl.
  destruct (opt_string_eqb (version c) resolved) eqn:Hcv; [|discriminate].
  destruct (String.eqb_spec (package c) n) as [Hcn|]; [|discriminate].
  simpl. destruct (_ && _); [discriminate|].
  intros [= <-]. exists c, p, v. apply opt_string_eqb_eq in Hcv.
  repeat split; auto.
Qed.

(** C6.  A diff is produced only when the current and the comparison
    install-size results are both present, the current one carries the
    requested package name and the resolved version, and the comparison one
    carries the requested package name and the comparison version; when a
    result is absent or carries another name or version (and the
    comparison version was computed), the diff is none. *)
Theorem diff_identity_invariant :
  forall s : State,
    (forall d, diff s = Ok (Some d) ->
       exists c p cv,
         currentInstallSize (props s) = Some c
         /\ comparisonInstallSize s = Some p
         /\ comparisonVersion (props s) = Ok (Some cv)
         /\ package c = packageName (props s)
         /\ resolvedVersion (props s) = Some (version c)
         /\ package p = packageName (props s)
         /\ version p = cv
         /\ InstallSizeDiff.comparisonVersion d = cv)
    /\ (forall cv,
          comparisonVersion (props s) = Ok cv ->
          (currentInstallSize (props s) = None
           \/ comparisonInstallSize s = None
           \/ (exists c, currentInstallSize (props s) = Some c
                         /\ (package c <> packageName (props s)
                             \/ resolvedVersion (props s) <> Some (version c)))
           \/ (exists p, comparisonInstallSize s = Some p
                         /\ (package p <> packageName (props s)
                             \/ cv <> Some (version p)))) ->
          diff s = Ok None).
Proof.
  intros s. split.
  - intros d. unfold diff.
    destruct (comparisonVersion (props s)) as [cv|e]; [|discriminate].
    simpl. intros [= H].
    destruct (compute_diff_Some _ _ _ _ _ _ H)
      as (c & p & v & Hc & Hp & -> & _ & Hpv & Hpn & Hr & Hcn & Hd).
    exists c, p, v. repeat split; auto.
  - intros cv Hcv Hbad. unfold diff. rewrite Hcv. simpl. f_equal.
    destruct (compute_diff _ _ _ _ cv) as [d|] eqn:H; [|reflexivity].
    destruct (compute_diff_Some _ _ _ _ _ _ H)
      as (c & p & v & Hc & Hp & -> & _ & Hpv & Hpn & Hr & Hcn & Hd).
    exfalso.
    destruct Hbad as [Hb|[Hb|[(c' & Hc' & Hb)|(p' & Hp' & Hb)]]];
      try congruence.
    + assert (c' = c) by congruence. subst c'. destruct Hb; congruence.
    + assert (p' = p) by congruence. subst p'. destruct Hb; congruence.
Qed.

Lemma request_cases (p : Props) (url : string) :
  request p = Ok url ->
  (url = "" /\ forall v, comparisonVersion p = Ok (Some v) -> v = "")
  \/ exists v, comparisonVersion p = Ok (Some v) /\ v <> ""
               /\ url = endpoint (packageName p) v.
Proof.
  unfold request. destruct (comparisonVersion p) as [[v|]|e]; simpl.
  - unfold truthy. destruct (String.eqb_spec v "") as [->|Hv]; simpl.
    + intros [= <-]. left. split; [reflexivity|]. now intros v [= <-].
    + intros [= <-]. right. exists v. auto.
  - intros [= <-]. left. split; [reflexivity|discriminate].
  - discriminate.
Qed.

(** A fetch changes the log only. *)
Lemma fetchComparisonSize_frame (s : State) :
  client (fetchComparisonSize s) = client s
  /\ refetch_on_change (fetchComparisonSize s) = refetch_on_change s
  /\ props (fetchComparisonSize s) = props s
  /\ comparisonInstallSize (fetchComparisonSize s) = comparisonInstallSize s
  /\ (requests (fetchComparisonSize s) = requests s
      \/ exists url, request (props s) = Ok url
                     /\ requests (fetchComparisonSize s) = url :: requests s).
Proof.
  unfold fetchComparisonSize.
  destruct (request (props s)) as [url|e] eqn:H; simpl; [|tauto].
  repeat split. right. now exists url.
Qed.

Lemma watch_callback_frame (s : State) :
  client (watch_callback s) = client s
  /\ refetch_on_change (watch_callback s) = refetch_on_change s
  /\ props (watch_callback s) = props s
  /\ comparisonInstallSize (watch_callback s) = comparisonInstallSize s
  /\ (requests (watch_callback s) = requests s
      \/ exists v, comparisonVersion (props s) = Ok (Some v) /\ v <> ""
                   /\ requests (watch_callback s)
                      = endpoint (packageName (props s)) v :: requests s).
Proof.
  unfold watch_callback.
  destruct (comparisonVersion (props s)) as [[v|]|e] eqn:Hcv; try tauto.
  unfold truthy. destruct (String.eqb_spec v "") as [->|Hv]; simpl; [tauto|].
  destruct (fetchComparisonSize_frame s) as (Hc & Hr & Hp & Hd & _).
  repeat split; try assumption.
  right. exists v. repeat split; try assumption.
  unfold fetchComparisonSize, request. rewrite Hcv. simpl.
  unfold truthy. destruct (String.eqb_spec v ""); [congruence|]. reflexivity.
Qed.

Lemma step_props (s : State) (e : Event) :
  props (step s e) = match e with SetProps p => p | Response _ => props s end.
Proof.
  destruct e as [p|r]; simpl; [|reflexivity].
  set (s1 := mkState (client s) (refetch_on_change s) p
               (comparisonInstallSize s) (requests s)).
  set (s2 := if client s && refetch_on_change s && request_changed (props s) p
             then fetchComparisonSize s1 else s1).
  assert (H2 : props s2 = p).
  { subst s2. destruct (_ && _); [|reflexivity].
    now destruct (fetchComparisonSize_frame s1) as (_ & _ & -> & _). }
  clearbody s2.
  destruct (_ && _); [|exact H2].
  destruct (watch_callback_frame s2) as (_ & _ & -> & _). exact H2.
Qed.

(** With no comparison version before and after, a step fetches nothing:
    the URL of the request getter stays empty, and the callback of the
    watcher does not pass its test. *)
Lemma step_no_fetch (s : State) (e : Event) :
  comparisonVersion (props s) = Ok None ->
  comparisonVersion (props (step s e)) = Ok None ->
  requests (step s e) = requests s.
Proof.
  intros Hs. rewrite step_props. destruct e as [p|r]; [|reflexivity].
  intros Hp. simpl.
  assert (Hreq : request_changed (props s) p = false).
  { unfold request_changed, request. now rewrite Hs, Hp. }
  rewrite Hreq, andb_false_r.
  destruct (client s && sources_changed (props s) p); [|reflexivity].
  unfold watch_callback. simpl. now rewrite Hp.
Qed.

Lemma setup_no_fetch (is_client refetches : bool) (p : Props) :
  comparisonVersion p = Ok None ->
  requests (setup is_client refetches p) = []
  /\ props (setup is_client refetches p) = p.
Proof.
  intros Hp. unfold setup, watch_callback. simpl. rewrite Hp.
  now destruct is_client.
Qed.

Lemma run_no_fetch (es : list Event) :
  forall s : State,
    comparisonVersion (props s) = Ok None ->
    (forall q, In q (props_of es) -> comparisonVersion q = Ok None) ->
    requests (run s es) = requests s.
Proof.
  induction es as [|e es IH]; intros s Hs Hes; simpl; [reflexivity|].
  assert (He : comparisonVersion (props (step s e)) = Ok None).
  { rewrite step_props. destruct e as [p|r]; [|exact Hs].
    apply Hes. now left. }
  rewrite IH.
  - now apply step_no_fetch.
  - exact He.
  - intros q Hq. apply Hes. destruct e; [now right|exact Hq].
Qed.

(** Every URL in the log is the value of the request getter for one of the
    inputs: the endpoint of a resolved comparison version, or the empty URL
    when the library fetched again after the comparison version went
    away. *)
Lemma step_requests (ps : list Props) (s : State) (e : Event) :
  In (props (step s e)) ps ->
  Forall (fun url => url = "" \/ issued_for ps url) (requests s) ->
  Forall (fun url => url = "" \/ issued_for ps url) (requests (step s e)).
Proof.
  rewrite step_props. destruct e as [p|r]; [|now intros _ H].
  intros Hp Hs. simpl.
  set (s1 := mkState (client s) (refetch_on_change s) p
               (comparisonInstallSize s) (requests s)).
  set (s2 := if client s && refetch_on_change s && request_changed (props s) p
             then fetchComparisonSize s1 else s1).
  assert (H2 : props s2 = p
               /\ Forall (fun url => url = "" \/ issued_for ps url) (requests s2)).
  { subst s2. destruct (_ && _); [|now split].
    destruct (fetchComparisonSize_frame s1)
      as (_ & _ & Hp1 & _ & [->|(url & Hurl & ->)]); split; try assumption.
    constructor; [|exact Hs]. simpl in Hurl.
    destruct (request_cases p url Hurl) as [[-> _]|(v & Hv & Hne & ->)];
      [now left|]. right. now exists p, v. }
  destruct H2 as [H2p H2r]. clearbody s2.
  destruct (_ && _); [|exact H2r].
  destruct (watch_callback_frame s2)
    as (_ & _ & _ & _ & [->|(v & Hv & Hne & ->)]); [exact H2r|].
  constructor; [|exact H2r]. right. rewrite H2p in *. now exists p, v.
Qed.

Lemma requests_issued_for (is_client refetches : bool) (p : Props) (es : list Event) :
  Forall (fun url => url = "" \/ issued_for (p :: props_of es) url)
    (requests (run (setup is_client refetches p) es)).
Proof.
  assert (Hsetup : Forall (fun url => url = "" \/ issued_for (p :: props_of es) url)
                     (requests (setup is_client refetches p))).
  { unfold setup. destruct is_client; [|constructor].
    destruct (watch_callback_frame (mkState true refetches p None []))
      as (_ & _ & _ & _ & [->|(v & Hv & Hne & ->)]); simpl in *; [constructor|].
    constructor; [|constructor]. right. exists p, v. simpl. auto. }
  revert Hsetup. generalize (setup is_client refetches p).
  generalize (p :: props_of es) (incl_tl p (incl_refl (props_of es))).
  induction es as [|e es IH]; intros ps Hincl s Hs; simpl; [exact Hs|].
  apply IH.
  - destruct e; [|exact Hincl]. intros q Hq. apply Hincl. now right.
  - destruct e as [q|r]; [|exact Hs].
    apply step_requests; [|exact Hs].
    rewrite step_props. apply Hincl. now left.
Qed.

(** C7.  When the comparison version is none for the inputs of the call and
    for the inputs of every later change, no request is made: not at the
    call, not on a change of the inputs, not when a response arrives, and
    not by a refetch of the library, whether it has one or not. *)
Theorem no_fetch_without_comparisonVersion :
  forall (is_client refetches : bool) (p : Props) (es : list Event),
    (forall q, In q (p :: props_of es) -> comparisonVersion q = Ok None) ->
    requests (run (setup is_client refetches p) es) = [].
Proof.
  intros is_client refetches p es Hnone.
  destruct (setup_no_fetch is_client refetches p) as [Hreq Hprops].
  { apply Hnone. now left. }
  rewrite run_no_fetch.
  - exact Hreq.
  - rewrite Hprops. apply Hnone. now left.
  - intros q Hq. apply Hnone. now right.
Qed.

Lemma no_fetch_without_comparisonVersion_witness :
  requests
    (run (setup true true (first_release_props "my-pkg"))
       [SetProps (first_release_props "other-pkg"); Response None])
  = [].
Proof.
  apply (no_fetch_without_comparisonVersion true true (first_release_props "my-pkg")
           [SetProps (first_release_props "other-pkg"); Response None]).
  simpl. intros q [<-|[<-|[]]]; reflexivity.
Defined.

(** * [calculateInstallSize] *)

Lemma sum_sizes_app (l1 l2 : list DependencySize.t) :
  sum_sizes (l1 ++ l2) = sum_sizes l1 + sum_sizes l2.
Proof. induction l1 as [|d l1 IH]; simpl; [reflexivity|]. rewrite IH. lia. Qed.

Lemma sum_sizes_perm (l1 l2 : list DependencySize.t) :
  Permutation l1 l2 -> sum_sizes l1 = sum_sizes l2.
Proof. induction 1; simpl; lia. Qed.

(** The state of the three variables after the loop. *)
Lemma loop_result (self : string) (resolved : Obj ResolvedPackage.t) :
  forall a : Acc,
    let a' := fold_left (loop_body self) resolved a in
    acc_dependencies a' = (acc_dependencies a ++ other_entries self resolved)%list
    /\ acc_totalSize a' = acc_totalSize a + sum_sizes (other_entries self resolved)
    /\ acc_dependencyCount a'
       = acc_dependencyCount a + Z.of_nat (List.length (other_entries self resolved)).
Proof.
  unfold other_entries.
  induction resolved as [|[key dep] resolved IH]; intros a; simpl.
  - rewrite app_nil_r. repeat split; lia.
  - destruct (String.eqb key self); simpl.
    + apply IH.
    + destruct (IH (mkAcc (acc_dependencies a ++ [to_dependency dep])
                      (acc_totalSize a + ResolvedPackage.size dep)
                      (acc_dependencyCount a + 1))) as (Hd & Ht & Hc).
      simpl in *. rewrite Hd, Ht, Hc, <- app_assoc. repeat split; lia.
Qed.

Lemma by_size_descending_sorted (l : list DependencySize.t) :
  StronglySorted (fun a b => DependencySize.size a >= DependencySize.size b)
    (sort by_size_descending l).
Proof.
  apply StronglySorted_impl
    with (R := fun a b => by_size_descending a b <= 0) (P := fun _ => True).
  - unfold by_size_descending. intros; lia.
  - apply Forall_forall. trivial.
  - apply sort_sorted with (P := fun _ => True).
    + unfold by_size_descending. intros; lia.
    + unfold by_size_descending. intros; lia.
    + apply Forall_forall. trivial.
Qed.

(** What holds of the result for every map. *)
Lemma calculateInstallSize_result (n v : string) (resolved : Obj ResolvedPackage.t) :
  let r := calculateInstallSize n v resolved in
  package r = n /\ version r = v
  /\ Permutation (dependencies r) (other_entries (selfKey n v) resolved)
  /\ totalSize r = selfSize r + sum_sizes (dependencies r)
  /\ dependencyCount r = Z.of_nat (List.length (dependencies r))
  /\ StronglySorted (fun a b => DependencySize.size a >= DependencySize.size b)
       (dependencies r).
Proof.
  unfold calculateInstallSize. cbv zeta.
  set (selfSize0 := match get resolved (selfKey n v) with
                    | Some selfEntry => ResolvedPackage.size selfEntry
                    | None => 0
                    end).
  destruct (loop_result (selfKey n v) resolved (mkAcc [] selfSize0 0))
    as (Hd & Ht & Hc). simpl in Hd, Ht, Hc. simpl.
  rewrite Hd, Ht, Hc.
  assert (Hperm : Permutation
                    (sort by_size_descending (other_entries (selfKey n v) resolved))
                    (other_entries (selfKey n v) resolved))
    by apply Permutation_sym, sort_perm.
  repeat split.
  - exact Hperm.
  - now rewrite (sum_sizes_perm _ _ Hperm).
  - now rewrite (Permutation_length Hperm).
  - apply by_size_descending_sorted.
Qed.

(** C10.  For a map keyed by [name@version], as [resolveDependencyTree]
    builds it: the total size of the result is the self size plus the sizes
    in its dependency list, the dependency count is the length of that
    list, no entry of the list is the package itself, and the list is in
    descending order of size. *)
Theorem calculateInstallSize_consistent :
  forall (n v : string) (resolved : Obj ResolvedPackage.t),
    keyed_by_name_version resolved ->
    let r := calculateInstallSize n v resolved in
    totalSize r = selfSize r + sum_sizes (dependencies r)
    /\ dependencyCount r = Z.of_nat (List.length (dependencies r))
    /\ (forall d, In d (dependencies r) ->
          ~ (DependencySize.name d = n /\ DependencySize.version d = v))
    /\ StronglySorted (fun a b => DependencySize.size a >= DependencySize.size b)
         (dependencies r).
Proof.
  intros n v resolved Hkeyed r.
  destruct (calculateInstallSize_result n v resolved)
    as (_ & _ & Hperm & Htotal & Hcount & Hsorted).
  fold r in Hperm, Htotal, Hcount, Hsorted.
  repeat split; try assumption.
  intros d Hd [Hn Hv].
  apply (Permutation_in d Hperm) in Hd. unfold other_entries in Hd.
  apply in_map_iff in Hd. destruct Hd as ([key dep] & <- & Hin).
  apply filter_In in Hin. destruct Hin as [Hin Hkey]. simpl in *.
  apply Hkeyed in Hin. rewrite Hn, Hv in Hin. subst key.
  rewrite String.eqb_refl in Hkey. discriminate.
Qed.

Example calculateInstallSize_resolved_tree :
  calculateInstallSize "app" "2.0.0" resolved_tree
  = mkInstallSizeResult "app" "2.0.0" 1000 6000 2
      [DependencySize.mk "fsevents" "2.3.3" 4100 (Some true);
       DependencySize.mk "left-pad" "1.3.0" 900 None].
Proof. reflexivity. Qed.

Lemma calculateInstallSize_consistent_witness :
  let r := calculateInstallSize "app" "2.0.0" resolved_tree in
  totalSize r = selfSize r + sum_sizes (dependencies r)
  /\ dependencyCount r = Z.of_nat (List.length (dependencies r))
  /\ (forall d, In d (dependencies r) ->
        ~ (DependencySize.name d = "app" /\ DependencySize.version d = "2.0.0"))
  /\ StronglySorted (fun a b => DependencySize.size a >= DependencySize.size b)
       (dependencies r).
Proof.
  apply (calculateInstallSize_consistent "app" "2.0.0" resolved_tree).
  intros k e [[= <- <-]|[[= <- <-]|[[= <- <-]|[]]]]; reflexivity.
Defined.

(** * Further properties of [getComparisonVersion] and the composable *)

Lemma valid_stable_not_empty (v : string) : valid_stable v = true -> v <> "".
Proof. intros H ->. discriminate. Qed.

Lemma getComparisonVersion_Some (pkg : SlimPackument) (v r : string) :
  getComparisonVersion pkg v = Ok (Some r) ->
  r <> v /\ r <> ""
  /\ (Semver.prerelease v <> None -> latest_tag pkg = Some r)
  /\ (Semver.prerelease v = None ->
      valid_stable r = true /\ exists t, time pkg = Some t /\ In r (keys t)).
Proof.
  intros H. destruct (Semver.prerelease v) as [ids|] eqn:Hv.
  - rewrite getComparisonVersion_prerelease in H by congruence.
    destruct (latest_tag pkg) as [l|]; [|discriminate].
    unfold truthy in H. destruct (String.eqb_spec l ""); [discriminate|].
    destruct (String.eqb_spec l v); [discriminate|].
    simpl in H. injection H as <-. repeat split; auto; congruence.
  - destruct (time pkg) as [t|] eqn:Ht.
    + rewrite (getComparisonVersion_stable pkg t v Ht Hv) in H.
      injection H as H. apply predecessor_Some in H.
      destruct H as (l1 & l2 & HL & _ & Hne).
      assert (Hin : In r (filter valid_stable (keys t))).
      { eapply Permutation_in; [apply Permutation_sym, sort_perm|].
        rewrite HL. apply in_or_app. right. now left. }
      apply filter_In in Hin. destruct Hin as [Hin Hvs].
      repeat split; auto.
      * now apply valid_stable_not_empty.
      * congruence.
      * now exists t.
    + unfold getComparisonVersion, stableVersions in H.
      rewrite Hv, Ht in H. discriminate.
Qed.

(** X1.  A comparison version is never the resolved version itself and
    never the empty string; for a resolved version without prerelease
    identifiers it is a key of the time map that is a valid version without
    prerelease identifiers. *)
Theorem getComparisonVersion_never_self :
  forall (pkg : SlimPackument) (v r : string),
    getComparisonVersion pkg v = Ok (Some r) ->
    r <> v /\ r <> ""
    /\ (Semver.prerelease v = None ->
        valid_stable r = true /\ exists t, time pkg = Some t /\ In r (keys t)).
Proof.
  intros pkg v r H.
  destruct (getComparisonVersion_Some pkg v r H) as (H1 & H2 & _ & H3). auto.
Qed.

Lemma getComparisonVersion_never_self_witness :
  "1.1.0" <> "1.2.0" /\ "1.1.0" <> ""
  /\ (Semver.prerelease "1.2.0" = None ->
      valid_stable "1.1.0" = true
      /\ exists t, time three_releases = Some t /\ In "1.1.0" (keys t)).
Proof.
  apply (getComparisonVersion_never_self three_releases "1.2.0" "1.1.0").
  reflexivity.
Defined.

Lemma comparisonVersion_truthy (p : Props) (v : string) :
  comparisonVersion p = Ok (Some v) -> truthy v = true.
Proof.
  unfold comparisonVersion.
  destruct (pkg p) as [pkgVal|]; [|discriminate].
  destruct (resolvedVersion p) as [version|]; [|discriminate].
  destruct (truthy version); [|discriminate].
  intros H. apply getComparisonVersion_Some in H.
  unfold truthy. destruct H as (_ & H & _).
  now destruct (String.eqb_spec v "").
Qed.

Lemma step_client (s : State) (e : Event) : client (step s e) = client s.
Proof.
  destruct e as [p|r]; simpl; [|reflexivity].
  set (s1 := mkState (client s) (refetch_on_change s) p
               (comparisonInstallSize s) (requests s)).
  set (s2 := if client s && refetch_on_change s && request_changed (props s) p
             then fetchComparisonSize s1 else s1).
  assert (H2 : client s2 = client s).
  { subst s2. destruct (_ && _); [|reflexivity].
    now destruct (fetchComparisonSize_frame s1) as (-> & _). }
  clearbody s2.
  destruct (_ && _); [|exact H2].
  destruct (watch_callback_frame s2) as (-> & _). exact H2.
Qed.

(** X2.  On the server ([import.meta.client] false) the composable makes no
    request, whatever the inputs are and however they change. *)
Theorem server_never_fetches :
  forall (refetches : bool) (p : Props) (es : list Event),
    requests (run (setup false refetches p) es) = [].
Proof.
  intros refetches p es.
  assert (H : forall s, client s = false -> requests (run s es) = requests s).
  { induction es as [|e es IH]; intros s Hs; simpl; [reflexivity|].
    rewrite IH by (rewrite step_client; exact Hs).
    destruct e as [q|r]; simpl; [|reflexivity]. now rewrite Hs. }
  now rewrite H.
Qed.

(** X3.  On the client, the call of the composable with a resolved
    comparison version makes exactly one request, to the install-size
    endpoint of the package at that version; and a later change of the
    inputs that leaves the package name and the comparison version as they
    were makes no request. *)
Theorem client_fetches_once :
  forall (refetches : bool) (p : Props) (v : string),
    comparisonVersion p = Ok (Some v) ->
    requests (setup true refetches p) = [endpoint (packageName p) v]
    /\ forall (s : State) (q : Props),
         props s = p ->
         packageName q = packageName p ->
         comparisonVersion q = comparisonVersion p ->
         requests (step s (SetProps q)) = requests s.
Proof.
  intros refetches p v Hv. pose proof (comparisonVersion_truthy p v Hv) as Ht.
  split.
  - unfold setup, watch_callback, fetchComparisonSize, request. simpl.
    repeat (rewrite ?Hv, ?Ht; simpl). reflexivity.
  - intros s q Hs Hn Hq. simpl. rewrite Hs.
    assert (Hreq : request_changed p q = false).
    { unfold request_changed, request. rewrite Hq, Hv, Hn. simpl.
      rewrite Ht. now rewrite String.eqb_refl. }
    assert (Hsrc : sources_changed p q = false).
    { unfold sources_changed. rewrite Hq, Hv, Hn, String.eqb_refl. simpl.
      now rewrite String.eqb_refl. }
    now rewrite Hreq, Hsrc, !andb_false_r.
Qed.

Lemma client_fetches_once_witness :
  requests (setup true true size_only_props)
  = [endpoint (packageName size_only_props) "1.0.0"]
  /\ forall (s : State) (q : Props),
       props s = size_only_props ->
       packageName q = packageName size_only_props ->
       comparisonVersion q = comparisonVersion size_only_props ->
       requests (step s (SetProps q)) = requests s.
Proof.
  apply (client_fetches_once true size_only_props "1.0.0"). reflexivity.
Defined.

Lemma quarter_lt_quotient (a p : Z) :
  0 < p -> ((25 # 100 < inject_Z a / inject_Z p)%Q <-> p < 4 * a).
Proof.
  intros Hp. destruct p as [|pp|pp]; try lia.
  unfold Qlt, Qdiv, Qmult, Qinv, inject_Z. cbn [Qnum Qden].
  lia.
Qed.

(** X4.  In whole bytes: the size flag is set exactly when the previous
    total size is positive and the increase is more than a quarter of it.
    With a previous total size of zero (or less) the flag is never set,
    however large the current size is. *)
Theorem sizeThresholdExceeded_in_bytes :
  forall current previous : InstallSizeResult,
    sizeThresholdExceeded_of current previous = true <->
    0 < totalSize previous
    /\ totalSize previous < 4 * (totalSize current - totalSize previous).
Proof.
  intros c p. unfold sizeThresholdExceeded_of. rewrite Qgtb_lt.
  unfold sizeRatio_of, SIZE_INCREASE_THRESHOLD.
  destruct (Z.gtb_spec (totalSize p) 0) as [Hp|Hp].
  - rewrite quarter_lt_quotient by lia.
    split; [intros H; split; [lia|exact H]|intros [_ H]; exact H].
  - split; [intros H; unfold Qlt in H; simpl in H; lia|intros [H _]; lia].
Qed.

(** X5.  The getter produces a diff exactly when both results are present,
    the comparison version is a non-empty string, both results carry the
    requested name and their expected versions, and the size grew by more
    than a quarter of a positive previous size or more than five
    dependencies were added. *)
Theorem compute_diff_produced :
  forall (n : string) (resolved : option string)
         (current previous : option InstallSizeResult) (cv : option string),
    compute_diff n resolved current previous cv <> None <->
    exists c p v,
      current = Some c /\ previous = Some p /\ cv = Some v /\ v <> ""
      /\ version p = v /\ package p = n
      /\ resolved = Some (version c) /\ package c = n
      /\ ((0 < totalSize p /\ totalSize p < 4 * (totalSize c - totalSize p))
          \/ 5 < dependencyCount c - dependencyCount p).
Proof.
  intros n resolved current previous cv. split.
  - destruct (compute_diff n resolved current previous cv) as [d|] eqn:H;
      [intros _|congruence].
    destruct (compute_diff_Some _ _ _ _ _ _ H)
      as (c & p & v & -> & -> & -> & Hv & Hpv & Hpn & Hr & Hcn & _).
    exists c, p, v. repeat split; auto.
    destruct (compute_diff_fields _ _ _ _ _ _ H) as (_ & _ & Hs & Hd & _).
    destruct (sizeThresholdExceeded_of c p) eqn:Es.
    + left. now apply sizeThresholdExceeded_in_bytes.
    + right. destruct (depThresholdExceeded_of c p) eqn:Ed.
      * unfold depThresholdExceeded_of, depDiff_of, DEP_INCREASE_THRESHOLD in Ed.
        destruct (Z.gtb_spec (dependencyCount c - dependencyCount p) 5); [lia|discriminate].
      * exfalso. revert H. unfold compute_diff, truthy.
        destruct (String.eqb_spec v ""); [congruence|]. simpl.
        destruct (_ || _); [discriminate|]. destruct (_ || _); [discriminate|].
        rewrite Es, Ed. discriminate.
  - intros (c & p & v & -> & -> & -> & Hv & Hpv & Hpn & Hr & Hcn & Hgrow).
    unfold compute_diff, truthy.
    destruct (String.eqb_spec v ""); [congruence|]. simpl.
    rewrite Hpv, Hpn, Hr, Hcn, !String.eqb_refl. simpl.
    rewrite String.eqb_refl. simpl.
    destruct (sizeThresholdExceeded_of c p) eqn:Es; [discriminate|].
    destruct Hgrow as [Hgrow|Hgrow].
    + apply sizeThresholdExceeded_in_bytes in Hgrow. congruence.
    + unfold depThresholdExceeded_of, depDiff_of, DEP_INCREASE_THRESHOLD.
      destruct (Z.gtb_spec (dependencyCount c - dependencyCount p) 5);
        [discriminate|lia].
Qed.

(** X6.  Results computed by [calculateInstallSize] for the requested
    package at the resolved and at the comparison version always pass the
    identity checks of the diff: whether there is a diff is decided by the
    two thresholds alone. *)
Theorem diff_of_calculated_sizes :
  forall (n v cv : string) (resolved_v resolved_cv : Obj ResolvedPackage.t),
    cv <> "" ->
    let current := calculateInstallSize n v resolved_v in
    let previous := calculateInstallSize n cv resolved_cv in
    compute_diff n (Some v) (Some current) (Some previous) (Some cv) = None <->
    sizeThresholdExceeded_of current previous = false
    /\ depThresholdExceeded_of current previous = false.
Proof.
  intros n v cv r1 r2 Hcv current previous.
  unfold compute_diff, truthy.
  destruct (String.eqb_spec cv ""); [congruence|]. simpl.
  rewrite !String.eqb_refl. simpl.
  destruct (sizeThresholdExceeded_of current previous),
    (depThresholdExceeded_of current previous); simpl;
    split; try discriminate; try tauto; intros [? ?]; discriminate.
Qed.

Lemma diff_of_calculated_sizes_witness :
  let current := calculateInstallSize "app" "2.0.0" resolved_tree in
  let previous := calculateInstallSize "app" "1.9.0" [] in
  compute_diff "app" (Some "2.0.0") (Some current) (Some previous) (Some "1.9.0")
  = None <->
  sizeThresholdExceeded_of current previous = false
  /\ depThresholdExceeded_of current previous = false.
Proof.
  apply (diff_of_calculated_sizes "app" "2.0.0" "1.9.0" resolved_tree []).
  discriminate.
Defined.

(** X7.  The banner of a diff the getter produced: the heading names the
    size, the dependencies or both exactly as the flags say (the
    dependencies heading is only chosen when the dependency flag is set),
    at least one of the two lines is rendered, and the separator is
    rendered exactly when both are. *)
Theorem banner_matches_flags :
  forall (n : string) (resolved : option string)
         (current previous : option InstallSizeResult) (cv : option string)
         (d : InstallSizeDiff.t),
    compute_diff n resolved current previous cv = Some d ->
    (banner_title d = title_both <->
       banner_size_line d = true /\ banner_deps_line d = true)
    /\ (banner_title d = title_size <->
          banner_size_line d = true /\ banner_deps_line d = false)
    /\ (banner_title d = title_deps <->
          banner_size_line d = false /\ banner_deps_line d = true)
    /\ (banner_size_line d = true \/ banner_deps_line d = true)
    /\ banner_separator d = banner_size_line d && banner_deps_line d.
Proof.
  intros n resolved current previous cv d H.
  assert (Hflag : InstallSizeDiff.sizeThresholdExceeded d = true
                  \/ InstallSizeDiff.depThresholdExceeded d = true).
  { destruct (compute_diff_Some _ _ _ _ _ _ H) as (c & p & v & -> & -> & -> & _).
    destruct (compute_diff_fields _ _ _ _ _ _ H) as (_ & _ & Hs & Hd & _).
    rewrite Hs, Hd.
    destruct (sizeThresholdExceeded_of c p) eqn:Es; [now left|].
    destruct (depThresholdExceeded_of c p) eqn:Ed; [now right|].
    exfalso. revert H. unfold compute_diff.
    destruct (negb (truthy v)); [discriminate|].
    destruct (_ || _); [discriminate|]. destruct (_ || _); [discriminate|].
    rewrite Es, Ed. discriminate. }
  unfold banner_title, banner_size_line, banner_deps_line, banner_separator.
  destruct (InstallSizeDiff.sizeThresholdExceeded d),
    (InstallSizeDiff.depThresholdExceeded d); simpl;
    repeat split; try discriminate; try tauto;
    try (intros [? ?]; discriminate);
    destruct Hflag; discriminate.
Qed.

Lemma banner_matches_flags_witness :
  let d := InstallSizeDiff.mk "1.0.0" (inject_Z 100 / inject_Z 5000)%Q
             100 5100 5000 7 10 3 false true in
  (banner_title d = title_both <->
     banner_size_line d = true /\ banner_deps_line d = true)
  /\ (banner_title d = title_size <->
        banner_size_line d = true /\ banner_deps_line d = false)
  /\ (banner_title d = title_deps <->
        banner_size_line d = false /\ banner_deps_line d = true)
  /\ (banner_size_line d = true \/ banner_deps_line d = true)
  /\ banner_separator d = banner_size_line d && banner_deps_line d.
Proof.
  apply (banner_matches_flags "pkg-deps-only" (Some "1.1.0")
           (Some (createInstallSize "pkg-deps-only" "1.1.0" 5100 10))
           (Some (createInstallSize "pkg-deps-only" "1.0.0" 5000 3))
           (Some "1.0.0")).
  reflexivity.
Defined.

(** * Further properties of [calculateInstallSize] *)

Lemma get_In (V : Type) (o : Obj V) (k : string) (v : V) :
  get o k = Some v -> In (k, v) o.
Proof.
  induction o as [|[k' v'] o IH]; simpl; [discriminate|].
  destruct (String.eqb_spec k' k) as [->|Hne].
  - intros [= ->]. now left.
  - intros H. right. now apply IH.
Qed.

Lemma get_None (V : Type) (o : Obj V) (k : string) :
  get o k = None <-> ~ In k (keys o).
Proof.
  induction o as [|[k' v'] o IH]; simpl; [tauto|].
  destruct (String.eqb_spec k' k) as [->|Hne].
  - split; [discriminate|]. intros H. exfalso. apply H. now left.
  - rewrite IH. split; [intros H [H'|H']; congruence|tauto].
Qed.

Lemma In_get (V : Type) (o : Obj V) (k : string) (v : V) :
  NoDup (keys o) -> In (k, v) o -> get o k = Some v.
Proof.
  induction o as [|[k' v'] o IH]; simpl; [tauto|].
  intros Hnd Hin. inversion Hnd as [|? ? Hnot Hnd']; subst.
  destruct (String.eqb_spec k' k) as [->|Hne].
  - destruct Hin as [[= ->]|Hin]; [reflexivity|].
    exfalso. apply Hnot. apply in_map_iff. now exists (k, v).
  - destruct Hin as [[= -> ->]|Hin]; [congruence|]. now apply IH.
Qed.

Lemma other_entries_absent (self : string) (resolved : Obj ResolvedPackage.t) :
  ~ In self (keys resolved) ->
  other_entries self resolved = map (fun entry => to_dependency (snd entry)) resolved.
Proof.
  unfold other_entries. induction resolved as [|[k e] resolved IH]; simpl;
    [reflexivity|].
  intros H. destruct (String.eqb_spec k self) as [->|Hne]; [tauto|].
  simpl. f_equal. apply IH. tauto.
Qed.

Lemma sum_sizes_map (resolved : Obj ResolvedPackage.t) :
  sum_sizes (map (fun entry => to_dependency (snd entry)) resolved)
  = sum_resolved resolved.
Proof.
  induction resolved as [|[k e] resolved IH]; simpl; [reflexivity|].
  now rewrite IH.
Qed.

Lemma other_entries_cons (self k : string) (e : ResolvedPackage.t)
    (resolved : Obj ResolvedPackage.t) :
  other_entries self ((k, e) :: resolved)
  = if String.eqb k self then other_entries self resolved
    else to_dependency e :: other_entries self resolved.
Proof. unfold other_entries. simpl. now destruct (String.eqb k self). Qed.

(** With distinct keys, the self entry is the one entry the loop skips. *)
Lemma other_entries_self (self : string) (resolved : Obj ResolvedPackage.t) :
  NoDup (keys resolved) ->
  Z.of_nat (List.length (other_entries self resolved))
  + (if has_key resolved self then 1 else 0)
  = Z.of_nat (List.length resolved)
  /\ sum_sizes (other_entries self resolved)
     + match get resolved self with
       | Some selfEntry => ResolvedPackage.size selfEntry
       | None => 0
       end
     = sum_resolved resolved.
Proof.
  unfold has_key.
  induction resolved as [|[k e] resolved IH]; intros Hnd; [split; reflexivity|].
  inversion Hnd as [|? ? Hnot Hnd']; subst.
  rewrite other_entries_cons. cbn [get List.length sum_resolved fold_right snd].
  fold (sum_resolved resolved). rewrite Nat2Z.inj_succ.
  destruct (String.eqb_spec k self) as [->|Hne].
  - rewrite (other_entries_absent self resolved Hnot), length_map, sum_sizes_map.
    cbn [is_null negb]. split; lia.
  - destruct (IH Hnd') as [IH1 IH2].
    cbn [List.length sum_sizes fold_right to_dependency DependencySize.size].
    fold (sum_sizes (other_entries self resolved)). rewrite Nat2Z.inj_succ.
    split; lia.
Qed.

(** X8.  For a map with distinct keys (a [Map]): the dependency count is
    the number of entries, less one when the package itself is among them;
    the self size is zero when it is not; and the total size is the sum of
    the sizes of all entries. *)
Theorem calculateInstallSize_counts_all_entries :
  forall (n v : string) (resolved : Obj ResolvedPackage.t),
    NoDup (keys resolved) ->
    let r := calculateInstallSize n v resolved in
    dependencyCount r + (if has_key resolved (selfKey n v) then 1 else 0)
    = Z.of_nat (List.length resolved)
    /\ (has_key resolved (selfKey n v) = false -> selfSize r = 0)
    /\ totalSize r = sum_resolved resolved.
Proof.
  intros n v resolved Hnd r.
  destruct (other_entries_self (selfKey n v) resolved Hnd) as [Hlen Hsum].
  destruct (loop_result (selfKey n v) resolved
              (mkAcc [] (selfSize r) 0)) as (_ & Ht & Hc).
  subst r. unfold calculateInstallSize in *. cbn [selfSize totalSize dependencyCount] in *.
  cbn [acc_totalSize acc_dependencyCount] in Ht, Hc.
  rewrite Ht, Hc. repeat split; try lia.
  unfold has_key. now destruct (get resolved (selfKey n v)).
Qed.

Lemma calculateInstallSize_counts_all_entries_witness :
  let r := calculateInstallSize "app" "2.0.0" resolved_tree in
  dependencyCount r + (if has_key resolved_tree (selfKey "app" "2.0.0") then 1 else 0)
  = Z.of_nat (List.length resolved_tree)
  /\ (has_key resolved_tree (selfKey "app" "2.0.0") = false -> selfSize r = 0)
  /\ totalSize r = sum_resolved resolved_tree.
Proof.
  apply (calculateInstallSize_counts_all_entries "app" "2.0.0" resolved_tree).
  repeat constructor; simpl; intuition discriminate.
Defined.

Lemma other_entries_In (self : string) (resolved : Obj ResolvedPackage.t)
    (d : DependencySize.t) :
  In d (other_entries self resolved) ->
  exists k e, In (k, e) resolved /\ k <> self /\ d = to_dependency e.
Proof.
  unfold other_entries. intros H. apply in_map_iff in H.
  destruct H as ([k e] & <- & H). apply filter_In in H. destruct H as [H Hk].
  exists k, e. simpl in *. repeat split; auto.
  intros ->. rewrite String.eqb_refl in Hk. discriminate.
Qed.

Lemma sum_sizes_bound (l : list DependencySize.t) :
  Forall (fun d => 0 <= DependencySize.size d) l ->
  0 <= sum_sizes l
  /\ forall d, In d l -> DependencySize.size d <= sum_sizes l.
Proof.
  induction 1 as [|x l Hx Hl [IH1 IH2]]; simpl; [split; [lia|tauto]|].
  split; [lia|]. intros d [<-|Hd]; [lia|]. specialize (IH2 d Hd). lia.
Qed.

(** X9.  When no entry has a negative size: the self size is between zero
    and the total size, every listed dependency has a size between zero and
    the total size less the self size, and the dependency count is not
    negative. *)
Theorem calculateInstallSize_bounds :
  forall (n v : string) (resolved : Obj ResolvedPackage.t),
    (forall k e, In (k, e) resolved -> 0 <= ResolvedPackage.size e) ->
    let r := calculateInstallSize n v resolved in
    0 <= selfSize r <= totalSize r
    /\ 0 <= dependencyCount r
    /\ forall d, In d (dependencies r) ->
         0 <= DependencySize.size d <= totalSize r - selfSize r.
Proof.
  intros n v resolved Hpos r.
  destruct (calculateInstallSize_result n v resolved)
    as (_ & _ & Hperm & Htotal & Hcount & _).
  fold r in Hperm, Htotal, Hcount.
  assert (Hdeps : Forall (fun d => 0 <= DependencySize.size d) (dependencies r)).
  { apply Forall_forall. intros d Hd.
    apply (Permutation_in d Hperm) in Hd.
    destruct (other_entries_In _ _ _ Hd) as (k & e & Hin & _ & ->).
    simpl. now apply (Hpos k e). }
  destruct (sum_sizes_bound _ Hdeps) as [Hsum Heach].
  assert (Hself : 0 <= selfSize r).
  { subst r. unfold calculateInstallSize. cbn [selfSize].
    destruct (get resolved (selfKey n v)) as [e|] eqn:He; [|lia].
    apply (Hpos (selfKey n v) e). now apply get_In. }
  repeat split; try lia.
  - rewrite Forall_forall in Hdeps. now apply Hdeps.
  - specialize (Heach d H). lia.
Qed.

Lemma calculateInstallSize_bounds_witness :
  let r := calculateInstallSize "app" "2.0.0" resolved_tree in
  0 <= selfSize r <= totalSize r
  /\ 0 <= dependencyCount r
  /\ forall d, In d (dependencies r) ->
       0 <= DependencySize.size d <= totalSize r - selfSize r.
Proof.
  apply (calculateInstallSize_bounds "app" "2.0.0" resolved_tree).
  simpl. intros k e [[= <- <-]|[[= <- <-]|[[= <- <-]|[]]]]; simpl; lia.
Defined.

Lemma get_perm (V : Type) (o o' : Obj V) (k : string) :
  NoDup (keys o) -> Permutation o o' -> get o k = get o' k.
Proof.
  intros Hnd Hperm.
  assert (Hnd' : NoDup (keys o')).
  { eapply Permutation_NoDup; [|exact Hnd]. now apply Permutation_map. }
  destruct (get o k) as [v|] eqn:H.
  - symmetry. apply In_get; [exact Hnd'|].
    eapply Permutation_in; [exact Hperm|]. now apply get_In.
  - symmetry. apply get_None. apply get_None in H. intros Hin. apply H.
    eapply Permutation_in; [|exact Hin].
    apply Permutation_sym. now apply Permutation_map.
Qed.

(** X10.  The result does not depend on the order in which the map
    enumerates its entries: for two enumerations of the same entries (with
    distinct keys), the self size, the total size and the dependency count
    are equal and the dependency lists hold the same entries. *)
Theorem calculateInstallSize_order_independent :
  forall (n v : string) (resolved resolved' : Obj ResolvedPackage.t),
    NoDup (keys resolved) ->
    Permutation resolved resolved' ->
    let r := calculateInstallSize n v resolved in
    let r' := calculateInstallSize n v resolved' in
    selfSize r = selfSize r'
    /\ totalSize r = totalSize r'
    /\ dependencyCount r = dependencyCount r'
    /\ Permutation (dependencies r) (dependencies r').
Proof.
  intros n v resolved resolved' Hnd Hperm r r'.
  destruct (calculateInstallSize_result n v resolved)
    as (_ & _ & Hp & Ht & Hc & _).
  destruct (calculateInstallSize_result n v resolved')
    as (_ & _ & Hp' & Ht' & Hc' & _).
  fold r in Hp, Ht, Hc. fold r' in Hp', Ht', Hc'.
  assert (Hself : selfSize r = selfSize r').
  { subst r r'. unfold calculateInstallSize. cbn [selfSize].
    now rewrite (get_perm _ resolved resolved' (selfKey n v) Hnd Hperm). }
  assert (Hdeps : Permutation (dependencies r) (dependencies r')).
  { eapply perm_trans; [exact Hp|].
    eapply perm_trans; [|apply Permutation_sym; exact Hp'].
    unfold other_entries. apply Permutation_map.
    clear -Hperm. induction Hperm; simpl.
    - constructor.
    - destruct (negb _); [now constructor|assumption].
    - destruct (negb _), (negb _); try apply Permutation_refl. apply perm_swap.
    - eapply perm_trans; eassumption. }
  repeat split; auto.
  - rewrite Ht, Ht', Hself. f_equal. now apply sum_sizes_perm.
  - rewrite Hc, Hc'. f_equal. now apply Permutation_length.
Qed.

Lemma calculateInstallSize_order_independent_witness :
  let r := calculateInstallSize "app" "2.0.0" resolved_tree in
  let r' := calculateInstallSize "app" "2.0.0" (rev resolved_tree) in
  selfSize r = selfSize r'
  /\ totalSize r = totalSize r'
  /\ dependencyCount r = dependencyCount r'
  /\ Permutation (dependencies r) (dependencies r').
Proof.
  apply (calculateInstallSize_order_independent "app" "2.0.0"
           resolved_tree (rev resolved_tree)).
  - repeat constructor; simpl; intuition discriminate.
  - apply Permutation_rev.
Defined.

(** * The package page *)

Lemma append_assoc (a b c : string) : ((a ++ b) ++ c = a ++ (b ++ c))%string.
Proof. induction a as [|x a IH]; simpl; [reflexivity|]. now rewrite IH. Qed.

Lemma append_nil_r (a : string) : (a ++ "")%string = a.
Proof. induction a as [|x a IH]; simpl; [reflexivity|]. now rewrite IH. Qed.

Lemma length_append (a b : string) :
  String.length (a ++ b) = (String.length a + String.length b)%nat.
Proof. induction a as [|x a IH]; simpl; [reflexivity|]. now rewrite IH. Qed.

Lemma strip_prefix_Some (pre s rest : string) :
  strip_prefix pre s = Some rest <-> s = (pre ++ rest)%string.
Proof.
  revert s. induction pre as [|a pre IH]; intros s; simpl.
  - split; congruence.
  - destruct s as [|b s]; [split; discriminate|].
    destruct (Ascii.eqb_spec a b) as [->|Hne].
    + rewrite IH. split; congruence.
    + split; [discriminate|congruence].
Qed.

Lemma strip_suffix_Some (suf s front : string) :
  strip_suffix suf s = Some front <-> s = (front ++ suf)%string.
Proof.
  revert front. induction s as [|c s IH]; intros front.
  - cbn [strip_suffix]. destruct (String.eqb_spec "" suf) as [<-|Hne].
    + split; [intros [= <-]; reflexivity|].
      destruct front; [reflexivity|discriminate].
    + split; [discriminate|]. destruct front; simpl; [congruence|discriminate].
  - cbn [strip_suffix]. destruct (String.eqb_spec (String c s) suf) as [<-|Hne].
    + split; [intros [= <-]; reflexivity|].
      intros H. apply (f_equal String.length) in H.
      rewrite length_append in H. destruct front; [reflexivity|simpl in H; lia].
    + destruct (strip_suffix suf s) as [r|] eqn:Hr.
      * assert (Hs : s = (r ++ suf)%string) by (now apply IH).
        split.
        -- intros [= <-]. simpl. now rewrite <- Hs.
        -- destruct front as [|x front]; simpl; [congruence|].
           intros [= -> H]. apply IH in H. congruence.
      * split; [discriminate|].
        destruct front as [|x front]; simpl; [congruence|].
        intros [= -> H]. apply IH in H. discriminate.
Qed.

Lemma strip_prefix_append (pre s t rest : string) :
  strip_prefix pre s = Some rest ->
  strip_prefix pre (s ++ t) = Some (rest ++ t)%string.
Proof.
  rewrite !strip_prefix_Some. intros ->. apply append_assoc.
Qed.

Lemma remove_suffix_keeps_prefix (pre suf s : string) :
  strip_prefix pre (remove_suffix suf s) <> None -> strip_prefix pre s <> None.
Proof.
  unfold remove_suffix. destruct (strip_suffix suf s) as [front|] eqn:H; [|auto].
  apply strip_suffix_Some in H. subst s.
  destruct (strip_prefix pre front) as [rest|] eqn:Hp; [|congruence].
  intros _. now rewrite (strip_prefix_append pre front suf rest Hp).
Qed.

(** X11.  [normalizeGitUrl] never returns a URL of the [git://] protocol. *)
Theorem normalizeGitUrl_never_git_protocol :
  forall url : string, strip_prefix "git://" (normalizeGitUrl url) = None.
Proof.
  intros url. unfold normalizeGitUrl.
  set (s1 := replace_prefix "git+" "" url).
  set (s2 := replace_prefix "git://" "https://" s1).
  assert (H2 : strip_prefix "git://" s2 = None).
  { subst s2. unfold replace_prefix.
    destruct (strip_prefix "git://" s1) eqn:H; [reflexivity|exact H]. }
  set (s3 := remove_suffix ".git" s2).
  assert (H3 : strip_prefix "git://" s3 = None).
  { destruct (strip_prefix "git://" s3) eqn:H; [|reflexivity].
    exfalso.
    apply (remove_suffix_keeps_prefix "git://" ".git" s2);
      [fold s3; congruence|exact H2]. }
  set (s4 := replace_prefix "ssh://git@github.com" "https://github.com" s3).
  assert (H4 : strip_prefix "git://" s4 = None).
  { subst s4. unfold replace_prefix.
    destruct (strip_prefix "ssh://git@github.com" s3); [reflexivity|exact H3]. }
  unfold replace_prefix.
  destruct (strip_prefix "git@github.com:" s4); [reflexivity|exact H4].
Qed.

Lemma remove_suffix_append (front suf : string) :
  remove_suffix suf (front ++ suf) = front.
Proof.
  unfold remove_suffix.
  now rewrite (proj2 (strip_suffix_Some suf (front ++ suf) front) eq_refl).
Qed.

(** X12.  The forms a [repository.url] usually takes, for every path [p]:
    [git+https://p.git] and [git://p.git] become [https://p], and the two
    SSH forms of a GitHub repository become [https://github.com/p]. *)
Theorem normalizeGitUrl_known_forms :
  forall p : string,
    normalizeGitUrl ("git+https://" ++ p ++ ".git") = ("https://" ++ p)%string
    /\ normalizeGitUrl ("git://" ++ p ++ ".git") = ("https://" ++ p)%string
    /\ normalizeGitUrl ("git@github.com:" ++ p ++ ".git")
       = ("https://github.com/" ++ p)%string
    /\ normalizeGitUrl ("git+ssh://git@github.com/" ++ p ++ ".git")
       = ("https://github.com/" ++ p)%string.
Proof.
  intros p. unfold normalizeGitUrl. repeat split.
  - change (replace_prefix "git+" "" ("git+https://" ++ p ++ ".git"))
      with ("https://" ++ p ++ ".git")%string.
    change (replace_prefix "git://" "https://" ("https://" ++ p ++ ".git"))
      with ("https://" ++ p ++ ".git")%string.
    rewrite <- append_assoc, remove_suffix_append. reflexivity.
  - change (replace_prefix "git+" "" ("git://" ++ p ++ ".git"))
      with ("git://" ++ p ++ ".git")%string.
    change (replace_prefix "git://" "https://" ("git://" ++ p ++ ".git"))
      with ("https://" ++ p ++ ".git")%string.
    rewrite <- append_assoc, remove_suffix_append. reflexivity.
  - change (replace_prefix "git+" "" ("git@github.com:" ++ p ++ ".git"))
      with ("git@github.com:" ++ p ++ ".git")%string.
    change (replace_prefix "git://" "https://" ("git@github.com:" ++ p ++ ".git"))
      with ("git@github.com:" ++ p ++ ".git")%string.
    rewrite <- append_assoc, remove_suffix_append. reflexivity.
  - change (replace_prefix "git+" "" ("git+ssh://git@github.com/" ++ p ++ ".git"))
      with ("ssh://git@github.com/" ++ p ++ ".git")%string.
    change (replace_prefix "git://" "https://" ("ssh://git@github.com/" ++ p ++ ".git"))
      with ("ssh://git@github.com/" ++ p ++ ".git")%string.
    rewrite <- append_assoc, remove_suffix_append. reflexivity.
Qed.

(** X13.  A URL that is already an [https://] URL and does not end in
    [.git] is returned as it is. *)
Theorem normalizeGitUrl_fixes_https :
  forall url : string,
    strip_prefix "https://" url <> None ->
    strip_suffix ".git" url = None ->
    normalizeGitUrl url = url.
Proof.
  intros url Hp Hs.
  destruct (strip_prefix "https://" url) as [rest|] eqn:H; [|congruence].
  apply strip_prefix_Some in H. subst url.
  unfold normalizeGitUrl.
  change (replace_prefix "git+" "" ("https://" ++ rest))
    with ("https://" ++ rest)%string.
  change (replace_prefix "git://" "https://" ("https://" ++ rest))
    with ("https://" ++ rest)%string.
  unfold remove_suffix. rewrite Hs. reflexivity.
Qed.

Lemma normalizeGitUrl_fixes_https_witness :
  normalizeGitUrl "https://github.com/npmx-dev/npmx.dev"
  = "https://github.com/npmx-dev/npmx.dev".
Proof.
  apply normalizeGitUrl_fixes_https.
  - simpl. discriminate.
  - reflexivity.
Defined.

Lemma list_ascii_of_string_app (a b : string) :
  list_ascii_of_string (a ++ b)
  = (list_ascii_of_string a ++ list_ascii_of_string b)%list.
Proof. induction a as [|x a IH]; simpl; [reflexivity|]. now rewrite IH. Qed.

Lemma split_on_without (sep : ascii) (l : list ascii) :
  forallb (fun x => negb (Ascii.eqb x sep)) l = true ->
  Semver.split_on sep l = [l].
Proof.
  induction l as [|c l IH]; simpl; [reflexivity|].
  destruct (Ascii.eqb c sep); simpl; [discriminate|].
  intros H. now rewrite (IH H).
Qed.

Lemma split_on_app (sep : ascii) (a b : list ascii) :
  forallb (fun x => negb (Ascii.eqb x sep)) a = true ->
  Semver.split_on sep (a ++ sep :: b) = a :: Semver.split_on sep b.
Proof.
  induction a as [|c a IH]; simpl.
  - intros _. now rewrite Ascii.eqb_refl.
  - destruct (Ascii.eqb c sep); simpl; [discriminate|].
    intros H. now rewrite (IH H).
Qed.

(** X14.  [codeLink] on a package name: a scoped name [org/name] is split
    into its organisation and its name, and a name without a slash has no
    organisation and is the package name itself; the version is the
    resolved version and the file path is empty. *)
Theorem codeLink_splits_scope :
  forall o p v : string,
    without_char "/" o = true ->
    without_char "/" p = true ->
    codeLink (Some (o ++ "/" ++ p)) (Some v) = Some (CodeLink.mk (Some o) p v "")
    /\ codeLink (Some p) (Some v) = Some (CodeLink.mk None p v "").
Proof.
  intros o p v Ho Hp. unfold codeLink, js_split, without_char in *. split.
  - rewrite list_ascii_of_string_app. simpl list_ascii_of_string.
    rewrite (split_on_app "/"%char _ _ Ho), (split_on_without "/"%char _ Hp).
    simpl. now rewrite !string_of_list_ascii_of_string.
  - rewrite (split_on_without "/"%char _ Hp). simpl.
    now rewrite string_of_list_ascii_of_string.
Qed.

Lemma codeLink_splits_scope_witness :
  codeLink (Some ("@nuxt" ++ "/" ++ "kit")%string) (Some "3.0.0")
  = Some (CodeLink.mk (Some "@nuxt") "kit" "3.0.0" "")
  /\ codeLink (Some "kit") (Some "3.0.0") = Some (CodeLink.mk None "kit" "3.0.0" "").
Proof.
  apply (codeLink_splits_scope "@nuxt" "kit" "3.0.0"); reflexivity.
Defined.

Lemma like_lock_step (s : Likes.State) (e : Likes.Event) :
  like_lock s -> like_lock (Likes.step s e).
Proof.
  unfold like_lock. intros H. destruct e as [|i o|h|d]; simpl; try exact H.
  - unfold Likes.click. destruct (Likes.handle s); [|exact H].
    destruct H as [[Hp Hl]|[Hp Hl]]; rewrite Hp.
    + left. now split.
    + left. simpl. rewrite Hl. split; reflexivity.
  - unfold Likes.settle.
    destruct (nth_error (Likes.inflight s) i) as [k|] eqn:Hk; [|exact H].
    right. simpl. split; [reflexivity|].
    destruct H as [[_ H]|[_ H]].
    + destruct (Likes.inflight s) as [|k0 [|k1 l]]; try discriminate.
      destruct i as [|i]; [reflexivity|]. simpl in Hk. now destruct i.
    + rewrite H in Hk. now destruct i.
Qed.

Lemma like_lock_run (es : list Likes.Event) :
  forall s, like_lock s -> like_lock (Likes.run s es).
Proof.
  induction es as [|e es IH]; intros s H; simpl; [exact H|].
  apply IH. now apply like_lock_step.
Qed.

(** X15.  From the set-up of the page, whatever the user clicks and however
    the calls end: at most one call of [togglePackageLike] has not ended,
    and while one has not, a click makes no further call and leaves the
    likes as they are. *)
Theorem likeAction_one_at_a_time :
  forall (h : option string) (d : option Likes.LikesData) (es : list Likes.Event),
    let s := Likes.run (Likes.initial h d) es in
    (List.length (Likes.inflight s) <= 1)%nat
    /\ (Likes.inflight s <> [] ->
        Likes.toggles (Likes.click s) = Likes.toggles s
        /\ Likes.likesData (Likes.click s) = Likes.likesData s
        /\ Likes.inflight (Likes.click s) = Likes.inflight s).
Proof.
  intros h d es s.
  assert (H : like_lock s).
  { apply like_lock_run. right. split; reflexivity. }
  destruct H as [[Hp Hl]|[Hp Hl]].
  - split; [lia|]. intros _. unfold Likes.click.
    destruct (Likes.handle s); [|repeat split]. rewrite Hp. repeat split.
  - rewrite Hl. split; [simpl; lia|]. intros H. congruence.
Qed.

(** X16.  The optimistic update and its revert: a click of a signed-in user
    with nothing pending moves the count by one, up when the package was
    not liked and down when it was, and flips the flag; when the call then
    fails or throws, the likes shown before the click are back and the
    pending flag is cleared. *)
Theorem likeAction_reverts_on_failure :
  forall (s : Likes.State) (h : string) (d : Likes.LikesData) (o : Likes.Outcome),
    Likes.handle s = Some h ->
    Likes.isLikeActionPending s = false ->
    Likes.inflight s = [] ->
    Likes.likesData s = Some d ->
    o = Likes.Failed \/ o = Likes.Threw ->
    Likes.likesData (Likes.click s)
    = Some (Likes.mkLikesData
              (if Likes.userHasLiked d then Likes.totalLikes d - 1
               else Likes.totalLikes d + 1)
              (negb (Likes.userHasLiked d)))
    /\ Likes.toggles (Likes.click s) = (Likes.userHasLiked d, h) :: Likes.toggles s
    /\ Likes.likesData (Likes.settle 0 o (Likes.click s)) = Some d
    /\ Likes.isLikeActionPending (Likes.settle 0 o (Likes.click s)) = false
    /\ Likes.inflight (Likes.settle 0 o (Likes.click s)) = [].
Proof.
  intros s h d o Hh Hp Hi Hd Ho.
  unfold Likes.settle, Likes.click. rewrite Hh, Hp, Hd, Hi. simpl.
  destruct d as [likes liked].
  destruct Ho as [-> | ->]; simpl; repeat split.
Qed.

Lemma likeAction_reverts_on_failure_witness :
  let s := Likes.initial (Some "alice.test") (Some (Likes.mkLikesData 41 false)) in
  Likes.likesData (Likes.click s) = Some (Likes.mkLikesData 42 true)
  /\ Likes.toggles (Likes.click s) = (false, "alice.test") :: Likes.toggles s
  /\ Likes.likesData (Likes.settle 0 Likes.Threw (Likes.click s))
     = Some (Likes.mkLikesData 41 false)
  /\ Likes.isLikeActionPending (Likes.settle 0 Likes.Threw (Likes.click s)) = false
  /\ Likes.inflight (Likes.settle 0 Likes.Threw (Likes.click s)) = [].
Proof.
  apply (likeAction_reverts_on_failure
           (Likes.initial (Some "alice.test") (Some (Likes.mkLikesData 41 false)))
           "alice.test" (Likes.mkLikesData 41 false) Likes.Threw);
    try reflexivity.
  now right.
Defined.

(** * [CollapsibleSection] *)

Lemma filter_neq_not_In (id : string) (l : list string) :
  ~ In id (filter (fun c => negb (String.eqb c id)) l).
Proof.
  intros H. apply filter_In in H. destruct H as [_ H].
  rewrite String.eqb_refl in H. discriminate.
Qed.

Lemma filter_neq_id (id : string) (l : list string) :
  ~ In id l -> filter (fun c => negb (String.eqb c id)) l = l.
Proof.
  induction l as [|x l IH]; simpl; [reflexivity|].
  intros H. destruct (String.eqb_spec x id) as [->|Hne]; [tauto|].
  simpl. f_equal. apply IH. tauto.
Qed.

(** X17.  After [toggle], the section is in the list of collapsed sections
    exactly when it is closed, and it is there once; the other sections
    stay in the list as they were, in their order. *)
Theorem toggle_keeps_list_in_step :
  forall (id : string) (s : Collapsible.State),
    let s' := Collapsible.toggle id s in
    Collapsible.isOpen s' = negb (Collapsible.isOpen s)
    /\ (In id (Collapsible.collapsed s') <-> Collapsible.isOpen s' = false)
    /\ count_occ string_dec (Collapsible.collapsed s') id
       = (if Collapsible.isOpen s' then 0 else 1)%nat
    /\ filter (fun c => negb (String.eqb c id)) (Collapsible.collapsed s')
       = filter (fun c => negb (String.eqb c id)) (Collapsible.collapsed s)
    /\ Collapsible.dataset_collapsed s'
       = Some (String.concat " " (Collapsible.collapsed s')).
Proof.
  intros id s. unfold Collapsible.toggle. cbn zeta. simpl.
  set (removed := filter (fun c => negb (String.eqb c id)) (Collapsible.collapsed s)).
  assert (Hnot : ~ In id removed) by apply filter_neq_not_In.
  assert (Hcount : count_occ string_dec removed id = 0%nat)
    by (now apply count_occ_not_In).
  destruct (Collapsible.isOpen s); simpl; repeat split; auto.
  - intros _. apply in_or_app. right. now left.
  - rewrite count_occ_app, Hcount. simpl. now destruct (string_dec id id).
  - rewrite filter_app. simpl. rewrite String.eqb_refl. simpl.
    rewrite app_nil_r. subst removed. now rewrite filter_neq_id by assumption.
  - intros H. tauto.
  - discriminate.
  - subst removed. now rewrite filter_neq_id by apply filter_neq_not_In.
Qed.

(** X18.  Closing an open section that is not in the list and opening it
    again gives back the open flag and the list as they were. *)
Theorem toggle_twice :
  forall (id : string) (s : Collapsible.State),
    Collapsible.isOpen s = true ->
    ~ In id (Collapsible.collapsed s) ->
    let s'' := Collapsible.toggle id (Collapsible.toggle id s) in
    Collapsible.isOpen s'' = Collapsible.isOpen s
    /\ Collapsible.collapsed s'' = Collapsible.collapsed s.
Proof.
  intros id s Ho Hn. unfold Collapsible.toggle. cbn zeta. simpl.
  rewrite Ho. simpl. split; [reflexivity|].
  rewrite filter_app. simpl. rewrite String.eqb_refl. simpl.
  rewrite app_nil_r, !filter_neq_id; auto. apply filter_neq_not_In.
Qed.

Lemma toggle_twice_witness :
  let s := Collapsible.mkState true ["readme"; "install"] None in
  let s'' := Collapsible.toggle "versions" (Collapsible.toggle "versions" s) in
  Collapsible.isOpen s'' = Collapsible.isOpen s
  /\ Collapsible.collapsed s'' = Collapsible.collapsed s.
Proof.
  apply (toggle_twice "versions" (Collapsible.mkState true ["readme"; "install"] None)).
  - reflexivity.
  - simpl. intuition discriminate.
Defined.

Lemma concat_cons (sep x : string) (l : list string) :
  String.concat sep (x :: l)
  = match l with
    | [] => x
    | _ :: _ => (x ++ sep ++ String.concat sep l)%string
    end.
Proof. destruct l; reflexivity. Qed.

(** [split] undoes [join] on a list that is not empty, when no element
    holds the separator. *)
Lemma js_split_concat (l : list string) :
  l <> [] ->
  Forall (fun x => without_char " " x = true) l ->
  js_split " "%char (String.concat " " l) = l.
Proof.
  unfold js_split, without_char.
  induction l as [|x l IH]; [congruence|]. intros _ H.
  inversion H as [|? ? Hx Hl]; subst. rewrite concat_cons.
  destruct l as [|y l].
  - rewrite (split_on_without " "%char _ Hx). simpl.
    now rewrite string_of_list_ascii_of_string.
  - rewrite list_ascii_of_string_app.
    change (list_ascii_of_string (" " ++ String.concat " " (y :: l)))
      with (" "%char :: list_ascii_of_string (String.concat " " (y :: l))).
    rewrite (split_on_app " "%char _ _ Hx). simpl map.
    rewrite string_of_list_ascii_of_string. f_equal.
    apply IH; [discriminate|exact Hl].
Qed.

Lemma includes_In (l : list string) (x : string) :
  Collapsible.includes l x = true <-> In x l.
Proof.
  unfold Collapsible.includes. rewrite existsb_exists. split.
  - intros (y & Hy & H). apply String.eqb_eq in H. now subst.
  - intros H. exists x. split; [exact H|apply String.eqb_refl].
Qed.

(** X19.  What [toggle] writes to the document, [onMounted] reads back:
    when no identifier in the list holds a space and the section's own is
    not empty, a section mounted after the toggle of any section is open
    exactly when it is not in the list of collapsed sections; so the
    toggled section comes back as the toggle left it. *)
Theorem toggle_then_mount :
  forall (id other : string) (s : Collapsible.State),
    Forall (fun x => without_char " " x = true) (Collapsible.collapsed s) ->
    without_char " " id = true ->
    other <> "" ->
    let s' := Collapsible.toggle id s in
    (Collapsible.isOpen (Collapsible.onMounted other s') = true <->
       ~ In other (Collapsible.collapsed s'))
    /\ (id <> "" ->
        Collapsible.isOpen (Collapsible.onMounted id s') = Collapsible.isOpen s').
Proof.
  intros id other s Hall Hid Hother s'.
  assert (Hall' : Forall (fun x => without_char " " x = true)
                    (Collapsible.collapsed s')).
  { subst s'. unfold Collapsible.toggle. simpl.
    assert (Hr : Forall (fun x => without_char " " x = true)
                   (filter (fun c => negb (String.eqb c id)) (Collapsible.collapsed s))).
    { rewrite Forall_forall in *. intros x Hx. apply Hall.
      now apply filter_In in Hx. }
    destruct (negb (Collapsible.isOpen s)); [exact Hr|].
    apply Forall_app. split; [exact Hr|]. now constructor. }
  assert (Hread : forall x, x <> "" ->
            (Collapsible.isOpen (Collapsible.onMounted x s') = true <->
               ~ In x (Collapsible.collapsed s'))).
  { intros x Hx. unfold Collapsible.onMounted. cbn [Collapsible.isOpen].
    replace (Collapsible.dataset_collapsed s')
      with (Some (String.concat " " (Collapsible.collapsed s')))
      by (subst s'; reflexivity).
    rewrite negb_true_iff, <- not_true_iff_false, includes_In.
    destruct (Collapsible.collapsed s') as [|y l] eqn:Hc.
    - simpl. split; [tauto|]. intros _ [H|[]]. congruence.
    - rewrite js_split_concat; [tauto|discriminate|exact Hall']. }
  split; [now apply Hread|].
  intros Hne.
  destruct (toggle_keeps_list_in_step id s) as (_ & Hin & _).
  fold s' in Hin.
  destruct (Collapsible.isOpen s') eqn:Ho.
  - apply Hread; [exact Hne|]. intros H. apply Hin in H. discriminate.
  - apply not_true_iff_false. intros H. apply Hread in H; [|exact Hne].
    apply H, Hin. reflexivity.
Qed.

Lemma toggle_then_mount_witness :
  let s' := Collapsible.toggle "versions"
              (Collapsible.mkState true ["readme"; "install"] None) in
  (Collapsible.isOpen (Collapsible.onMounted "readme" s') = true <->
     ~ In "readme" (Collapsible.collapsed s'))
  /\ ("versions" <> "" ->
      Collapsible.isOpen (Collapsible.onMounted "versions" s')
      = Collapsible.isOpen s').
Proof.
  apply (toggle_then_mount "versions" "readme"
           (Collapsible.mkState true ["readme"; "install"] None)).
  - repeat constructor.
  - reflexivity.
  - discriminate.
Defined.

(** * [Package/Versions.vue] *)

Lemma insertM_perm (A : Type) (cmpM : A -> A -> result Z) (x : A) (l l' : list A) :
  insertM cmpM x l = Ok l' -> Permutation (x :: l) l'.
Proof.
  revert l'. induction l as [|y l IH]; intros l'; simpl.
  - intros [= <-]. apply Permutation_refl.
  - destruct (cmpM x y) as [c|e]; simpl; [|discriminate].
    destruct (c <=? 0); [intros [= <-]; apply Permutation_refl|].
    destruct (insertM cmpM x l) as [r|e]; simpl; [|discriminate].
    intros [= <-]. eapply perm_trans; [apply perm_swap|].
    apply perm_skip. now apply IH.
Qed.

Lemma sortM_perm (A : Type) (cmpM : A -> A -> result Z) (l l' : list A) :
  sortM cmpM l = Ok l' -> Permutation l l'.
Proof.
  revert l'. induction l as [|x l IH]; intros l'; simpl.
  - intros [= <-]. constructor.
  - destruct (sortM cmpM l) as [s|e]; simpl; [|discriminate].
    intros H. apply insertM_perm in H.
    eapply perm_trans; [apply perm_skip, IH; reflexivity|exact H].
Qed.

Section TagRowFacts.
Variable versions : Obj SlimVersion.t.

Lemma add_tag_has_tag (m : list TagGroup) (tag v v' t : string) :
  has_tag (add_tag versions m tag v) v' t <->
  has_tag m v' t \/ (t = tag /\ v' = v).
Proof.
  unfold has_tag. induction m as [|[w [tags vd]] m IH]; simpl.
  - split.
    + intros (tags & vd & [[= <- <- <-]|[]] & [<-|[]]). now right.
    + intros [(tags & vd & [] & _)|[-> ->]].
      exists [tag], (get versions v). split; now left.
  - destruct (String.eqb_spec w v) as [->|Hne].
    + split.
      * intros (tags' & vd' & [[= <- <- <-]|Hin] & Ht).
        -- apply in_app_or in Ht. destruct Ht as [Ht|[<-|[]]]; [|now right].
           left. exists tags, vd. split; [now left|exact Ht].
        -- left. exists tags', vd'. split; [now right|exact Ht].
      * intros [(tags' & vd' & [[= <- <- <-]|Hin] & Ht)|[-> ->]].
        -- exists (tags ++ [tag])%list, vd. split; [now left|].
           apply in_or_app. now left.
        -- exists tags', vd'. split; [now right|exact Ht].
        -- exists (tags ++ [tag])%list, vd. split; [now left|].
           apply in_or_app. right. now left.
    + split.
      * intros (tags' & vd' & [[= <- <- <-]|Hin] & Ht).
        -- left. exists tags, vd. split; [now left|exact Ht].
        -- destruct (proj1 IH) as [(t1 & d1 & H1 & H2)|H]; [now exists tags', vd'| |].
           ++ left. exists t1, d1. split; [now right|exact H2].
           ++ now right.
      * intros [(tags' & vd' & [[= <- <- <-]|Hin] & Ht)|H].
        -- exists tags, vd. split; [now left|exact Ht].
        -- destruct (proj2 IH) as (t1 & d1 & H1 & H2);
             [left; now exists tags', vd'|].
           exists t1, d1. split; [now right|exact H2].
        -- destruct (proj2 IH) as (t1 & d1 & H1 & H2); [now right|].
           exists t1, d1. split; [now right|exact H2].
Qed.

Lemma add_tag_keys (m : list TagGroup) (tag v : string) :
  NoDup (map fst m) -> NoDup (map fst (add_tag versions m tag v))
  /\ forall w, In w (map fst (add_tag versions m tag v)) <-> In w (map fst m) \/ w = v.
Proof.
  induction m as [|[w [tags vd]] m IH]; simpl; intros Hnd.
  - split; [constructor; [intros []|constructor]|].
    intros w. simpl. intuition congruence.
  - inversion Hnd as [|? ? Hnot Hnd']; subst.
    destruct (String.eqb_spec w v) as [->|Hne]; simpl.
    + split; [exact Hnd|]. intros x. simpl. intuition congruence.
    + destruct (IH Hnd') as [IH1 IH2]. split.
      * constructor; [|exact IH1]. rewrite IH2. intros [H| ->]; congruence.
      * intros x. simpl. rewrite IH2. tauto.
Qed.

Lemma add_tag_nonempty (m : list TagGroup) (tag v : string) :
  Forall (fun g : TagGroup => fst (snd g) <> []) m ->
  Forall (fun g : TagGroup => fst (snd g) <> []) (add_tag versions m tag v).
Proof.
  induction 1 as [|[w [tags vd]] m Hg Hm IH]; simpl.
  - repeat constructor. discriminate.
  - destruct (String.eqb w v); constructor; auto. simpl.
    destruct tags; discriminate.
Qed.

Lemma versionMap_facts (distTags : Obj string) :
  NoDup (map fst (versionMap versions distTags))
  /\ Forall (fun g : TagGroup => fst (snd g) <> []) (versionMap versions distTags)
  /\ forall v t, has_tag (versionMap versions distTags) v t <-> In (t, v) distTags.
Proof.
  unfold versionMap.
  assert (H : forall l m,
             NoDup (map fst m) ->
             Forall (fun g : TagGroup => fst (snd g) <> []) m ->
             let m' := fold_left (fun m entry => add_tag versions m (fst entry) (snd entry)) l m in
             NoDup (map fst m')
             /\ Forall (fun g : TagGroup => fst (snd g) <> []) m'
             /\ forall v t, has_tag m' v t <-> has_tag m v t \/ In (t, v) l).
  { induction l as [|[tag v] l IH]; intros m Hnd Hne; simpl.
    - split; [exact Hnd|]. split; [exact Hne|]. intros v0 t0. tauto.
    - destruct (IH (add_tag versions m tag v)) as (H1 & H2 & H3).
      + now apply add_tag_keys.
      + now apply add_tag_nonempty.
      + split; [exact H1|]. split; [exact H2|].
        intros v0 t0. rewrite H3, add_tag_has_tag.
        split; [intros [[H|[-> ->]]|H]|intros [H|[[= -> ->]|H]]]; auto. }
  destruct (H distTags []) as (H1 & H2 & H3); [constructor|constructor|].
  split; [exact H1|]. split; [exact H2|].
  intros v0 t0. rewrite H3. unfold has_tag.
  split; [intros [(tags & vd & [] & _)|H']; exact H'|now right].
Qed.

Variable localeCompare : string -> string -> Z.
Variable time_of : Obj string.

(** ['latest'] sorts to the front, whatever [localeCompare] does. *)
Lemma sort_latest_first (l : list string) :
  In "latest" l -> nth 0 (sort (compare_tags localeCompare) l) "" = "latest".
Proof.
  assert (Hins : forall x s,
             x = "latest" \/ nth 0 s "" = "latest" ->
             nth 0 (insert (compare_tags localeCompare) x s) "" = "latest").
  { intros x s H. destruct s as [|y s]; simpl.
    - destruct H as [->|H]; [reflexivity|]. simpl in H. discriminate.
    - unfold compare_tags at 1.
      destruct (String.eqb_spec x "latest") as [->|Hx]; [reflexivity|].
      destruct H as [H|H]; [congruence|]. simpl in H. subst y. reflexivity. }
  induction l as [|x l IH]; simpl; [tauto|].
  intros [->|H]; apply Hins; [now left|right; now apply IH].
Qed.

(** X20.  The rows of the dist-tags, when they are computed: every tagged
    version has one row, every dist-tag is among the tags of the row of its
    version and of no other row, and the primary tag of a row is the first
    of its tags, which is ['latest'] whenever the row has that tag. *)
Theorem allTagRows_one_row_per_version :
  forall (distTags : Obj string) (rows : list TagRow.t),
    allTagRows localeCompare versions distTags time_of = Ok rows ->
    NoDup (map TagRow.version rows)
    /\ (forall t v, In (t, v) distTags <->
          exists r, In r rows /\ TagRow.version r = v /\ In t (TagRow.tags r))
    /\ forall r, In r rows ->
         TagRow.tags r <> []
         /\ TagRow.tag r = hd "" (TagRow.tags r)
         /\ (In "latest" (TagRow.tags r) -> TagRow.tag r = "latest")
         /\ TagRow.id r = ("version:" ++ TagRow.version r)%string.
Proof.
  intros distTags rows H. unfold allTagRows in H. apply sortM_perm in H.
  destruct (versionMap_facts distTags) as (Hnd & Hne & Htag).
  set (m := versionMap versions distTags) in *.
  assert (Hrow : forall r, In r rows <-> exists g, In g m /\ r = to_row localeCompare time_of g).
  { intros r. split.
    - intros Hr. apply (Permutation_in r (Permutation_sym H)) in Hr.
      apply in_map_iff in Hr. destruct Hr as (g & <- & Hg). now exists g.
    - intros (g & Hg & ->). apply (Permutation_in _ H). now apply in_map. }
  assert (Htags : forall g t, In t (TagRow.tags (to_row localeCompare time_of g))
                              <-> In t (fst (snd g))).
  { intros g t. simpl. split; intros Ht.
    - eapply Permutation_in; [apply Permutation_sym, sort_perm|exact Ht].
    - eapply Permutation_in; [apply sort_perm|exact Ht]. }
  split; [|split].
  - eapply Permutation_NoDup; [apply Permutation_map; exact H|].
    rewrite map_map. exact Hnd.
  - intros t v. rewrite <- Htag. unfold has_tag. split.
    + intros (tags & vd & Hin & Ht).
      exists (to_row localeCompare time_of (v, (tags, vd))).
      split; [apply Hrow; eauto|]. split; [reflexivity|]. now apply Htags.
    + intros (r & Hr & <- & Ht). apply Hrow in Hr.
      destruct Hr as ([v [tags vd]] & Hg & ->). apply Htags in Ht.
      now exists tags, vd.
  - intros r Hr. apply Hrow in Hr. destruct Hr as ([v [tags vd]] & Hg & ->).
    rewrite Forall_forall in Hne. specialize (Hne _ Hg). simpl in Hne.
    cbn [to_row TagRow.tags TagRow.tag TagRow.id TagRow.version
           TagRow.primaryVersion VersionDisplay.version fst snd].
    repeat split.
    + intros Hs. apply Hne.
      apply Permutation_nil. rewrite <- Hs. apply Permutation_sym, sort_perm.
    + now destruct (sort (compare_tags localeCompare) tags).
    + intros Hl. apply sort_latest_first.
      eapply Permutation_in; [apply Permutation_sym, sort_perm|exact Hl].
Qed.

End TagRowFacts.

Lemma allTagRows_one_row_per_version_witness :
  NoDup (map TagRow.version sample_rows)
  /\ (forall t v, In (t, v) sample_distTags <->
        exists r, In r sample_rows /\ TagRow.version r = v /\ In t (TagRow.tags r))
  /\ forall r, In r sample_rows ->
       TagRow.tags r <> []
       /\ TagRow.tag r = hd "" (TagRow.tags r)
       /\ (In "latest" (TagRow.tags r) -> TagRow.tag r = "latest")
       /\ TagRow.id r = ("version:" ++ TagRow.version r)%string.
Proof.
  apply (allTagRows_one_row_per_version sample_versions compare_code_units []
           sample_distTags sample_rows).
  reflexivity.
Defined.

Example sample_rows_order :
  map TagRow.version sample_rows = ["3.0.0-beta.1"; "2.1.0"; "1.9.4"]
  /\ map TagRow.tags sample_rows = [["next"]; ["latest"; "stable"]; ["legacy"]].
Proof. split; reflexivity. Qed.

Section VisibleRowFacts.
Variable versions : Obj SlimVersion.t.
Variable distTags : Obj string.
Variable isFilterActive : bool.
Variable filteredVersionSet : string -> bool.

Local Abbreviation visible :=
  (visibleTagRows versions distTags isFilterActive filteredVersionSet).
Local Abbreviation hidden :=
  (hiddenTagRows versions distTags isFilterActive filteredVersionSet).
Local Abbreviation shown :=
  (shown_row versions distTags isFilterActive filteredVersionSet).

Lemma filter_by_range_In (rows : list TagRow.t) (row : TagRow.t) :
  In row (filter_by_range isFilterActive filteredVersionSet rows) <->
  In row rows
  /\ (isFilterActive = true -> filteredVersionSet (TagRow.version row) = true).
Proof.
  unfold filter_by_range. destruct isFilterActive.
  - rewrite filter_In. tauto.
  - split; [intros H; split; [exact H|discriminate]|tauto].
Qed.

Lemma candidate_rows_In (all : list TagRow.t) (row : TagRow.t) :
  In row
    (filter_by_range isFilterActive filteredVersionSet
       (if isPackageDeprecated versions distTags then all
        else filter (fun row => negb (truthy_opt (VersionDisplay.deprecated
                                                    (TagRow.primaryVersion row)))) all))
  <-> In row all /\ shown row.
Proof.
  rewrite filter_by_range_In. unfold shown_row.
  destruct (isPackageDeprecated versions distTags).
  - split; [intros [H1 H2]|intros [H1 [_ H2]]]; repeat split; auto. discriminate.
  - rewrite filter_In, negb_true_iff. tauto.
Qed.

Lemma removelast_In (A : Type) (l : list A) (x : A) :
  In x (removelast l) -> In x l.
Proof.
  induction l as [|y l IH]; simpl; [tauto|].
  destruct l as [|z l]; [intros []|]. intros [->|H]; [now left|right; now apply IH].
Qed.

Lemma removelast_length (A : Type) (l : list A) :
  List.length (removelast l) = Nat.pred (List.length l).
Proof.
  induction l as [|y l IH]; [reflexivity|].
  destruct l as [|z l]; [reflexivity|].
  change (removelast (y :: z :: l)) with (y :: removelast (z :: l)).
  simpl List.length in *. rewrite IH. reflexivity.
Qed.

Lemma includes_row_In (rows : list TagRow.t) (row : TagRow.t) :
  In row rows -> includes_row rows row = true.
Proof.
  intros H. unfold includes_row. apply existsb_exists.
  exists row. split; [exact H|apply String.eqb_refl].
Qed.

(** Among rows with distinct [id]s, [includes] finds the row itself. *)
Lemma includes_row_unique (all rows : list TagRow.t) (row : TagRow.t) :
  NoDup (map TagRow.id all) ->
  incl rows all -> In row all ->
  includes_row rows row = true -> In row rows.
Proof.
  intros Hnd Hincl Hrow H. unfold includes_row in H.
  apply existsb_exists in H. destruct H as (r & Hr & Hid).
  apply String.eqb_eq in Hid.
  assert (r = row); [|now subst].
  assert (Hrall : In r all) by now apply Hincl.
  clear -Hnd Hrall Hrow Hid. induction all as [|a all IH]; [destruct Hrow|].
  simpl in Hnd. inversion Hnd as [|? ? Hnot Hnd']; subst.
  destruct Hrall as [<-|Hr], Hrow as [<-|Hrow]; auto.
  - exfalso. apply Hnot. rewrite Hid. now apply in_map.
  - exfalso. apply Hnot. rewrite <- Hid. now apply in_map.
Qed.

Lemma visible_In (all : list TagRow.t) (row : TagRow.t) :
  In row (visible all) -> In row all /\ shown row.
Proof.
  unfold visibleTagRows. cbv zeta.
  set (rows := filter_by_range _ _ _).
  assert (Hrows : forall r, In r rows <-> In r all /\ shown r)
    by (intros r; apply candidate_rows_In).
  assert (Hfirst : forall r, In r (firstn MAX_VISIBLE_TAGS rows) -> In r rows).
  { intros r Hr. rewrite <- (firstn_skipn MAX_VISIBLE_TAGS rows).
    apply in_or_app. now left. }
  destruct (find _ rows) as [latestTagRow|] eqn:Hfind.
  - apply find_some in Hfind. destruct Hfind as [Hl _].
    destruct (negb _).
    + intros H. apply in_app_or in H. destruct H as [H|[<-|[]]].
      * apply Hrows, Hfirst. now apply removelast_In.
      * now apply Hrows.
    + intros H. now apply Hrows, Hfirst.
  - intros H. now apply Hrows, Hfirst.
Qed.

(** X21.  The visible tag rows: there are at most ten, each is a row of
    [allTagRows] that passes the deprecation and range filters, and when
    some row that passes them has ['latest'] as its primary tag, a row with
    that primary tag is visible. *)
Theorem visibleTagRows_keeps_latest :
  forall all : list TagRow.t,
    NoDup (map TagRow.id all) ->
    (List.length (visible all) <= MAX_VISIBLE_TAGS)%nat
    /\ (forall row, In row (visible all) -> In row all /\ shown row)
    /\ ((exists row, In row all /\ shown row /\ TagRow.tag row = "latest") ->
        exists row, In row (visible all) /\ TagRow.tag row = "latest").
Proof.
  intros all Hnd. split; [|split; [apply visible_In|]].
  - unfold visibleTagRows. cbv zeta.
    set (rows := filter_by_range _ _ _).
    pose proof (firstn_le_length MAX_VISIBLE_TAGS rows) as Hlen.
    destruct (find _ rows); [|exact Hlen].
    destruct (negb _); [|exact Hlen].
    rewrite length_app, removelast_length. cbn [List.length].
    unfold MAX_VISIBLE_TAGS in *. lia.
  - intros (row & Hrow & Hshown & Htag).
    assert (Hrows : In row
              (filter_by_range isFilterActive filteredVersionSet
                 (if isPackageDeprecated versions distTags then all
                  else filter (fun row => negb (truthy_opt (VersionDisplay.deprecated
                                                              (TagRow.primaryVersion row)))) all)))
      by (apply candidate_rows_In; now split).
    unfold visibleTagRows. cbv zeta.
    set (rows := filter_by_range _ _ _) in *.
    destruct (find (fun row => String.eqb (TagRow.tag row) "latest") rows)
      as [latestTagRow|] eqn:Hfind.
    + pose proof (find_some _ _ Hfind) as [Hl Hlt]. apply String.eqb_eq in Hlt.
      exists latestTagRow. split; [|exact Hlt].
      destruct (includes_row (firstn MAX_VISIBLE_TAGS rows) latestTagRow) eqn:Hinc; simpl.
      * apply (includes_row_unique all); auto.
        -- intros r Hr. apply (candidate_rows_In all r). change (In r rows).
           rewrite <- (firstn_skipn MAX_VISIBLE_TAGS rows).
           apply in_or_app. now left.
        -- now apply (candidate_rows_In all latestTagRow).
      * apply in_or_app. right. now left.
    + exfalso. apply (find_none _ _ Hfind) in Hrows.
      rewrite Htag in Hrows. discriminate.
Qed.

(** X22.  Visible and hidden rows divide the rows of [allTagRows]: a row
    whose version passes the range filter (every row, when no filter is
    active) is visible or hidden and not both; a row whose version does not
    pass it is neither; and nothing else is hidden. *)
Theorem visible_hidden_partition :
  forall all : list TagRow.t,
    NoDup (map TagRow.id all) ->
    (forall row, In row (hidden all) -> In row all)
    /\ forall row, In row all ->
         if isFilterActive && negb (filteredVersionSet (TagRow.version row))
         then ~ In row (visible all) /\ ~ In row (hidden all)
         else (In row (visible all) \/ In row (hidden all))
              /\ ~ (In row (visible all) /\ In row (hidden all)).
Proof.
  intros all Hnd.
  assert (Hhid : forall row, In row (hidden all) <->
            In row all /\ includes_row (visible all) row = false
            /\ (isFilterActive = true -> filteredVersionSet (TagRow.version row) = true)).
  { intros row. unfold hiddenTagRows.
    rewrite filter_by_range_In, filter_In, negb_true_iff. tauto. }
  split; [intros row H; apply Hhid in H; tauto|].
  intros row Hrow.
  assert (Hinc : includes_row (visible all) row = true <-> In row (visible all)).
  { split; [|apply includes_row_In].
    apply (includes_row_unique all); auto.
    intros r Hr. now apply visible_In in Hr. }
  destruct (isFilterActive && negb (filteredVersionSet (TagRow.version row))) eqn:Hc.
  - apply andb_true_iff in Hc. destruct Hc as [Ha Hf].
    apply negb_true_iff in Hf. split.
    + intros Hv. apply visible_In in Hv. destruct Hv as [_ [_ Hv]].
      specialize (Hv Ha). congruence.
    + intros Hh. apply Hhid in Hh. destruct Hh as (_ & _ & Hh).
      specialize (Hh Ha). congruence.
  - assert (Hpass : isFilterActive = true ->
                    filteredVersionSet (TagRow.version row) = true).
    { intros Ha. rewrite Ha in Hc. simpl in Hc. now apply negb_false_iff in Hc. }
    split.
    + destruct (includes_row (visible all) row) eqn:Hi.
      * left. now apply Hinc.
      * right. apply Hhid. auto.
    + intros [Hv Hh]. apply Hhid in Hh. apply Hinc in Hv.
      destruct Hh as (_ & Hh & _). congruence.
Qed.

End VisibleRowFacts.

Lemma visibleTagRows_keeps_latest_witness :
  (List.length (visibleTagRows sample_versions sample_distTags false (fun _ => true)
                  sample_rows) <= MAX_VISIBLE_TAGS)%nat
  /\ (forall row,
        In row (visibleTagRows sample_versions sample_distTags false (fun _ => true)
                  sample_rows) ->
        In row sample_rows
        /\ shown_row sample_versions sample_distTags false (fun _ => true) row)
  /\ ((exists row,
          In row sample_rows
          /\ shown_row sample_versions sample_distTags false (fun _ => true) row
          /\ TagRow.tag row = "latest") ->
      exists row,
        In row (visibleTagRows sample_versions sample_distTags false (fun _ => true)
                  sample_rows)
        /\ TagRow.tag row = "latest").
Proof.
  apply (visibleTagRows_keeps_latest sample_versions sample_distTags false
           (fun _ => true) sample_rows).
  repeat constructor; simpl; intuition discriminate.
Defined.

Lemma visible_hidden_partition_witness :
  (forall row,
      In row (hiddenTagRows sample_versions sample_distTags false (fun _ => true)
                sample_rows) ->
      In row sample_rows)
  /\ forall row, In row sample_rows ->
       if false && negb ((fun _ : string => true) (TagRow.version row))
       then ~ In row (visibleTagRows sample_versions sample_distTags false
                        (fun _ => true) sample_rows)
            /\ ~ In row (hiddenTagRows sample_versions sample_distTags false
                           (fun _ => true) sample_rows)
       else (In row (visibleTagRows sample_versions sample_distTags false
                       (fun _ => true) sample_rows)
             \/ In row (hiddenTagRows sample_versions sample_distTags false
                          (fun _ => true) sample_rows))
            /\ ~ (In row (visibleTagRows sample_versions sample_distTags false
                            (fun _ => true) sample_rows)
                  /\ In row (hiddenTagRows sample_versions sample_distTags false
                               (fun _ => true) sample_rows)).
Proof.
  apply (visible_hidden_partition sample_versions sample_distTags false
           (fun _ => true) sample_rows).
  repeat constructor; simpl; intuition discriminate.
Defined.

Example sample_rows_visible_hidden :
  map TagRow.version
    (visibleTagRows sample_versions sample_distTags false (fun _ => true) sample_rows)
  = ["3.0.0-beta.1"; "2.1.0"]
  /\ map TagRow.version
       (hiddenTagRows sample_versions sample_distTags false (fun _ => true) sample_rows)
     = ["1.9.4"].
Proof. split; reflexivity. Qed.

(** * The version order with prerelease identifiers *)

Lemma weak_order_or_else (A : Type) (c1 c2 : A -> A -> Z) :
  weak_order c1 -> weak_order c2 ->
  weak_order (fun x y => Semver.or_else (c1 x y) (c2 x y)).
Proof.
  intros [A1 T1] [A2 T2]. unfold Semver.or_else. split.
  - intros x y. pose proof (A1 x y). pose proof (A1 y x). pose proof (A2 x y).
    destruct (Z.eqb_spec (c1 x y) 0), (Z.eqb_spec (c1 y x) 0); lia.
  - intros x y z.
    pose proof (A1 x y). pose proof (A1 y x). pose proof (A1 y z).
    pose proof (A1 z y). pose proof (A1 x z). pose proof (A1 z x).
    pose proof (T1 x y z). pose proof (T1 z y x). pose proof (T2 x y z).
    destruct (Z.eqb_spec (c1 x y) 0), (Z.eqb_spec (c1 y z) 0),
      (Z.eqb_spec (c1 x z) 0); lia.
Qed.

Lemma weak_order_on (A B : Type) (f : A -> B) (cmp : B -> B -> Z) :
  weak_order cmp -> weak_order (fun x y => cmp (f x) (f y)).
Proof. intros [H1 H2]. split; intros; [apply H1|apply H2]; assumption. Qed.

Lemma weak_order_compareNumbers : weak_order Semver.compareNumbers.
Proof.
  split.
  - intros x y.
    destruct (compareNumbers_cases x y) as [[-> ?]|[[-> ?]|[-> ?]]],
      (compareNumbers_cases y x) as [[-> ?]|[[-> ?]|[-> ?]]]; lia.
  - intros x y z.
    destruct (compareNumbers_cases x y) as [[-> ?]|[[-> ?]|[-> ?]]],
      (compareNumbers_cases y z) as [[-> ?]|[[-> ?]|[-> ?]]],
      (compareNumbers_cases x z) as [[-> ?]|[[-> ?]|[-> ?]]]; lia.
Qed.

Lemma weak_order_compareMain : weak_order Semver.compareMain.
Proof.
  unfold Semver.compareMain.
  apply (weak_order_or_else _
           (fun a b => Semver.compareNumbers (Semver.major a) (Semver.major b))
           (fun a b => Semver.or_else
                         (Semver.compareNumbers (Semver.minor a) (Semver.minor b))
                         (Semver.compareNumbers (Semver.patch a) (Semver.patch b)))).
  - apply (weak_order_on _ _ Semver.major), weak_order_compareNumbers.
  - apply (weak_order_or_else _
             (fun a b => Semver.compareNumbers (Semver.minor a) (Semver.minor b))
             (fun a b => Semver.compareNumbers (Semver.patch a) (Semver.patch b))).
    + apply (weak_order_on _ _ Semver.minor), weak_order_compareNumbers.
    + apply (weak_order_on _ _ Semver.patch), weak_order_compareNumbers.
Qed.

Lemma compare_code_units_cases (a b : string) :
  (compare_code_units a b = -1 /\ OrderedTypeEx.String_as_OT.lt a b)
  \/ (compare_code_units a b = 0 /\ a = b)
  \/ (compare_code_units a b = 1 /\ OrderedTypeEx.String_as_OT.lt b a).
Proof.
  unfold compare_code_units.
  destruct (String.compare a b) eqn:H.
  - right; left. split; [reflexivity|].
    apply OrderedTypeEx.String_as_OT.cmp_eq. exact H.
  - left. split; [reflexivity|].
    apply OrderedTypeEx.String_as_OT.cmp_lt. exact H.
  - right; right. split; [reflexivity|]. apply OrderedTypeEx.String_as_OT.cmp_lt.
    unfold OrderedTypeEx.String_as_OT.cmp. rewrite String.compare_antisym, H. reflexivity.
Qed.

Lemma string_lt_irrefl (a : string) : ~ OrderedTypeEx.String_as_OT.lt a a.
Proof.
  intros H. apply OrderedTypeEx.String_as_OT.lt_not_eq in H.
  apply H. reflexivity.
Qed.

Lemma weak_order_compare_code_units : weak_order compare_code_units.
Proof.
  split.
  - intros x y.
    destruct (compare_code_units_cases x y) as [[-> Hxy]|[[-> Hxy]|[-> Hxy]]],
      (compare_code_units_cases y x) as [[-> Hyx]|[[-> Hyx]|[-> Hyx]]];
      try lia; exfalso; subst;
      try (now apply (string_lt_irrefl y));
      try (now apply (string_lt_irrefl x));
      apply (string_lt_irrefl x); eapply OrderedTypeEx.String_as_OT.lt_trans; eassumption.
  - intros x y z.
    destruct (compare_code_units_cases x y) as [[-> Hxy]|[[-> Hxy]|[-> Hxy]]],
      (compare_code_units_cases y z) as [[-> Hyz]|[[-> Hyz]|[-> Hyz]]],
      (compare_code_units_cases x z) as [[-> Hxz]|[[-> Hxz]|[-> Hxz]]];
      try lia; exfalso; subst;
      try (now apply (string_lt_irrefl z));
      try (now apply (string_lt_irrefl y));
      try (apply (string_lt_irrefl z); eapply OrderedTypeEx.String_as_OT.lt_trans; eassumption);
      try (apply (string_lt_irrefl y); eapply OrderedTypeEx.String_as_OT.lt_trans; eassumption);
      apply (string_lt_irrefl x);
      eapply OrderedTypeEx.String_as_OT.lt_trans; [eassumption|];
      eapply OrderedTypeEx.String_as_OT.lt_trans; eassumption.
Qed.

Lemma weak_order_precedenceIdentifiers : weak_order precedenceIdentifiers.
Proof.
  destruct weak_order_compareNumbers as [AN TN].
  destruct weak_order_compare_code_units as [AS TS].
  unfold precedenceIdentifiers. split.
  - intros x y.
    destruct (Semver.is_numeric_id x), (Semver.is_numeric_id y);
      try lia; [apply AN|apply AS].
  - intros x y z.
    destruct (Semver.is_numeric_id x), (Semver.is_numeric_id y),
      (Semver.is_numeric_id z); try lia; [apply TN|apply TS].
Qed.

Lemma weak_order_precedencePreLoop : weak_order precedencePreLoop.
Proof.
  destruct weak_order_precedenceIdentifiers as [AI TI].
  split.
  - intros x. induction x as [|a x IH]; intros [|b y]; simpl; try lia.
    pose proof (AI a b). pose proof (AI b a). pose proof (IH y).
    destruct (Z.eqb_spec (precedenceIdentifiers a b) 0),
      (Z.eqb_spec (precedenceIdentifiers b a) 0); lia.
  - intros x. induction x as [|a x IH]; intros [|b y] [|c z]; simpl; try lia.
    pose proof (AI a b). pose proof (AI b a). pose proof (AI b c).
    pose proof (AI c b). pose proof (AI a c). pose proof (AI c a).
    pose proof (TI a b c). pose proof (TI c b a). pose proof (IH y z).
    destruct (Z.eqb_spec (precedenceIdentifiers a b) 0),
      (Z.eqb_spec (precedenceIdentifiers b c) 0),
      (Z.eqb_spec (precedenceIdentifiers a c) 0); lia.
Qed.

Lemma weak_order_precedencePre : weak_order precedencePre.
Proof.
  destruct weak_order_precedencePreLoop as [AL TL].
  unfold precedencePre. split.
  - intros x y.
    destruct (Semver.prerelease_ids x) as [|a p] eqn:Hx,
      (Semver.prerelease_ids y) as [|b q] eqn:Hy; try lia.
    apply AL.
  - intros x y z.
    destruct (Semver.prerelease_ids x) as [|a p] eqn:Hx,
      (Semver.prerelease_ids y) as [|b q] eqn:Hy,
      (Semver.prerelease_ids z) as [|c r] eqn:Hz; try lia.
    apply TL.
Qed.

Lemma weak_order_precedence : weak_order precedence.
Proof.
  unfold precedence.
  apply (weak_order_or_else _ Semver.compareMain precedencePre).
  - apply weak_order_compareMain.
  - apply weak_order_precedencePre.
Qed.

(** Below 2^53 the conversion to a number keeps the value. *)
Lemma to_number_safe (n : N) : (n < 2 ^ 53)%N -> Semver.to_number n = n.
Proof.
  intros H. unfold Semver.to_number.
  destruct (N.ltb_spec (N.log2 n) 53) as [_|Hk]; [reflexivity|].
  exfalso. destruct (N.eq_dec n 0) as [->|Hn]; [simpl in Hk; lia|].
  apply N.log2_lt_pow2 in H; lia.
Qed.

Lemma Identifier_eqb_eq (a b : Semver.Identifier) :
  Semver.Identifier_eqb a b = true <-> a = b.
Proof.
  destruct a as [n|s], b as [m|t]; simpl; split; try discriminate.
  - intros H. apply N.eqb_eq in H. now subst.
  - intros [= ->]. apply N.eqb_refl.
  - intros H. apply String.eqb_eq in H. now subst.
  - intros [= ->]. apply String.eqb_refl.
Qed.

Lemma precedenceIdentifiers_refl (a : Semver.Identifier) :
  precedenceIdentifiers a a = 0.
Proof.
  destruct weak_order_precedenceIdentifiers as [AI _].
  pose proof (AI a a). lia.
Qed.

(** On the identifiers no rounding touches, [compareIdentifiers] is the
    exact precedence, and it tells any two different ones apart. *)
Lemma compareIdentifiers_safe (a b : Semver.Identifier) :
  safe_identifier a = true -> safe_identifier b = true ->
  Semver.compareIdentifiers a b = precedenceIdentifiers a b
  /\ (a <> b -> precedenceIdentifiers a b <> 0).
Proof.
  assert (Hmax : (Semver.MAX_SAFE_INTEGER < 2 ^ 53)%N) by reflexivity.
  unfold Semver.compareIdentifiers, precedenceIdentifiers.
  destruct a as [n|s], b as [m|t]; unfold safe_identifier; intros Ha Hb.
  - apply N.ltb_lt in Ha, Hb.
    cbn [Semver.is_numeric_id Semver.number_of_id].
    rewrite !to_number_safe by lia. split; [reflexivity|].
    intros Hne.
    destruct (compareNumbers_cases n m) as [[-> ?]|[[-> ?]|[-> ?]]];
      try lia. congruence.
  - apply negb_true_iff in Hb. rewrite Hb.
    cbn [Semver.is_numeric_id]. split; [reflexivity|lia].
  - apply negb_true_iff in Ha. rewrite Ha.
    cbn [Semver.is_numeric_id]. split; [reflexivity|lia].
  - apply negb_true_iff in Ha, Hb. rewrite Ha, Hb. split; [reflexivity|].
    cbn [Semver.string_of_identifier]. intros Hne.
    destruct (compare_code_units_cases s t) as [[-> _]|[[_ ->]|[-> _]]];
      try lia. congruence.
Qed.

Lemma comparePreLoop_safe (a b : list Semver.Identifier) :
  forallb safe_identifier a = true -> forallb safe_identifier b = true ->
  Semver.comparePreLoop a b = precedencePreLoop a b.
Proof.
  revert b. induction a as [|x a IH]; intros [|y b] Ha Hb; try reflexivity.
  cbn [forallb] in Ha, Hb.
  apply andb_true_iff in Ha. apply andb_true_iff in Hb.
  destruct Ha as [Hx Ha]. destruct Hb as [Hy Hb].
  cbn [Semver.comparePreLoop precedencePreLoop].
  destruct (compareIdentifiers_safe x y Hx Hy) as [Heq Hne].
  destruct (Semver.Identifier_eqb x y) eqn:E.
  - apply Identifier_eqb_eq in E. subst y.
    rewrite precedenceIdentifiers_refl. cbn [Z.eqb]. now apply IH.
  - rewrite Heq.
    assert (Hxy : x <> y).
    { intros ->. assert (Semver.Identifier_eqb y y = true)
        by now apply Identifier_eqb_eq. congruence. }
    destruct (Z.eqb_spec (precedenceIdentifiers x y) 0) as [H0|_];
      [now apply Hne in H0|reflexivity].
Qed.

Lemma SemVer_compare_safe (a b : Semver.SemVer) :
  forallb safe_identifier (Semver.prerelease_ids a) = true ->
  forallb safe_identifier (Semver.prerelease_ids b) = true ->
  Semver.SemVer_compare a b = precedence a b.
Proof.
  intros Ha Hb.
  unfold Semver.SemVer_compare, precedence, Semver.comparePre, precedencePre.
  destruct (Semver.prerelease_ids a) as [|x p], (Semver.prerelease_ids b) as [|y q];
    try reflexivity.
  now rewrite (comparePreLoop_safe _ _ Ha Hb).
Qed.

Lemma is_valid_parse (v : string) :
  is_valid v = true -> exists sv, Semver.SemVer_new v = Ok sv.
Proof.
  unfold is_valid, Semver.parse.
  destruct (Semver.SemVer_new v) as [sv|e]; [eauto|discriminate].
Qed.

Lemma compare_is_valid (a b : string) :
  is_valid a = true -> is_valid b = true ->
  Semver.compare a b = Ok (compare_valid a b).
Proof.
  intros Ha Hb. destruct (is_valid_parse a Ha) as [sa Hsa].
  destruct (is_valid_parse b Hb) as [sb Hsb].
  unfold compare_valid, Semver.compare. now rewrite Hsa, Hsb.
Qed.

Lemma compare_throws (a b : string) :
  is_valid a = false \/ is_valid b = false ->
  exists e, Semver.compare a b = Throw e.
Proof.
  unfold is_valid, Semver.parse, Semver.compare.
  destruct (Semver.SemVer_new a) as [sa|ea]; simpl; [|eauto].
  destruct (Semver.SemVer_new b) as [sb|eb]; simpl; [|eauto].
  intros [H|H]; discriminate.
Qed.

Lemma safe_version_parse (v : string) :
  safe_version v = true ->
  exists sv, Semver.SemVer_new v = Ok sv
             /\ forallb safe_identifier (Semver.prerelease_ids sv) = true.
Proof.
  unfold safe_version, Semver.parse.
  destruct (Semver.SemVer_new v) as [sv|e]; [eauto|discriminate].
Qed.

Lemma safe_version_valid (v : string) : safe_version v = true -> is_valid v = true.
Proof.
  unfold safe_version, is_valid.
  destruct (Semver.parse v); [reflexivity|discriminate].
Qed.

(** On valid versions whose numeric prerelease identifiers are below
    [MAX_SAFE_INTEGER], [compare] is a total preorder. *)
Lemma compare_safe_weak_order (a b c : string) :
  safe_version a = true -> safe_version b = true -> safe_version c = true ->
  (compare_valid a b <= 0 \/ compare_valid b a <= 0)
  /\ (compare_valid a b <= 0 -> compare_valid b c <= 0 -> compare_valid a c <= 0).
Proof.
  intros Ha Hb Hc.
  destruct (safe_version_parse a Ha) as (sa & Hsa & Hpa).
  destruct (safe_version_parse b Hb) as (sb & Hsb & Hpb).
  destruct (safe_version_parse c Hc) as (sc & Hsc & Hpc).
  unfold compare_valid, Semver.compare. rewrite Hsa, Hsb, Hsc. simpl.
  rewrite !SemVer_compare_safe by assumption.
  destruct weak_order_precedence as [AS TS].
  pose proof (AS sa sb). pose proof (TS sa sb sc). lia.
Qed.

(** A sort whose comparator throws on every element outside [P] succeeds
    on two or more elements only when all are in [P]. *)
Lemma sortM_Ok_all (A : Type) (cmpM : A -> A -> result Z) (P : A -> bool) :
  (forall x y, P x = false \/ P y = false -> exists e, cmpM x y = Throw e) ->
  forall l s, (2 <= List.length l)%nat -> sortM cmpM l = Ok s ->
              Forall (fun x => P x = true) l.
Proof.
  intros Hthrow. induction l as [|x l IH]; intros s Hlen H; [simpl in Hlen; lia|].
  simpl in H. destruct (sortM cmpM l) as [s'|e] eqn:Hs; simpl in H; [|discriminate].
  pose proof (sortM_perm _ _ _ _ Hs) as Hperm.
  destruct s' as [|z s'].
  { apply Permutation_sym, Permutation_nil in Hperm. subst l. simpl in Hlen. lia. }
  simpl in H. destruct (cmpM x z) as [c|e] eqn:Hc; simpl in H; [|discriminate].
  assert (Hxz : P x = true /\ P z = true).
  { destruct (P x) eqn:Hx, (P z) eqn:Hz; auto;
      destruct (Hthrow x z) as [e He]; auto; congruence. }
  destruct Hxz as [Hx Hz]. constructor; [exact Hx|].
  destruct l as [|y [|y' l]].
  - simpl in Hlen. lia.
  - simpl in Hs. injection Hs as <- <-. now constructor.
  - apply (IH (z :: s')); [simpl; lia|reflexivity].
Qed.

Section TagRowOrder.
Variable localeCompare : string -> string -> Z.
Variable versions : Obj SlimVersion.t.
Variable time_of : Obj string.
Variable distTags : Obj string.

Lemma versionMap_tagged (g : TagGroup) :
  In g (versionMap versions distTags) -> exists t, In (t, fst g) distTags.
Proof.
  intros Hg. destruct (versionMap_facts versions distTags) as (_ & Hne & Htag).
  rewrite Forall_forall in Hne. specialize (Hne g Hg).
  destruct g as [v [tags vd]]. simpl in *.
  destruct tags as [|t tags]; [congruence|].
  exists t. apply Htag. exists (t :: tags), vd. split; [exact Hg|now left].
Qed.

Lemma tagged_versionMap (t v : string) :
  In (t, v) distTags ->
  exists g, In g (versionMap versions distTags) /\ fst g = v.
Proof.
  intros H. destruct (versionMap_facts versions distTags) as (_ & _ & Htag).
  apply Htag in H. destruct H as (tags & vd & Hg & _).
  now exists (v, (tags, vd)).
Qed.

Lemma allTagRows_valid_Ok :
  (forall t v, In (t, v) distTags -> is_valid v = true) ->
  allTagRows localeCompare versions distTags time_of
  = Ok (sort (fun a b => compare_valid (TagRow.version b) (TagRow.version a))
          (map (to_row localeCompare time_of) (versionMap versions distTags)))
  /\ Forall (fun r => is_valid (TagRow.version r) = true)
       (map (to_row localeCompare time_of) (versionMap versions distTags)).
Proof.
  intros Hvalid.
  assert (HP : Forall (fun r => is_valid (TagRow.version r) = true)
                 (map (to_row localeCompare time_of) (versionMap versions distTags))).
  { apply Forall_forall. intros r Hr. apply in_map_iff in Hr.
    destruct Hr as (g & <- & Hg). destruct (versionMap_tagged g Hg) as [t Ht].
    exact (Hvalid t _ Ht). }
  split; [|exact HP]. unfold allTagRows.
  apply sortM_ok with (P := fun r => is_valid (TagRow.version r) = true).
  - intros x y Hx Hy. unfold compare_rows. now apply compare_is_valid.
  - exact HP.
Qed.

(** X23.  When every dist-tag points to a valid version whose digit-only
    prerelease identifiers are below [MAX_SAFE_INTEGER] (the identifiers
    [compare] takes as exact numbers), the rows are computed and are in
    descending semantic-version order, prereleases included: the version
    of a row is at least that of every row after it. *)
Theorem allTagRows_newest_first :
  (forall t v, In (t, v) distTags -> safe_version v = true) ->
  exists rows,
    allTagRows localeCompare versions distTags time_of = Ok rows
    /\ StronglySorted
         (fun r1 r2 => semver_ge (TagRow.version r1) (TagRow.version r2)) rows.
Proof.
  intros Hsafe.
  assert (Hvalid : forall t v, In (t, v) distTags -> is_valid v = true).
  { intros t v Hin. apply safe_version_valid, (Hsafe t v Hin). }
  destruct (allTagRows_valid_Ok Hvalid) as [HOk _].
  assert (HP : Forall (fun r => safe_version (TagRow.version r) = true)
                 (map (to_row localeCompare time_of) (versionMap versions distTags))).
  { apply Forall_forall. intros r Hr. apply in_map_iff in Hr.
    destruct Hr as (g & <- & Hg). destruct (versionMap_tagged g Hg) as [t Ht].
    exact (Hsafe t _ Ht). }
  eexists. split; [exact HOk|].
  apply StronglySorted_impl
    with (R := fun a b => compare_valid (TagRow.version b) (TagRow.version a) <= 0)
         (P := fun r => safe_version (TagRow.version r) = true).
  - intros x y Hx Hy H. unfold semver_ge, semver_le.
    rewrite (compare_is_valid _ _ (safe_version_valid _ Hy) (safe_version_valid _ Hx)).
    eauto.
  - apply sort_Forall, HP.
  - apply sort_sorted with (P := fun r => safe_version (TagRow.version r) = true).
    + intros x y Hx Hy.
      destruct (compare_safe_weak_order _ _ _ Hy Hx Hx) as [H _]. tauto.
    + intros x y z Hx Hy Hz H1 H2.
      destruct (compare_safe_weak_order _ _ _ Hz Hy Hx) as [_ H]. auto.
    + exact HP.
Qed.

(** X24.  The rows are computed exactly when at most one version is
    tagged or every tagged version is a valid version; otherwise the
    comparator of the sort throws and so does [allTagRows]. *)
Theorem allTagRows_throws_on_invalid :
  (exists rows, allTagRows localeCompare versions distTags time_of = Ok rows) <->
  ((List.length (versionMap versions distTags) <= 1)%nat
   \/ forall t v, In (t, v) distTags -> is_valid v = true).
Proof.
  split.
  - intros [rows H].
    destruct (le_lt_dec (List.length (versionMap versions distTags)) 1) as [Hl|Hl];
      [now left|right].
    unfold allTagRows in H.
    assert (HP : Forall (fun r => is_valid (TagRow.version r) = true)
                   (map (to_row localeCompare time_of) (versionMap versions distTags))).
    { apply (sortM_Ok_all _ compare_rows (fun r => is_valid (TagRow.version r))) with (s := rows).
      - intros x y Hxy. unfold compare_rows. apply compare_throws. tauto.
      - rewrite length_map. lia.
      - exact H. }
    intros t v Hin. destruct (tagged_versionMap t v Hin) as (g & Hg & <-).
    rewrite Forall_forall in HP.
    apply (HP (to_row localeCompare time_of g)). now apply in_map.
  - intros [Hl|Hvalid].
    + unfold allTagRows.
      destruct (versionMap versions distTags) as [|g [|g' m]]; simpl in *; eauto; lia.
    + destruct (allTagRows_valid_Ok Hvalid) as [HOk _]. eauto.
Qed.

End TagRowOrder.

Lemma allTagRows_newest_first_witness :
  exists rows,
    allTagRows compare_code_units sample_versions sample_distTags [] = Ok rows
    /\ StronglySorted
         (fun r1 r2 => semver_ge (TagRow.version r1) (TagRow.version r2)) rows.
Proof.
  apply (allTagRows_newest_first compare_code_units sample_versions [] sample_distTags).
  intros t v [[= <- <-]|[[= <- <-]|[[= <- <-]|[[= <- <-]|[]]]]]; reflexivity.
Defined.

Example allTagRows_invalid_tag :
  allTagRows compare_code_units [] [("latest", "1.0.0"); ("nightly", "2024-01-01")] []
  = Throw (Semver.invalid_version "2024-01-01")
  /\ exists rows,
       allTagRows compare_code_units [] [("nightly", "2024-01-01")] [] = Ok rows.
Proof. split; [reflexivity|eexists; reflexivity]. Qed.

(** The conversion of a digit-only identifier to a number: exact up to
    2^53, to the nearest even significand above. *)
Example to_number_rounds :
  map Semver.to_number
    [9007199254740991; 9007199254740992; 9007199254740993;
     9007199254740994; 9007199254740995; 18014398509481987]%N
  = [9007199254740991; 9007199254740992; 9007199254740992;
     9007199254740994; 9007199254740996; 18014398509481988]%N.
Proof. reflexivity. Qed.

(** Above 2^53 [compare] rounds: it finds two different prereleases equal
    both ways and is no total preorder any more (the second identifier is
    not looked at once the first pair differs), so the sort leaves such
    rows in the order of the dist-tags. *)
Example compare_rounds_above_2_53 :
  Semver.compare "1.0.0-9007199254740993" "1.0.0-9007199254740992" = Ok 0
  /\ Semver.compare "1.0.0-9007199254740992" "1.0.0-9007199254740993" = Ok 0
  /\ Semver.compare "1.0.0-9007199254740992.1" "1.0.0-9007199254740993.5" = Ok 0
  /\ Semver.compare "1.0.0-9007199254740993.5" "1.0.0-9007199254740992.2" = Ok 0
  /\ Semver.compare "1.0.0-9007199254740992.1" "1.0.0-9007199254740992.2" = Ok (-1)
  /\ safe_version "1.0.0-9007199254740993" = false
  /\ exists rows,
       allTagRows compare_code_units [] rounded_distTags [] = Ok rows
       /\ map TagRow.version rows
          = ["1.0.0-9007199254740992"; "1.0.0-9007199254740993"].
Proof. repeat split. eexists. split; reflexivity. Qed.
